(** * Continuous discovery: coordination engine

    A shallow embedding of the orchestrator's continuous-discovery logic
    (package [logic]): the election flag, the instance discovery operation
    with its throttle cache, the discovery workers, the health tick, the
    non re-entrant recovery trigger of the tick dispatcher and the
    SIGTERM shutdown drain.

    Collaborators that live in other packages (the probe, the backing store,
    the election service, logging and metrics sinks) are opaque: every call
    to one of them is recorded as an [Event] in a trace, and the answer it
    gives is read from an explicit environment record. *)

From Stdlib Require Import ZArith Lia.
From stdpp Require Import base gmap strings pretty list.

Local Open Scope Z_scope.

(** ** Machine integers and durations *)

(** Signed 64-bit wrap-around ([int64], [time.Duration]). *)
Definition wrap64 (z : Z) : Z := (z + 2 ^ 63) `mod` 2 ^ 64 - 2 ^ 63.

Definition int64_max : Z := 2 ^ 63 - 1.

(** [time.Duration] counts nanoseconds. *)
Definition Millisecond : Z := 1000000.
Definition Second : Z := 1000000000.

(** The fields of [config.Config] that the discovery logic reads, and the
    command-line flag [config.RuntimeCLIFlags.GrabElection]. The three
    numbers are [uint]s. *)
Record Configuration := {
  InstancePollSeconds : N;
  DiscoveryMaxConcurrency : N;
  DiscoveryCollectionRetentionSeconds : N;
  BufferInstanceWrites : bool;
  GrabElection : bool
}.

(** [time.Duration(config.Config.InstancePollSeconds) * time.Second] *)
Definition instancePollSecondsDuration (cfg : Configuration) : Z :=
  wrap64 (wrap64 (Z.of_N (InstancePollSeconds cfg)) * Second).

(** ** Instance keys *)

(** [inst.InstanceKey] *)
Record InstanceKey := { Hostname : string; Port : Z }.

#[global] Instance InstanceKey_eq_dec : EqDecision InstanceKey.
Proof. solve_decision. Defined.

(** An [error] value is represented by its message. *)
Definition error := string.

(** The methods of [inst.InstanceKey] the discovery logic calls. They are
    pure functions of the key and are declared in package [inst]; the
    development is parametric in them. *)
Class InstanceKeyMethods := {
  IsValid : InstanceKey → bool;
  DisplayString : InstanceKey → string;
  StringCode : InstanceKey → string
}.

(** The two fields of [inst.Instance] that [DiscoverInstance] reads. *)
Record Instance := {
  Key : InstanceKey;
  IsUpToDate : bool;
  IsLastCheckValid : bool
}.

(** ** The throttle cache *)

Module Cache.

(** Modelled from the spec: the expiring cache behind
    [recentDiscoveryOperationKeys] belongs to a cache library whose code is
    not among the sources. The spec describes it as a mapping from instance display string to a
    "recently probed" marker with a time-to-live; a marker is represented by
    its deadline, and it is unexpired up to and including that deadline. *)
Definition live (c : gmap string Z) (k : string) (now : Z) : bool :=
  match c !! k with
  | Some deadline => bool_decide (now ≤ deadline)
  | None => false
  end.

(** Modelled from the spec: [Add] inserts a marker with the given
    time-to-live unless an unexpired marker exists for the key, in which case
    the cache is left as it is and an error is returned. *)
Definition Add (k : string) (ttl : Z) (now : Z) (c : gmap string Z)
  : gmap string Z * option error :=
  if live c k now then (c, Some "item already exists"%string)
  else (<[k := now + ttl]> c, None).

End Cache.

(** ** The discovery queue *)

Module Queue.

(** Modelled from the spec: the code of [discovery.Queue] is not among the
    sources. The spec gives it as an ordered multiset of pending keys plus the keys that are
    in flight (consumed and not yet released), with a bounded capacity. *)
Record t := {
  pending : list InstanceKey;
  inflight : list InstanceKey;
  capacity : nat
}.

Definition empty (cap : nat) : t :=
  {| pending := []; inflight := []; capacity := cap |}.

(** Number of outstanding (queued or in-flight) entries for [k]. *)
Definition outstanding (k : InstanceKey) (q : t) : nat :=
  length (filter (λ k', k' = k) (pending q ++ inflight q)).

Definition present (k : InstanceKey) (q : t) : bool :=
  bool_decide (k ∈ pending q) || bool_decide (k ∈ inflight q).

(** No key is outstanding twice. *)
Definition wf (q : t) : Prop := NoDup (pending q ++ inflight q).

(** Modelled from the spec: [push(key)] enqueues [key] unless it is already
    pending or in flight. The spec leaves the policy of a saturated queue
    open (bounded blocking or drop); [None] stands for a push that meets a
    full queue and therefore does not enqueue at once. *)
Definition Push (k : InstanceKey) (q : t) : option t :=
  if present k q then Some q
  else if bool_decide (length (pending q) < capacity q)%nat
  then Some {| pending := pending q ++ [k]; inflight := inflight q; capacity := capacity q |}
  else None.

(** Modelled from the spec: [consume()] is a blocking pop ([None]: the
    queue is empty and the caller waits); the key becomes in flight. *)
Definition Consume (q : t) : option (InstanceKey * t) :=
  match pending q with
  | [] => None
  | k :: rest =>
      Some (k, {| pending := rest; inflight := k :: inflight q; capacity := capacity q |})
  end.

(** Modelled from the spec: [release(key)] marks [key] no longer in flight. *)
Definition Release (k : InstanceKey) (q : t) : t :=
  {| pending := pending q;
     inflight := filter (λ k', k' ≠ k) (inflight q);
     capacity := capacity q |}.

Definition QueueLen (q : t) : nat := length (pending q).

(** The operations applied to a queue over its lifetime. *)
Inductive op := OpPush (k : InstanceKey) | OpConsume | OpRelease (k : InstanceKey).

(** An operation that cannot proceed (saturated push, empty consume) leaves
    the queue as it is. *)
Definition apply (o : op) (q : t) : t :=
  match o with
  | OpPush k => default q (Push k q)
  | OpConsume => from_option snd q (Consume q)
  | OpRelease k => Release k q
  end.

Definition run (ops : list op) (q : t) : t := foldl (λ q o, apply o q) q ops.

End Queue.

(** ** Observable effects *)

Inductive Level := Debug | Info | Warning | Error.

(** The three [metrics.Counter]s that [DiscoverInstance] increments. *)
Inductive Counter :=
  | discoveriesCounter
  | failedDiscoveriesCounter
  | instancePollSecondsExceededCounter.

(** [discovery.Metric] *)
Record Metric := {
  Timestamp : Z;
  MetricInstanceKey : InstanceKey;
  TotalLatency : Z;
  BackendLatency : Z;
  InstanceLatency : Z;
  Err : option error
}.

(** One constructor per call that leaves the package. The [string] of a log
    event is the head of the format string at the call site; the [string]
    of [EvGo] names the function a goroutine is started for, that of
    [EvCall] a function of another package called in place.
    [EvStoreHasReceivedSIGTERM] marks the point of the atomic store to
    [hasReceivedSIGTERM] among the calls around it. *)
Inductive Event :=
  | EvLog (lvl : Level) (msg : string)
  | EvCounterInc (c : Counter) (n : Z)
  | EvCacheAdd (k : string) (ttl : Z)
  | EvReadInstance (k : InstanceKey)
  | EvReadTopologyInstanceBufferable (k : InstanceKey)
  | EvMetricAppend (m : Metric)
  | EvQueueConsume (k : InstanceKey)
  | EvQueuePush (k : InstanceKey)
  | EvQueueRelease (k : InstanceKey)
  | EvAttemptElection
  | EvElectedNode
  | EvReadOutdatedInstanceKeys
  | EvGo (f : string)
  | EvCall (f : string)
  | EvCheckAndRecover (goroutine : nat)
  | EvStoreHasReceivedSIGTERM (v : Z)
  | EvAuditOperation (auditType : string)
  | EvConfigReload
  | EvSetExpirePeriod (d : Z)
  | EvStopAutoExpiration
  | EvSleep (d : Z)
  | EvExit (code : Z).

#[global] Instance Level_eq_dec : EqDecision Level.
Proof. solve_decision. Defined.
#[global] Instance Counter_eq_dec : EqDecision Counter.
Proof. solve_decision. Defined.
#[global] Instance Metric_eq_dec : EqDecision Metric.
Proof. solve_decision. Defined.
#[global] Instance Event_eq_dec : EqDecision Event.
Proof. solve_decision. Defined.

Definition is_probe (e : Event) : bool :=
  match e with EvReadTopologyInstanceBufferable _ => true | _ => false end.

Definition is_metric (e : Event) : bool :=
  match e with EvMetricAppend _ => true | _ => false end.

Definition is_backend_read (e : Event) : bool :=
  match e with EvReadInstance _ => true | _ => false end.

Definition is_consume (e : Event) : bool :=
  match e with EvQueueConsume _ => true | _ => false end.

Definition is_release (e : Event) : bool :=
  match e with EvQueueRelease _ => true | _ => false end.

Definition is_check_and_recover (e : Event) : bool :=
  match e with EvCheckAndRecover _ => true | _ => false end.

(** How many events of a trace satisfy [p]. *)
Definition count (p : Event → bool) (tr : list Event) : nat :=
  length (filter (λ e, p e = true) tr).

(** How often an event occurs in a trace. *)
Definition occurrences (e : Event) (tr : list Event) : nat :=
  count (λ e', bool_decide (e' = e)) tr.

(** ** Package-level variables *)

Record Globals := {
  config : Configuration;
  isElectedNode : Z;
  hasReceivedSIGTERM : Z;
  recentDiscoveryOperationKeys : gmap string Z;
  discoveryQueue : Queue.t;
  snapshotDiscoveryKeys : list InstanceKey
}.

Definition set_config (cfg : Configuration) (g : Globals) : Globals :=
  {| config := cfg; isElectedNode := isElectedNode g;
     hasReceivedSIGTERM := hasReceivedSIGTERM g;
     recentDiscoveryOperationKeys := recentDiscoveryOperationKeys g;
     discoveryQueue := discoveryQueue g;
     snapshotDiscoveryKeys := snapshotDiscoveryKeys g |}.

Definition set_isElectedNode (v : Z) (g : Globals) : Globals :=
  {| config := config g; isElectedNode := v;
     hasReceivedSIGTERM := hasReceivedSIGTERM g;
     recentDiscoveryOperationKeys := recentDiscoveryOperationKeys g;
     discoveryQueue := discoveryQueue g;
     snapshotDiscoveryKeys := snapshotDiscoveryKeys g |}.

Definition set_hasReceivedSIGTERM (v : Z) (g : Globals) : Globals :=
  {| config := config g; isElectedNode := isElectedNode g;
     hasReceivedSIGTERM := v;
     recentDiscoveryOperationKeys := recentDiscoveryOperationKeys g;
     discoveryQueue := discoveryQueue g;
     snapshotDiscoveryKeys := snapshotDiscoveryKeys g |}.

Definition set_recentDiscoveryOperationKeys (c : gmap string Z) (g : Globals) : Globals :=
  {| config := config g; isElectedNode := isElectedNode g;
     hasReceivedSIGTERM := hasReceivedSIGTERM g;
     recentDiscoveryOperationKeys := c;
     discoveryQueue := discoveryQueue g;
     snapshotDiscoveryKeys := snapshotDiscoveryKeys g |}.

Definition set_discoveryQueue (q : Queue.t) (g : Globals) : Globals :=
  {| config := config g; isElectedNode := isElectedNode g;
     hasReceivedSIGTERM := hasReceivedSIGTERM g;
     recentDiscoveryOperationKeys := recentDiscoveryOperationKeys g;
     discoveryQueue := q;
     snapshotDiscoveryKeys := snapshotDiscoveryKeys g |}.

Definition set_snapshotDiscoveryKeys (ks : list InstanceKey) (g : Globals) : Globals :=
  {| config := config g; isElectedNode := isElectedNode g;
     hasReceivedSIGTERM := hasReceivedSIGTERM g;
     recentDiscoveryOperationKeys := recentDiscoveryOperationKeys g;
     discoveryQueue := discoveryQueue g;
     snapshotDiscoveryKeys := ks |}.

(** ** Election state *)

(** [atomic.LoadInt64(&isElectedNode) == 1] *)
Definition IsLeader (g : Globals) : bool := bool_decide (isElectedNode g = 1).

(** [atomic.LoadInt64(&isElectedNode) == 1] *)
Definition IsLeaderOrActive (g : Globals) : bool := bool_decide (isElectedNode g = 1).

(** ** The instance discovery operation *)

(** Modelled from the spec: the code of the probe
    [inst.ReadTopologyInstanceBufferable] is not among the sources. The spec
    gives its result as an instance state or an error; the call site adds
    that a panic inside the probe surfaces as a nil instance. *)
Inductive ProbeResult :=
  | ProbeInstance (instance : Instance)
  | ProbeNil (err : option error).

(** What the collaborators answer during one call of [DiscoverInstance],
    and what the stopwatch of that call reads. *)
Record DiscoverEnv := {
  (** [inst.InstanceIsForgotten] *)
  InstanceIsForgotten : InstanceKey → bool;
  (** [inst.RegexpMatchPatterns] against
      [config.Config.DiscoveryIgnoreHostnameFilters] *)
  RegexpMatchPatterns : string → bool;
  (** the key as [instanceKey.ResolveHostname()] leaves it *)
  ResolveHostname : InstanceKey → InstanceKey;
  (** the clock of the cache when [Add] runs *)
  cacheNow : Z;
  (** [inst.ReadInstance]: [Some] when [found] *)
  ReadInstance : InstanceKey → option Instance;
  ReadTopologyInstanceBufferable : InstanceKey → bool → ProbeResult;
  (** [latency.Elapsed] of the three spans right after the probe returned *)
  totalElapsedAfterProbe : Z;
  backendElapsedAfterProbe : Z;
  instanceElapsedAfterProbe : Z;
  (** [time.Now()] of the metric *)
  metricNow : Z;
  (** [util.ClearToLog] *)
  ClearToLog : string → string → bool;
  (** [latency.Elapsed("total")] in the deferred function, after [Stop] *)
  totalElapsedAtExit : Z
}.

Section Discovery.
Context `{InstanceKeyMethods}.

(** The deferred function of [DiscoverInstance]: it runs on every return
    that follows its registration. *)
Definition DiscoverInstance_deferred (g : Globals) (env : DiscoverEnv) : list Event :=
  let discoveryTime := totalElapsedAtExit env in
  if bool_decide (discoveryTime > instancePollSecondsDuration (config g))
  then [EvCounterInc instancePollSecondsExceededCounter 1;
        EvLog Warning "discoverInstance exceeded InstancePollSeconds"]
  else [].

Definition DiscoverInstance (g : Globals) (instanceKey : InstanceKey)
    (forceDiscovery : bool) (env : DiscoverEnv) : Globals * list Event :=
  if InstanceIsForgotten env instanceKey then
    (g, [EvLog Debug "discoverInstance: skipping discovery because it is set to be forgotten"])
  else if RegexpMatchPatterns env (StringCode instanceKey) then
    (g, [EvLog Debug "discoverInstance: skipping discovery because it matches DiscoveryIgnoreHostnameFilters"])
  else
    let deferred := DiscoverInstance_deferred g env in
    let instanceKey := ResolveHostname env instanceKey in
    if negb (IsValid instanceKey) then (g, deferred)
    else
      let ttl := instancePollSecondsDuration (config g) in
      let '(cache, existsInCacheError) :=
        Cache.Add (DisplayString instanceKey) ttl (cacheNow env)
                  (recentDiscoveryOperationKeys g) in
      let g := set_recentDiscoveryOperationKeys cache g in
      let added := EvCacheAdd (DisplayString instanceKey) ttl in
      if bool_decide (existsInCacheError ≠ None) && negb forceDiscovery then
        (g, [added] ++ deferred)
      else
        let read := EvReadInstance instanceKey in
        let fresh :=
          match ReadInstance env instanceKey with
          | Some instance => IsUpToDate instance && IsLastCheckValid instance
          | None => false
          end in
        if negb forceDiscovery && fresh then
          (g, [added; read] ++ deferred)
        else
          let probe := [EvCounterInc discoveriesCounter 1;
                        EvReadTopologyInstanceBufferable instanceKey] in
          let totalLatency := totalElapsedAfterProbe env in
          let backendLatency := backendElapsedAfterProbe env in
          let instanceLatency := instanceElapsedAfterProbe env in
          match ReadTopologyInstanceBufferable env instanceKey
                  (BufferInstanceWrites (config g)) with
          | ProbeNil err =>
              (g, [added; read] ++ probe ++
                  [EvCounterInc failedDiscoveriesCounter 1;
                   EvMetricAppend {| Timestamp := metricNow env;
                                     MetricInstanceKey := instanceKey;
                                     TotalLatency := totalLatency;
                                     BackendLatency := backendLatency;
                                     InstanceLatency := instanceLatency;
                                     Err := err |}] ++
                  (if ClearToLog env "discoverInstance" (StringCode instanceKey)
                   then [EvLog Warning " DiscoverInstance instance is nil"]
                   else []) ++
                  deferred)
          | ProbeInstance _ =>
              (g, [added; read] ++ probe ++
                  [EvMetricAppend {| Timestamp := metricNow env;
                                     MetricInstanceKey := instanceKey;
                                     TotalLatency := totalLatency;
                                     BackendLatency := backendLatency;
                                     InstanceLatency := instanceLatency;
                                     Err := None |}] ++
                  deferred)
          end.

(** Whether a call gets as far as the throttle check: the key is neither
    forgotten nor filtered, and it is valid once resolved. *)
Definition reaches_throttle (instanceKey : InstanceKey) (env : DiscoverEnv) : bool :=
  negb (InstanceIsForgotten env instanceKey)
  && negb (RegexpMatchPatterns env (StringCode instanceKey))
  && IsValid (ResolveHostname env instanceKey).

(** The cache key of a call: the display string of the resolved key. *)
Definition throttle_key (instanceKey : InstanceKey) (env : DiscoverEnv) : string :=
  DisplayString (ResolveHostname env instanceKey).

(** Whether a call passes the throttle check: it reaches it, and it is
    forced or finds no unexpired marker. *)
Definition passes_throttle (g : Globals) (instanceKey : InstanceKey)
    (forceDiscovery : bool) (env : DiscoverEnv) : bool :=
  reaches_throttle instanceKey env
  && (forceDiscovery
      || negb (Cache.live (recentDiscoveryOperationKeys g)
                 (throttle_key instanceKey env) (cacheNow env))).

(** Whether the backing store reports the resolved key as already fresh. *)
Definition store_fresh (instanceKey : InstanceKey) (env : DiscoverEnv) : bool :=
  match ReadInstance env (ResolveHostname env instanceKey) with
  | Some instance => IsUpToDate instance && IsLastCheckValid instance
  | None => false
  end.

(** ** The discovery workers *)

(** One turn of the loop that each worker goroutine of
    [handleDiscoveryRequests] runs. [None]: the queue is empty and
    [Consume] blocks. *)
Definition handleDiscoveryRequests_worker (g : Globals) (env : DiscoverEnv)
  : option (Globals * list Event) :=
  match Queue.Consume (discoveryQueue g) with
  | None => None
  | Some (instanceKey, q) =>
      let g := set_discoveryQueue q g in
      if negb (IsLeaderOrActive g) then
        Some (set_discoveryQueue (Queue.Release instanceKey (discoveryQueue g)) g,
              [EvQueueConsume instanceKey;
               EvLog Debug "Node apparently demoted. Skipping discovery";
               EvQueueRelease instanceKey])
      else
        let '(g, tr) := DiscoverInstance g instanceKey false env in
        Some (set_discoveryQueue (Queue.Release instanceKey (discoveryQueue g)) g,
              [EvQueueConsume instanceKey] ++ tr ++ [EvQueueRelease instanceKey])
  end.

(** [handleDiscoveryRequests] starts one worker goroutine per unit of
    [config.Config.DiscoveryMaxConcurrency]. *)
Definition handleDiscoveryRequests (g : Globals) : list Event :=
  replicate (N.to_nat (DiscoveryMaxConcurrency (config g))) (EvGo "discovery worker").

(** A worker's loop over the answers of successive turns; it stops where
    [Consume] blocks. *)
Fixpoint handleDiscoveryRequests_loop (envs : list DiscoverEnv) (g : Globals)
  : Globals * list Event :=
  match envs with
  | [] => (g, [])
  | env :: envs =>
      match handleDiscoveryRequests_worker g env with
      | None => (g, [])
      | Some (g, tr) =>
          let '(g, tr') := handleDiscoveryRequests_loop envs g in (g, tr ++ tr')
      end
  end.

(** What happens to the package state around a call of [DiscoverInstance]:
    other calls of it, from workers or forced from elsewhere, and reloads
    of the configuration. *)
Inductive Activity :=
  | Discover (instanceKey : InstanceKey) (forceDiscovery : bool) (env : DiscoverEnv)
  | Reload (cfg : Configuration).

Definition perform (a : Activity) (g : Globals) : Globals :=
  match a with
  | Discover instanceKey forceDiscovery env =>
      (DiscoverInstance g instanceKey forceDiscovery env).1
  | Reload cfg => set_config cfg g
  end.

Definition perform_all (acts : list Activity) (g : Globals) : Globals :=
  foldl (λ g a, perform a g) g acts.

(** The activity uses the cache no later than [deadline]. *)
Definition by_deadline (deadline : Z) (a : Activity) : Prop :=
  match a with
  | Discover _ _ env => cacheNow env ≤ deadline
  | Reload _ => True
  end.

End Discovery.

(** ** The health tick *)

(** Modelled from the spec: the code of [process.AttemptElection] is not
    among the sources. The spec gives its result as whether this process is
    now the active (elected) one, or an error. *)
Inductive ElectionAttempt :=
  | Elected (won : bool)
  | ElectionError (err : error).

(** The pair [myIsElectedNode, err] the call returns. *)
Definition myIsElectedNode (r : ElectionAttempt) : bool :=
  match r with Elected won => won | ElectionError _ => false end.

Definition election_err (r : ElectionAttempt) : option error :=
  match r with Elected _ => None | ElectionError err => Some err end.

(** What the collaborators answer during one call of [onHealthTick]. *)
Record HealthEnv := {
  AttemptElection : ElectionAttempt;
  (** [process.ElectedNode]: the error, if any *)
  ElectedNode_err : option error;
  (** [inst.ReadOutdatedInstanceKeys] *)
  ReadOutdatedInstanceKeys : list InstanceKey * option error
}.

(** How a call of [onHealthTick] ends: it returns, or it is held in a
    [Push] on a saturated queue. *)
Inductive TickStatus := TickReturned | TickHeldInPush (k : InstanceKey).

Section Health.
Context `{InstanceKeyMethods}.

(** The loop that pushes every valid key. *)
Fixpoint pushInstanceKeys (instanceKeys : list InstanceKey) (q : Queue.t)
  : Queue.t * list Event * TickStatus :=
  match instanceKeys with
  | [] => (q, [], TickReturned)
  | instanceKey :: rest =>
      if IsValid instanceKey then
        match Queue.Push instanceKey q with
        | Some q =>
            let '(q, tr, status) := pushInstanceKeys rest q in
            (q, EvQueuePush instanceKey :: tr, status)
        | None => (q, [EvQueuePush instanceKey], TickHeldInPush instanceKey)
        end
      else pushInstanceKeys rest q
  end.

Definition onHealthTick (g : Globals) (env : HealthEnv)
  : Globals * list Event * TickStatus :=
  let wasAlreadyElected := IsLeader g in
  let attempt := AttemptElection env in
  let tr := [EvAttemptElection] ++
            (if election_err attempt is Some _ then [EvLog Error "AttemptElection"] else []) in
  let g := if myIsElectedNode attempt
           then set_isElectedNode 1 g else set_isElectedNode 0 g in
  let tr := tr ++
            (if negb (myIsElectedNode attempt) then
               [EvElectedNode;
                if ElectedNode_err env is Some _
                then EvLog Info "Not elected as active node; active node: Unable to determine"
                else EvLog Info "Not elected as active node; active node"]
             else []) in
  if negb (IsLeaderOrActive g) then (g, tr, TickReturned)
  else
    let '(instanceKeys, err) := ReadOutdatedInstanceKeys env in
    let tr := tr ++ [EvReadOutdatedInstanceKeys] ++
              (if err is Some _ then [EvLog Error "ReadOutdatedInstanceKeys"] else []) in
    let tr := tr ++
              (if negb wasAlreadyElected
               then [EvGo "process.RegisterNode"; EvGo "inst.ExpireMaintenance"]
               else []) in
    let instanceKeys := instanceKeys ++ snapshotDiscoveryKeys g in
    let g := set_snapshotDiscoveryKeys [] g in
    let '(q, pushed, status) := pushInstanceKeys instanceKeys (discoveryQueue g) in
    (set_discoveryQueue q g, tr ++ pushed, status).

End Health.

(** ** The tick dispatcher and the recovery trigger *)

(** How a call of [CheckAndRecover] ends. *)
Inductive CheckAndRecoverOutcome :=
  | RecoverReturned (err : option error)
  | RecoverPanicked.

(** How the body of the recovery goroutine is left once the guard is held. *)
Inductive BodyExit :=
  | ExitNotRipe
  | ExitPass (o : CheckAndRecoverOutcome).

(** Where a recovery goroutine stands. Between two points lies one atomic
    action on the shared state. *)
Inductive GuardPC :=
  (** before [atomic.CompareAndSwapInt64(&recoveryEntrance, 0, 1)] *)
  | AtEntrance
  (** the swap succeeded and the release is deferred; before the ripeness test *)
  | Holding
  (** inside [CheckAndRecover] *)
  | Recovering
  (** the body is left; the deferred [atomic.StoreInt64(&recoveryEntrance, 0)] is due *)
  | Releasing (e : BodyExit)
  (** returned: [None] when the swap failed *)
  | Finished (e : option BodyExit).

#[global] Instance CheckAndRecoverOutcome_eq_dec : EqDecision CheckAndRecoverOutcome.
Proof. solve_decision. Defined.
#[global] Instance BodyExit_eq_dec : EqDecision BodyExit.
Proof. solve_decision. Defined.
#[global] Instance GuardPC_eq_dec : EqDecision GuardPC.
Proof. solve_decision. Defined.

Definition holds_guard (pc : GuardPC) : bool :=
  match pc with
  | Holding | Recovering | Releasing _ => true
  | AtEntrance | Finished _ => false
  end.

(** The locals of [ContinuousDiscovery] that its closures share, the
    package-level variables, the recovery goroutines started so far, and
    the trace. *)
Record Dispatcher := {
  globals : Globals;
  continuousDiscoveryStartTime : Z;
  checkAndRecoverWaitPeriod : Z;
  recoveryEntrance : Z;
  goroutines : list GuardPC;
  trace : list Event
}.

Definition holders (d : Dispatcher) : nat :=
  length (filter (λ pc, holds_guard pc = true) (goroutines d)).

(** [3 * instancePollSecondsDuration()] *)
Definition checkAndRecoverWaitPeriod_of (cfg : Configuration) : Z :=
  wrap64 (3 * instancePollSecondsDuration cfg).

(** The set-up part of [ContinuousDiscovery], up to its loop. *)
Definition ContinuousDiscovery_setup (g : Globals) (now : Z) : Dispatcher :=
  {| globals := set_recentDiscoveryOperationKeys ∅ g;
     continuousDiscoveryStartTime := now;
     checkAndRecoverWaitPeriod := checkAndRecoverWaitPeriod_of (config g);
     recoveryEntrance := 0;
     goroutines := [];
     trace := [EvLog Info "continuous discovery: setting up";
               EvCall "inst.LoadHostnameResolveCache";
               EvGo "handleDiscoveryRequests";
               EvCall "OpenTabletDiscovery";
               EvGo "ometrics.InitMetrics";
               EvGo "acceptSignals";
               EvGo "kv.InitKVStores";
               EvCall "reparentutil.SetDurabilityPolicy"] ++
              (if GrabElection (config g) then [EvCall "process.GrabElection"] else []) ++
              [EvLog Info "continuous discovery: starting"] |}.

(** [time.Since(continuousDiscoveryStartTime) >= checkAndRecoverWaitPeriod],
    with [time.Since] taken as the difference of two clock readings in
    nanoseconds. *)
Definition runCheckAndRecoverOperationsTimeRipe (d : Dispatcher) (now : Z) : bool :=
  bool_decide (now - continuousDiscoveryStartTime d >= checkAndRecoverWaitPeriod d).

Definition with_globals (g : Globals) (d : Dispatcher) : Dispatcher :=
  {| globals := g;
     continuousDiscoveryStartTime := continuousDiscoveryStartTime d;
     checkAndRecoverWaitPeriod := checkAndRecoverWaitPeriod d;
     recoveryEntrance := recoveryEntrance d;
     goroutines := goroutines d;
     trace := trace d |}.

Definition emit (tr : list Event) (d : Dispatcher) : Dispatcher :=
  {| globals := globals d;
     continuousDiscoveryStartTime := continuousDiscoveryStartTime d;
     checkAndRecoverWaitPeriod := checkAndRecoverWaitPeriod d;
     recoveryEntrance := recoveryEntrance d;
     goroutines := goroutines d;
     trace := trace d ++ tr |}.

Definition spawn_guard (d : Dispatcher) : Dispatcher :=
  {| globals := globals d;
     continuousDiscoveryStartTime := continuousDiscoveryStartTime d;
     checkAndRecoverWaitPeriod := checkAndRecoverWaitPeriod d;
     recoveryEntrance := recoveryEntrance d;
     goroutines := goroutines d ++ [AtEntrance];
     trace := trace d |}.

(** Goroutine [i] moves to [pc] and the entrance flag becomes [flag]. *)
Definition move (i : nat) (pc : GuardPC) (flag : Z) (d : Dispatcher) : Dispatcher :=
  {| globals := globals d;
     continuousDiscoveryStartTime := continuousDiscoveryStartTime d;
     checkAndRecoverWaitPeriod := checkAndRecoverWaitPeriod d;
     recoveryEntrance := flag;
     goroutines := <[i := pc]> (goroutines d);
     trace := trace d |}.

(** One atomic action of recovery goroutine [i]. [now] is what the clock
    reads should the action be the ripeness test, and [o] is how
    [CheckAndRecover] ends should the action be its return. *)
Definition guard_step (i : nat) (now : Z) (o : CheckAndRecoverOutcome)
    (d : Dispatcher) : Dispatcher :=
  match goroutines d !! i with
  | None => d
  | Some AtEntrance =>
      if bool_decide (recoveryEntrance d = 0)
      then move i Holding 1 d
      else move i (Finished None) (recoveryEntrance d) d
  | Some Holding =>
      if runCheckAndRecoverOperationsTimeRipe d now
      then emit [EvCheckAndRecover i] (move i Recovering (recoveryEntrance d) d)
      else emit [EvLog Debug "Waiting for seconds to pass before running failure detection/recovery"]
                (move i (Releasing ExitNotRipe) (recoveryEntrance d) d)
  | Some Recovering => move i (Releasing (ExitPass o)) (recoveryEntrance d) d
  | Some (Releasing e) => move i (Finished (Some e)) 0 d
  | Some (Finished _) => d
  end.

(** The goroutine of [case <-recoveryTick]. *)
Definition onRecoveryTick (d : Dispatcher) : Dispatcher :=
  if IsLeaderOrActive (globals d) then
    spawn_guard
      (emit [EvGo "ClearActiveFailureDetections";
             EvGo "ClearActiveRecoveries";
             EvGo "ExpireBlockedRecoveries";
             EvGo "AcknowledgeCrashedRecoveries";
             EvGo "inst.ExpireInstanceAnalysisChangelog"] d)
  else d.

(** The goroutine of [case <-instancePollTick]. *)
Definition onInstancePollTick (d : Dispatcher) : Dispatcher :=
  if IsLeaderOrActive (globals d) then
    emit [EvGo "inst.UpdateClusterAliases"; EvGo "inst.ExpireDowntime"; EvGo "injectSeeds"] d
  else d.

(** The goroutine of [case <-caretakingTick]. *)
Definition onCaretakingTick (now : Z) (d : Dispatcher) : Dispatcher :=
  if IsLeaderOrActive (globals d) then
    emit ([EvGo "inst.ReviewUnseenInstances";
           EvGo "inst.InjectUnseenPrimaries";
           EvGo "inst.ForgetLongUnseenInstances";
           EvGo "inst.ForgetUnseenInstancesDifferentlyResolved";
           EvGo "inst.ForgetExpiredHostnameResolves";
           EvGo "inst.DeleteInvalidHostnameResolves";
           EvGo "inst.ResolveUnknownPrimaryHostnameResolves";
           EvGo "inst.ExpireMaintenance";
           EvGo "inst.ExpireCandidateInstances";
           EvGo "inst.ExpireHostnameUnresolve";
           EvGo "inst.ExpireClusterDomainName";
           EvGo "inst.ExpireAudit";
           EvGo "inst.ExpirePoolInstances";
           EvGo "inst.FlushNontrivialResolveCacheToDatabase";
           EvGo "inst.ExpireStaleInstanceBinlogCoordinates";
           EvGo "process.ExpireNodesHistory";
           EvGo "process.ExpireAccessTokens";
           EvGo "process.ExpireAvailableNodes";
           EvGo "ExpireFailureDetectionHistory";
           EvGo "ExpireTopologyRecoveryHistory";
           EvGo "ExpireTopologyRecoveryStepsHistory"] ++
          (if runCheckAndRecoverOperationsTimeRipe d now && IsLeader (globals d)
           then [EvGo "SubmitPrimariesToKvStores"] else [])) d
  else emit [EvGo "inst.LoadHostnameResolveCache"] d.

(** The goroutine of [case <-snapshotTopologiesTick]. *)
Definition onSnapshotTopologiesTick (d : Dispatcher) : Dispatcher :=
  if IsLeaderOrActive (globals d) then emit [EvGo "inst.SnapshotTopologies"] d else d.

(** What the dispatcher and the goroutines it started do, one action at a
    time. The goroutine of a tick is taken as one action, except the
    recovery goroutine, which is split at its atomic operations so that
    several of them interleave. *)
Inductive Action :=
  | HealthTick (env : HealthEnv)
  | InstancePollTick
  | CaretakingTick (now : Z)
  | RecoveryTick
  | SnapshotTopologiesTick
  | TabletTopoTick
  | GuardStep (i : nat) (now : Z) (o : CheckAndRecoverOutcome).

Section Dispatch.
Context `{InstanceKeyMethods}.

Definition step (a : Action) (d : Dispatcher) : Dispatcher :=
  match a with
  | HealthTick env =>
      let '(g, tr, _) := onHealthTick (globals d) env in
      emit tr (with_globals g d)
  | InstancePollTick => onInstancePollTick d
  | CaretakingTick now => onCaretakingTick now d
  | RecoveryTick => onRecoveryTick d
  | SnapshotTopologiesTick => onSnapshotTopologiesTick d
  | TabletTopoTick => emit [EvGo "RefreshTablets"] d
  | GuardStep i now o => guard_step i now o d
  end.

Definition run (acts : list Action) (d : Dispatcher) : Dispatcher :=
  foldl (λ d a, step a d) d acts.

End Dispatch.

(** A recovery goroutine run from its entrance to its return with nothing
    in between: the three or four actions it takes at most. *)
Definition guard_run (i : nat) (now : Z) (o : CheckAndRecoverOutcome)
    (d : Dispatcher) : Dispatcher :=
  guard_step i now o (guard_step i now o (guard_step i now o (guard_step i now o d))).

(** ** Signals *)

Inductive Signal := SIGHUP | SIGTERM.

(** What the shutdown drain observes. [shardsLockCounter] and
    [shutdownWaitTime] are package variables declared in another file. *)
Record SignalEnv := {
  (** the configuration [config.Reload] installs *)
  reloaded : Configuration;
  (** [*shutdownWaitTime] *)
  shutdownWaitTime : Z;
  (** [atomic.LoadInt32(&shardsLockCounter)] in turn [n] of the loop *)
  shardsLockCounterAt : nat → Z;
  (** the time passed since [time.After] was called, at the [select] of
      turn [n] of the loop *)
  elapsedAt : nat → Z
}.

Inductive DrainExit := LocksReleased | TimedOut.

(** The loop that waits for the shard locks, from turn [n] on. The timer
    channel is ready once the wait time has passed. [None]: more turns than
    [fuel]. *)
Fixpoint waitForLocks (fuel : nat) (env : SignalEnv) (n : nat)
  : option (DrainExit * list Event) :=
  match fuel with
  | O => None
  | S fuel =>
      let count := shardsLockCounterAt env n in
      if bool_decide (count = 0) then Some (LocksReleased, [])
      else if bool_decide (shutdownWaitTime env ≤ elapsedAt env n) then
        Some (TimedOut,
              [EvLog Info "wait for lock release timed out. Some locks might not have been released."])
      else
        match waitForLocks fuel env (S n) with
        | Some (e, tr) => Some (e, EvSleep (100 * Millisecond) :: tr)
        | None => None
        end
  end.

(** The body of the goroutine of [acceptSignals] for one signal. The
    boolean tells whether the process has exited. *)
Definition acceptSignals (fuel : nat) (sig : Signal) (g : Globals) (env : SignalEnv)
  : option (Globals * list Event * bool) :=
  match sig with
  | SIGHUP =>
      let g := set_config (reloaded env) g in
      Some (g,
            [EvLog Info "Received SIGHUP. Reloading configuration";
             EvAuditOperation "reload-configuration";
             EvConfigReload;
             EvSetExpirePeriod
               (wrap64 (wrap64 (Z.of_N (DiscoveryCollectionRetentionSeconds (config g))) * Second))],
            false)
  | SIGTERM =>
      let g := set_hasReceivedSIGTERM 1 g in
      match waitForLocks fuel env 0 with
      | None => None
      | Some (_, waited) =>
          Some (g,
                [EvLog Info "Received SIGTERM. Starting shutdown";
                 EvStoreHasReceivedSIGTERM 1;
                 EvStopAutoExpiration;
                 EvAuditOperation "shutdown"] ++
                waited ++
                [EvLog Info "Shutting down orchestrator"; EvExit 0],
                true)
      end
  end.

(** ** Conditions on runs of the dispatcher *)

(** The election attempt returns an error or does not win. *)
Definition election_lost (r : ElectionAttempt) : Prop :=
  election_err r ≠ None ∨ myIsElectedNode r = false.

(** Every health tick among the actions loses its election attempt. *)
Definition tick_lost (a : Action) : Prop :=
  match a with
  | HealthTick env => election_lost (AttemptElection env)
  | _ => True
  end.

(** The action, if it is one of a recovery goroutine, reads the clock
    before the wait period of [d] has passed. *)
Definition early (d : Dispatcher) (a : Action) : Prop :=
  match a with
  | GuardStep _ now _ => now - continuousDiscoveryStartTime d < checkAndRecoverWaitPeriod d
  | _ => True
  end.

Definition finished (pc : GuardPC) : Prop :=
  match pc with Finished _ => True | _ => False end.

(** * Vocabulary of the statements *)

(** ** Invariants and conditions *)

(** The entrance flag counts the goroutines that hold the guard, and there
    is at most one. *)
Definition guard_inv (d : Dispatcher) : Prop :=
  recoveryEntrance d = Z.of_nat (holders d) ∧ (holders d ≤ 1)%nat.

Definition b2n (b : bool) : nat := if b then 1%nat else 0%nat.

(** The state of a process that is not elected and has no recovery
    goroutine under way. *)
Definition idle (d : Dispatcher) : Prop :=
  IsLeaderOrActive (globals d) = false ∧ Forall finished (goroutines d).

(** Turn [n] of the loop leaves it: the counter reads zero, or the timer
    has fired. *)
Definition leaves (env : SignalEnv) (n : nat) : Prop :=
  shardsLockCounterAt env n = 0 ∨ shutdownWaitTime env ≤ elapsedAt env n.

(** What the loop does in the turn it leaves. *)
Definition last_turn (env : SignalEnv) (n : nat) : DrainExit * list Event :=
  if bool_decide (shardsLockCounterAt env n = 0) then (LocksReleased, [])
  else (TimedOut,
        [EvLog Info "wait for lock release timed out. Some locks might not have been released."]).

(** Every [time.Sleep] of the loop takes at least its 100 ms. *)
Definition sleeps (env : SignalEnv) : Prop :=
  0 ≤ elapsedAt env 0
  ∧ ∀ n, elapsedAt env n + 100 * Millisecond ≤ elapsedAt env (S n).

(** ** The poll-seconds-exceeded signal and the metric *)

Definition exceeded_inc : Event := EvCounterInc instancePollSecondsExceededCounter 1.

Definition exceeded_warning : Event :=
  EvLog Warning "discoverInstance exceeded InstancePollSeconds".

(** The metrics appended in a trace, in order. *)
Definition metrics_of (tr : list Event) : list Metric :=
  omap (λ e, match e with EvMetricAppend m => Some m | _ => None end) tr.

Section Readings.
Context `{InstanceKeyMethods}.

(** The statement about the metric of a slow attempt read to the letter:
    whenever the latency measured for the attempt exceeds the poll interval,
    the metric of the attempt carries a total latency above the interval. *)
Definition slow_attempt_metric_above_interval : Prop :=
  ∀ (g : Globals) (k : InstanceKey) (force : bool) (env : DiscoverEnv) (m : Metric),
    InstanceIsForgotten env k = false →
    RegexpMatchPatterns env (StringCode k) = false →
    totalElapsedAtExit env > instancePollSecondsDuration (config g) →
    m ∈ metrics_of (DiscoverInstance g k force env).2 →
    TotalLatency m > instancePollSecondsDuration (config g).

(** The throttle scenario read to the letter: a non-forced call that passes
    the throttle check at time [t], a second one at [t + T/2] and a third
    one at [t + 2T], all three on the same key; the second does not probe
    and the third does. *)
Definition throttle_scenario_probes_at_2T : Prop :=
  ∀ (g : Globals) (k : InstanceKey) (env1 env2 env3 : DiscoverEnv),
    let T := instancePollSecondsDuration (config g) in
    let t := cacheNow env1 in
    0 < T →
    passes_throttle g k false env1 = true →
    reaches_throttle k env3 = true →
    throttle_key k env2 = throttle_key k env1 →
    throttle_key k env3 = throttle_key k env1 →
    cacheNow env2 = t + T / 2 →
    cacheNow env3 = t + 2 * T →
    let g1 := (DiscoverInstance g k false env1).1 in
    let r2 := DiscoverInstance g1 k false env2 in
    let r3 := DiscoverInstance r2.1 k false env3 in
    count is_probe r2.2 = 0%nat ∧ count is_probe r3.2 = 1%nat.

End Readings.

(** * Sample data

    Concrete keys, configurations and collaborator answers on which the
    statements below are exercised. *)

Module Sample.

Definition keyA : InstanceKey := {| Hostname := "db-a"; Port := 3306 |}.
Definition keyB : InstanceKey := {| Hostname := "db-b"; Port := 3306 |}.

(** A key is valid when it has a host name and a positive port; its string
    forms are the host name followed by the port. *)
#[local] Instance methods : InstanceKeyMethods := {|
  IsValid k := negb (String.eqb (Hostname k) "") && bool_decide (0 < Port k);
  DisplayString k := (Hostname k +:+ ":" +:+ pretty (Port k))%string;
  StringCode k := (Hostname k +:+ ":" +:+ pretty (Port k))%string
|}.

(** The queue after [push(B)], [consume()], [push(A)], from the empty queue
    of capacity 4. *)
Definition queue_B_inflight_A_pending : Queue.t :=
  {| Queue.pending := [keyA]; Queue.inflight := [keyB]; Queue.capacity := 4 |}.

(** Poll interval of five seconds. *)
Definition cfg : Configuration :=
  {| InstancePollSeconds := 5; DiscoveryMaxConcurrency := 300;
     DiscoveryCollectionRetentionSeconds := 120; BufferInstanceWrites := false;
     GrabElection := false |}.

Definition globals0 : Globals :=
  {| config := cfg; isElectedNode := 1; hasReceivedSIGTERM := 0;
     recentDiscoveryOperationKeys := ∅;
     discoveryQueue := {| Queue.pending := [keyA]; Queue.inflight := []; Queue.capacity := 4 |};
     snapshotDiscoveryKeys := [] |}.

Definition instanceA (fresh : bool) : Instance :=
  {| Key := keyA; IsUpToDate := fresh; IsLastCheckValid := fresh |}.

(** Collaborators for one call: nothing is forgotten or filtered, names
    resolve to themselves, the store answers [stored] and the probe ends
    as given. The cache clock reads [now]; the total stopwatch reads
    [afterProbe] when the probe returns and [atExit] in the deferred
    function. *)
Definition env (now : Z) (stored : option Instance) (probe : ProbeResult)
    (afterProbe atExit : Z) : DiscoverEnv :=
  {| InstanceIsForgotten := λ _, false;
     RegexpMatchPatterns := λ _, false;
     ResolveHostname := λ k, k;
     cacheNow := now;
     ReadInstance := λ _, stored;
     ReadTopologyInstanceBufferable := λ _ _, probe;
     totalElapsedAfterProbe := afterProbe;
     backendElapsedAfterProbe := 1 * Millisecond;
     instanceElapsedAfterProbe := 2 * Millisecond;
     metricNow := now + afterProbe;
     ClearToLog := λ _ _, true;
     totalElapsedAtExit := atExit |}.

(** Collaborators for one health tick: the election attempt ends as given,
    and key A is the one outdated key. *)
Definition healthEnv (attempt : ElectionAttempt) : HealthEnv :=
  {| AttemptElection := attempt;
     ElectedNode_err := None;
     ReadOutdatedInstanceKeys := ([keyA], None) |}.

(** The dispatcher as [ContinuousDiscovery] sets it up at time 0. *)
Definition dispatcher0 : Dispatcher := ContinuousDiscovery_setup globals0 0.

(** Three shard locks are held; the first is released after 0.25 s, the
    others after [released] turns of the loop. The wait time is 5 s and
    every sleep takes exactly 100 ms. *)
Definition drainEnv (released : nat) : SignalEnv :=
  {| reloaded := cfg;
     shutdownWaitTime := 5 * Second;
     shardsLockCounterAt := λ n, if bool_decide (n < released)%nat
                                 then (if bool_decide (n < 3)%nat then 3 else 2) else 0;
     elapsedAt := λ n, Z.of_nat n * (100 * Millisecond) |}.

End Sample.

(** * Query projections (package [abstract]) *)

(** ** The part of the [sqlparser] syntax tree that the code inspects *)

Module sqlparser.

(** [sqlparser.ColIdent], by its [String()]. *)
Definition ColIdent := string.

(** [sqlparser.TableName] *)
Record TableName := { Name : string; Qualifier : string }.

Inductive ValType := StrVal | IntVal | FloatVal | HexNum | HexVal | BitVal.

Inductive OrderDirection := AscOrder | DescOrder.

(** Expressions and select expressions. The three kinds of expression the
    code tells apart by a type assertion have a constructor each; every
    other kind of node is an [OtherExpr]. *)
Inductive Expr :=
  | ColName (name : ColIdent) (qualifier : TableName)
  | Literal (type : ValType) (val : string)
  | FuncExpr (qualifier : string) (name : ColIdent) (distinct : bool)
             (exprs : list SelectExpr)
  | OtherExpr (node : nat)
with SelectExpr :=
  | StarExpr (table : TableName)
  | AliasedExpr (expr : Expr) (as_ : ColIdent)
  | Nextval (expr : Expr).

(** [sqlparser.Order] *)
Record Order := { Expr_ : Expr; Direction : OrderDirection }.

(** The fields of [sqlparser.Select] that [CreateQPFromSelect] reads. A nil
    [GroupBy] is the empty list. *)
Record Select := {
  SelectExprs : list SelectExpr;
  GroupBy : list Expr;
  OrderBy : list Order
}.

(** The functions and methods of the package that the code calls; their
    code is in another package, and nothing is assumed about them. *)
Class Functions := {
  (** the method [IsAggregate] of a [FuncExpr] node *)
  IsAggregate : Expr → bool;
  ContainsAggregation : Expr → bool;
  EqualsExpr : Expr → Expr → bool;
  (** [ColIdent.IsEmpty] *)
  ColIdent_IsEmpty : ColIdent → bool;
  (** [ColIdent.Equal] *)
  ColIdent_Equal : ColIdent → ColIdent → bool;
  (** [TableName.IsEmpty] *)
  TableName_IsEmpty : TableName → bool
}.

End sqlparser.

(** ** [strconv.Atoi] *)

Module strconv.

Definition digit (c : Ascii.ascii) : option Z :=
  let n := Z.of_N (Ascii.N_of_ascii c) in
  if bool_decide (48 ≤ n ≤ 57) then Some (n - 48) else None.

(** The loop of [ParseUint] in base 10 over the bytes that are left, [n]
    being the value so far: [None] for a syntax error, and the largest
    [uint64] as soon as the next digit makes the value overflow. *)
Fixpoint ParseUint (s : string) (n : Z) : option Z :=
  match s with
  | EmptyString => Some n
  | String c s =>
      match digit c with
      | None => None
      | Some d =>
          if bool_decide (1844674407370955162 ≤ n) then Some (2 ^ 64 - 1)
          else if bool_decide (2 ^ 64 - 1 < 10 * n + d) then Some (2 ^ 64 - 1)
          else ParseUint s (10 * n + d)
      end
  end.

(** The [int] that [Atoi] returns beside its error: the value of an
    optional sign (code 43 or 45) followed by decimal digits; the nearest
    [int] when that value is out of range; and 0 when the string is not of
    that form. *)
Definition Atoi (s : string) : Z :=
  let '(neg, body) :=
    match s with
    | String c rest =>
        if bool_decide (Ascii.N_of_ascii c = 43%N) then (false, rest)
        else if bool_decide (Ascii.N_of_ascii c = 45%N) then (true, rest)
        else (false, s)
    | EmptyString => (false, s)
    end in
  match body with
  | EmptyString => 0
  | _ =>
      match ParseUint body 0 with
      | None => 0
      | Some un =>
          let cutoff := 2 ^ 63 in
          if negb neg && bool_decide (cutoff ≤ un) then cutoff - 1
          else if neg && bool_decide (cutoff < un) then - cutoff
          else if neg : bool then - un else un
      end
  end.

End strconv.

Module abstract.
Import sqlparser.

(** The aliased expression that [SelectExpr.Col] points to. *)
Record AliasedExpr := { Expr : sqlparser.Expr; As : ColIdent }.

Record SelectExpr := { Col : AliasedExpr; Aggr : bool }.

Record OrderBy := { Inner : Order; WeightStrExpr : sqlparser.Expr }.

Record QueryProjection := {
  SelectExprs : list SelectExpr;
  HasAggr : bool;
  GroupByExprs : list sqlparser.Expr;
  OrderExprs : list OrderBy
}.

(** The five places where [CreateQPFromSelect] returns an error. *)
Inductive Error :=
  (** "%T in select list" *)
  | NotSupportedInSelectList
  (** "aggregate functions take a single argument '%s'" *)
  | AggregateSingleArgument
  (** "distinct aggregation" *)
  | DistinctAggregation
  (** "unsupported: in scatter query: complex aggregate expression" *)
  | ComplexAggregateExpression
  (** "Mixing of aggregation and non-aggregation columns is not allowed if
      there is no GROUP BY clause" *)
  | MixOfGroupFuncAndFields.

(** How a call ends: with a value, with an error, or in a run-time panic
    (an index out of range). *)
Inductive Outcome (A : Type) :=
  | Returned (a : A)
  | Failed (e : Error)
  | Panicked.
Arguments Returned {A} a.
Arguments Failed {A} e.
Arguments Panicked {A}.

Definition appendOrder (qp : QueryProjection) (o : OrderBy) : QueryProjection :=
  {| SelectExprs := SelectExprs qp; HasAggr := HasAggr qp;
     GroupByExprs := GroupByExprs qp; OrderExprs := OrderExprs qp ++ [o] |}.

Section WithFunctions.
Context `{Functions}.

(** The first select expression whose alias is [name], if any: the loop of
    [addOrderBy] over [qp.SelectExprs]. *)
Fixpoint findAlias (name : ColIdent) (selectExprs : list SelectExpr) : option SelectExpr :=
  match selectExprs with
  | [] => None
  | selectExpr :: rest =>
      let isAliasExpr := negb (ColIdent_IsEmpty (As (Col selectExpr))) in
      if isAliasExpr && ColIdent_Equal name (As (Col selectExpr))
      then Some selectExpr
      else findAlias name rest
  end.

(** The method [addOrderBy] of a query projection; [None] when the index
    [qp.SelectExprs[num-1]] is out of range. *)
Definition addOrderBy (qp : QueryProjection) (order : Order) : option QueryProjection :=
  let byExpr :=
    appendOrder qp {| Inner := order; WeightStrExpr := Expr_ order |} in
  match Expr_ order with
  | Literal IntVal val =>
      let num := strconv.Atoi val in
      let index := wrap64 (num - 1) in
      if bool_decide (0 ≤ index) then
        match SelectExprs qp !! Z.to_nat index with
        | None => None
        | Some selectExpr =>
            let aliasedExpr := Col selectExpr in
            let expr :=
              if negb (ColIdent_IsEmpty (As aliasedExpr))
              then ColName (As aliasedExpr) {| Name := ""; Qualifier := "" |}
              else Expr aliasedExpr in
            Some (appendOrder qp
                    {| Inner := {| Expr_ := expr; Direction := Direction order |};
                       WeightStrExpr := Expr aliasedExpr |})
        end
      else None
  | ColName name qualifier =>
      if TableName_IsEmpty qualifier then
        match findAlias name (SelectExprs qp) with
        | Some selectExpr =>
            Some (appendOrder qp
                    {| Inner := order; WeightStrExpr := Expr (Col selectExpr) |})
        | None => Some byExpr
        end
      else Some byExpr
  | _ => Some byExpr
  end.

(** The first loop of [CreateQPFromSelect], over [sel.SelectExprs]: the
    select expressions gathered, [qp.HasAggr] and [hasNonAggr]. *)
Fixpoint selectLoop (selExprs : list sqlparser.SelectExpr)
    (acc : list SelectExpr) (hasAggr hasNonAggr : bool)
  : Error + (list SelectExpr * bool * bool) :=
  match selExprs with
  | [] => inr (acc, hasAggr, hasNonAggr)
  | selExp :: rest =>
      match selExp with
      | sqlparser.AliasedExpr e as_ =>
          let exp := {| Expr := e; As := as_ |} in
          let continue_nonaggr :=
            if ContainsAggregation e then inl ComplexAggregateExpression
            else selectLoop rest (acc ++ [{| Col := exp; Aggr := false |}]) hasAggr true in
          match e with
          | FuncExpr _ _ distinct exprs =>
              if IsAggregate e then
                if bool_decide (length exprs ≠ 1%nat) then inl AggregateSingleArgument
                else if distinct then inl DistinctAggregation
                else selectLoop rest (acc ++ [{| Col := exp; Aggr := true |}]) true hasNonAggr
              else continue_nonaggr
          | _ => continue_nonaggr
          end
      | _ => inl NotSupportedInSelectList
      end
  end.

(** The loop over [sel.OrderBy]. *)
Fixpoint orderLoop (orders : list Order) (qp : QueryProjection) : option QueryProjection :=
  match orders with
  | [] => Some qp
  | order :: rest =>
      match addOrderBy qp order with
      | Some qp => orderLoop rest qp
      | None => None
      end
  end.

(** Whether some ordering of [qp] is on [expr]: the inner loop over
    [qp.OrderExprs]. *)
Definition orderedBy (expr : sqlparser.Expr) (qp : QueryProjection) : bool :=
  existsb (λ orderExpr, EqualsExpr expr (Expr_ (Inner orderExpr))) (OrderExprs qp).

(** The loop over [qp.GroupByExprs]. *)
Fixpoint groupLoop (exprs : list sqlparser.Expr) (qp : QueryProjection) : option QueryProjection :=
  match exprs with
  | [] => Some qp
  | expr :: rest =>
      if orderedBy expr qp then groupLoop rest qp
      else
        match addOrderBy qp {| Expr_ := expr; Direction := AscOrder |} with
        | Some qp => groupLoop rest qp
        | None => None
        end
  end.

Definition CreateQPFromSelect (sel : Select) : Outcome QueryProjection :=
  match selectLoop (sqlparser.SelectExprs sel) [] false false with
  | inl e => Failed e
  | inr (selectExprs, hasAggr, hasNonAggr) =>
      if hasNonAggr && hasAggr && bool_decide (GroupBy sel = []) then
        Failed MixOfGroupFuncAndFields
      else
        let qp := {| SelectExprs := selectExprs; HasAggr := hasAggr;
                     GroupByExprs := GroupBy sel; OrderExprs := [] |} in
        match orderLoop (sqlparser.OrderBy sel) qp with
        | None => Panicked
        | Some qp =>
            match groupLoop (GroupByExprs qp) qp with
            | None => Panicked
            | Some qp => Returned qp
            end
        end
  end.

End WithFunctions.

(** ** Vocabulary of the statements on query projections *)

Section Vocabulary.
Context `{Functions}.

(** The index [num - 1] of an order by position is inside the select
    expressions. *)
Definition position_in_range (val : string) (qp : QueryProjection) : Prop :=
  1 ≤ strconv.Atoi val ≤ Z.of_nat (length (SelectExprs qp)).

(** A select expression of the projection read back as the aliased
    expression of the select list it was made from. *)
Definition toSelectExpr (selectExpr : SelectExpr) : sqlparser.SelectExpr :=
  sqlparser.AliasedExpr (Expr (Col selectExpr)) (As (Col selectExpr)).

(** A call of an aggregate function. *)
Definition aggregate_func (e : sqlparser.Expr) : bool :=
  match e with FuncExpr _ _ _ _ => IsAggregate e | _ => false end.

(** What the first loop has checked of a select expression it gathered:
    an aggregate is a call with one argument and without DISTINCT, and
    anything else contains no aggregation. *)
Definition checked (selectExpr : SelectExpr) : Prop :=
  let e := Expr (Col selectExpr) in
  if Aggr selectExpr then
    aggregate_func e = true
    ∧ match e with
      | FuncExpr _ _ distinct exprs => length exprs = 1%nat ∧ distinct = false
      | _ => False
      end
  else aggregate_func e = false ∧ ContainsAggregation e = false.

(** The name is the alias of the select expression. *)
Definition aliased_as (name : ColIdent) (selectExpr : SelectExpr) : bool :=
  negb (ColIdent_IsEmpty (As (Col selectExpr)))
  && ColIdent_Equal name (As (Col selectExpr)).

Definition position (e : sqlparser.Expr) : Prop :=
  match e with Literal IntVal _ => True | _ => False end.

(** A grouping expression is provided for: some ordering is on an
    expression equal to it, or on the expression itself in ascending
    direction, or the grouping is by position. *)
Definition provided_for (e : sqlparser.Expr) (orderExprs : list OrderBy) : Prop :=
  (∃ o, o ∈ orderExprs ∧ EqualsExpr e (Expr_ (Inner o)) = true)
  ∨ (∃ o, o ∈ orderExprs ∧ Inner o = {| Expr_ := e; Direction := AscOrder |})
  ∨ position e.

(** The ordering [o] is the one made for [order]: it has the direction of
    the order; for a position it is on the alias, or else on the
    expression, of the select expression at that position and carries that
    expression as weight-string expression; otherwise it is on the
    expression of the order as written, and its weight-string expression is
    that expression or, for an unqualified column, the expression of a
    select expression whose alias is the name of the column. *)
Definition ordering_of (selectExprs : list SelectExpr) (order : Order) (o : OrderBy)
  : Prop :=
  Direction (Inner o) = Direction order
  ∧ match Expr_ order with
    | Literal IntVal val =>
        ∃ selectExpr,
          selectExprs !! Z.to_nat (strconv.Atoi val - 1) = Some selectExpr
          ∧ 1 ≤ strconv.Atoi val
          ∧ Expr_ (Inner o)
            = (if ColIdent_IsEmpty (As (Col selectExpr))
               then Expr (Col selectExpr)
               else ColName (As (Col selectExpr)) {| Name := ""; Qualifier := "" |})
          ∧ WeightStrExpr o = Expr (Col selectExpr)
    | e =>
        Expr_ (Inner o) = e
        ∧ (WeightStrExpr o = e
           ∨ ∃ name qualifier selectExpr,
               e = ColName name qualifier
               ∧ TableName_IsEmpty qualifier = true
               ∧ selectExpr ∈ selectExprs
               ∧ aliased_as name selectExpr = true
               ∧ WeightStrExpr o = Expr (Col selectExpr))
    end.

#[global] Instance position_dec e : Decision (position e).
Proof. unfold position. destruct e as [| [] | |]; apply _. Defined.

(** A select expression that is an aggregate function call. *)
Definition aggregate_column (selExp : sqlparser.SelectExpr) : bool :=
  match selExp with
  | sqlparser.AliasedExpr e _ => aggregate_func e
  | _ => false
  end.

(** A select expression that the first loop accepts: an aliased
    expression that is an aggregate call with one argument and without
    DISTINCT, or that contains no aggregation at all. *)
Definition supported (selExp : sqlparser.SelectExpr) : bool :=
  match selExp with
  | sqlparser.AliasedExpr e _ =>
      if aggregate_func e then
        match e with
        | FuncExpr _ _ distinct exprs =>
            bool_decide (length exprs = 1%nat) && negb distinct
        | _ => false
        end
      else negb (ContainsAggregation e)
  | _ => false
  end.

(** The select list mixes aggregate calls with other columns. *)
Definition mixes (sel : Select) : bool :=
  existsb aggregate_column (sqlparser.SelectExprs sel)
  && existsb (λ s, negb (aggregate_column s)) (sqlparser.SelectExprs sel).

End Vocabulary.

End abstract.

(** * More vocabulary for the orchestrator *)

Definition is_discovery_attempt (e : Event) : bool :=
  match e with EvCounterInc discoveriesCounter _ => true | _ => false end.

Definition is_failed_discovery (e : Event) : bool :=
  match e with EvCounterInc failedDiscoveriesCounter _ => true | _ => false end.

Definition is_exceeded (e : Event) : bool :=
  match e with EvCounterInc instancePollSecondsExceededCounter _ => true | _ => false end.

Definition is_cache_add (e : Event) : bool :=
  match e with EvCacheAdd _ _ => true | _ => false end.




(** The events of a process that is not elected: the election attempt and
    its logs, the refresh of its own caches, and the refresh of the tablets,
    which no tick makes depend on the election. *)
Definition runs_unelected (e : Event) : bool :=
  match e with
  | EvLog _ _ | EvAttemptElection | EvElectedNode => true
  | EvGo f => bool_decide (f = "inst.LoadHostnameResolveCache"%string)
              || bool_decide (f = "RefreshTablets"%string)
  | _ => false
  end.

Definition is_submit_primaries (e : Event) : bool :=
  bool_decide (e = EvGo "SubmitPrimariesToKvStores").

(** The action, if it is a caretaking tick, reads the clock before the
    wait period of [d] has passed. *)
Definition caretaking_early (d : Dispatcher) (a : Action) : Prop :=
  match a with
  | CaretakingTick now => now - continuousDiscoveryStartTime d < checkAndRecoverWaitPeriod d
  | _ => True
  end.

(** ** Submitting the primaries to the key-value stores *)

Module kv.

(** [kv.KVPair]. *)
Record KVPair := {
  Key : string;
  Value : string
}.

#[global] Instance KVPair_eq_dec : EqDecision KVPair.
Proof. solve_decision. Defined.

(** What [SubmitPrimariesToKvStores] does to its collaborators, in order. *)
Inductive Event :=
  | GetPrimariesKVPairs (clusterName : string)
  | Debugf_numPairs (clusterName : string) (force : bool) (numPairs : nat)
  | Debugf_submitKvPairs (n : nat)
  | Errore (err : error)
  | CacheGet (key : string)
  | CacheSetDefaultExpiration (key : string)
  | GetValue (key : string)
  | PutKVPair (kvPair : KVPair)
  | DistributePairs (kvPairs : list KVPair).

(** The collaborators, none of which is among the sources: the backend
    query of [inst], the expiring [kvFoundCache], and the stores behind
    package [kv].  Their answers are left open.  The cache and the stores
    are shared with other goroutines, so an answer is indexed by the
    position of the call: [found] and [getValue] by the position of the pair
    in [kvPairs], [putKVPair] by the position in [submitKvPairs]. *)
Record Env := {
  getPrimariesKVPairs : string → list KVPair * option error;
  found : nat → string → bool;
  getValue : nat → string → string * bool * option error;
  putKVPair : nat → KVPair → option error;
  distributePairs : list KVPair → option error
}.

(** [log.Errore(err)]: logs [err] unless it is nil, and returns it. *)
Definition log_Errore (err : option error) : list Event :=
  if err is Some e then [Errore e] else [].

(** The first loop of [SubmitPrimariesToKvStores], from the pair at
    position [i] on: the pairs appended to [submitKvPairs], and the calls
    made.  A [kvPairs] entry is taken to be a pair, never a nil pointer. *)
Fixpoint submitKvPairs (env : Env) (force : bool) (i : nat) (kvPairs : list KVPair)
  : list KVPair * list Event :=
  match kvPairs with
  | [] => ([], [])
  | kvPair :: rest =>
    let r := submitKvPairs env force (S i) rest in
    if force then (kvPair :: r.1, r.2)
    else if found env i (Key kvPair) then (r.1, CacheGet (Key kvPair) :: r.2)
    else
      let '(v, fnd, err) := getValue env i (Key kvPair) in
      if bool_decide (err = None) && fnd && bool_decide (v = Value kvPair)
      then (r.1, CacheGet (Key kvPair) :: GetValue (Key kvPair)
                 :: CacheSetDefaultExpiration (Key kvPair) :: r.2)
      else (kvPair :: r.1, CacheGet (Key kvPair) :: GetValue (Key kvPair) :: r.2)
  end.

(** The second loop, from the pair at position [j] of [submitKvPairs] on:
    [submittedCount] (an [int]), [selectedError], and the calls made. *)
Fixpoint putLoop (env : Env) (j : nat) (pairs : list KVPair)
    (submittedCount : Z) (selectedError : option error)
  : Z * option error * list Event :=
  match pairs with
  | [] => (submittedCount, selectedError, [])
  | kvPair :: rest =>
    let '(n, e, tr) :=
      match putKVPair env j kvPair with
      | None => putLoop env (S j) rest (wrap64 (submittedCount + 1)) selectedError
      | Some err => putLoop env (S j) rest submittedCount (Some err)
      end in
    (n, e, PutKVPair kvPair :: tr)
  end.

(** [SubmitPrimariesToKvStores(clusterName, force)]: the three results and
    the calls made. *)
Definition SubmitPrimariesToKvStores (env : Env) (clusterName : string) (force : bool)
  : (list KVPair * Z * option error) * list Event :=
  let '(kvPairs, err) := getPrimariesKVPairs env clusterName in
  let head := [GetPrimariesKVPairs clusterName;
               Debugf_numPairs clusterName force (length kvPairs)] in
  if err is Some e then ((kvPairs, 0, Some e), head ++ log_Errore (Some e))
  else
    let '(submit, tr1) := submitKvPairs env force 0 kvPairs in
    let '(submittedCount, selectedError, tr2) := putLoop env 0 submit 0 None in
    ((kvPairs, submittedCount, selectedError),
     head ++ tr1 ++ [Debugf_submitKvPairs (length submit)] ++ tr2
          ++ [DistributePairs kvPairs] ++ log_Errore (distributePairs env kvPairs)
          ++ log_Errore selectedError).

(** The pairs put, in the order of the calls. *)
Definition puts (tr : list Event) : list KVPair :=
  omap (λ e, if e is PutKVPair p then Some p else None) tr.

(** The keys looked up in the stores, the keys marked in the cache, and the
    lists handed to [kv.DistributePairs]. *)
Definition reads (tr : list Event) : list string :=
  omap (λ e, if e is GetValue k then Some k else None) tr.
Definition marks (tr : list Event) : list string :=
  omap (λ e, if e is CacheSetDefaultExpiration k then Some k else None) tr.
Definition lookups (tr : list Event) : list string :=
  omap (λ e, if e is CacheGet k then Some k else None) tr.
Definition distributed (tr : list Event) : list (list KVPair) :=
  omap (λ e, if e is DistributePairs ps then Some ps else None) tr.

(** The store already has the value of the pair at position [i]. *)
Definition already_stored (env : Env) (i : nat) (kvPair : KVPair) : bool :=
  let '(v, fnd, err) := getValue env i (Key kvPair) in
  bool_decide (err = None) && fnd && bool_decide (v = Value kvPair).

(** The puts that succeed among [pairs], the first of which is call [j]. *)
Fixpoint accepted (env : Env) (j : nat) (pairs : list KVPair) : nat :=
  match pairs with
  | [] => 0
  | p :: rest =>
    ((if putKVPair env j p is None then 1 else 0) + accepted env (S j) rest)%nat
  end.

(** Every put succeeded from call [j] on. *)
Definition all_accepted (env : Env) (j : nat) (pairs : list KVPair) : Prop :=
  ∀ k p, pairs !! k = Some p → putKVPair env (j + k) p = None.

(** Call [j + k] is the last put that failed, and it failed with [err]. *)
Definition last_refused (env : Env) (j : nat) (pairs : list KVPair)
    (k : nat) (err : error) : Prop :=
  (∃ p, pairs !! k = Some p ∧ putKVPair env (j + k) p = Some err)
  ∧ ∀ k' p', (k < k')%nat → pairs !! k' = Some p' → putKVPair env (j + k') p' = None.

(** The pairs with their positions, counted from [i]. *)
Definition positions (i : nat) (kvPairs : list KVPair) : list (nat * KVPair) :=
  zip (seq i (length kvPairs)) kvPairs.

(** The key of the pair at this position is found in [kvFoundCache]. *)
Definition cached (env : Env) (ip : nat * KVPair) : bool :=
  found env ip.1 (Key ip.2).

Definition stored (env : Env) (ip : nat * KVPair) : bool :=
  already_stored env ip.1 ip.2.

(** The same collaborators, with another answer of [kv.DistributePairs]. *)
Definition with_distributePairs (f : list KVPair → option error) (env : Env) : Env :=
  {| getPrimariesKVPairs := getPrimariesKVPairs env;
     found := found env;
     getValue := getValue env;
     putKVPair := putKVPair env;
     distributePairs := f |}.

End kv.

(** * More sample data *)

Module SampleQuery.
Import sqlparser.

Definition unqualified : TableName := {| Name := ""; Qualifier := "" |}.

(** The four aggregate functions of the samples; [EqualsExpr] equates a
    column with itself; an identifier is empty when it is the empty string,
    and a table name when its name part is. *)
#[local] Instance functions : Functions := {|
  IsAggregate e :=
    match e with
    | FuncExpr _ name _ _ =>
        bool_decide (name = "count"%string) || bool_decide (name = "sum"%string)
        || bool_decide (name = "min"%string) || bool_decide (name = "max"%string)
    | _ => false
    end;
  ContainsAggregation e :=
    match e with
    | FuncExpr _ name _ _ =>
        bool_decide (name = "count"%string) || bool_decide (name = "sum"%string)
        || bool_decide (name = "min"%string) || bool_decide (name = "max"%string)
    | _ => false
    end;
  EqualsExpr a b :=
    match a, b with
    | ColName n1 q1, ColName n2 q2 =>
        bool_decide (n1 = n2) && bool_decide (Name q1 = Name q2)
    | _, _ => false
    end;
  ColIdent_IsEmpty c := bool_decide (c = ""%string);
  ColIdent_Equal a b := bool_decide (a = b);
  TableName_IsEmpty t := bool_decide (Name t = ""%string)
|}.

Definition id : Expr := ColName "id" unqualified.
Definition count_x : Expr :=
  FuncExpr "" "count" false [AliasedExpr (ColName "x" unqualified) ""].

(** [select id as i, count(x) from t group by id order by i desc] *)
Definition sel : Select :=
  {| SelectExprs := [AliasedExpr id "i"; AliasedExpr count_x ""];
     GroupBy := [id];
     OrderBy := [{| Expr_ := ColName "i" unqualified; Direction := DescOrder |}] |}.

(** [select count(x) from t order by 1] *)
Definition sel_by_position : Select :=
  {| SelectExprs := [AliasedExpr count_x ""];
     GroupBy := [];
     OrderBy := [{| Expr_ := Literal IntVal "1"; Direction := AscOrder |}] |}.

(** The projection of [sel] before its orderings are added. *)
Definition qp0 : abstract.QueryProjection :=
  {| abstract.SelectExprs :=
       [{| abstract.Col := {| abstract.Expr := id; abstract.As := "i" |};
           abstract.Aggr := false |};
        {| abstract.Col := {| abstract.Expr := count_x; abstract.As := "" |};
           abstract.Aggr := true |}];
     abstract.HasAggr := true;
     abstract.GroupByExprs := [id];
     abstract.OrderExprs := [] |}.

(** The projection of [sel]: ordered by the alias with the weight string
    of the column behind it, then by the grouping column. *)
Definition qp : abstract.QueryProjection :=
  {| abstract.SelectExprs := abstract.SelectExprs qp0;
     abstract.HasAggr := true;
     abstract.GroupByExprs := [id];
     abstract.OrderExprs :=
       [{| abstract.Inner := {| Expr_ := ColName "i" unqualified; Direction := DescOrder |};
           abstract.WeightStrExpr := id |};
        {| abstract.Inner := {| Expr_ := id; Direction := AscOrder |};
           abstract.WeightStrExpr := id |}] |}.

(** The projection of [sel_by_position]. *)
Definition qp_by_position : abstract.QueryProjection :=
  {| abstract.SelectExprs :=
       [{| abstract.Col := {| abstract.Expr := count_x; abstract.As := "" |};
           abstract.Aggr := true |}];
     abstract.HasAggr := true;
     abstract.GroupByExprs := [];
     abstract.OrderExprs :=
       [{| abstract.Inner := {| Expr_ := count_x; Direction := AscOrder |};
           abstract.WeightStrExpr := count_x |}] |}.

End SampleQuery.

Module SampleKv.

Definition primary_a : kv.KVPair :=
  {| kv.Key := "mysql/master/a"; kv.Value := "db-a:3306" |}.
Definition primary_b : kv.KVPair :=
  {| kv.Key := "mysql/master/b"; kv.Value := "db-b:3306" |}.
Definition primary_c : kv.KVPair :=
  {| kv.Key := "mysql/master/c"; kv.Value := "db-c:3306" |}.

(** Three primaries are read. The key of the first is in the cache; the
    stores have the value of the second and an old value for the third.
    Every put succeeds when [refused] is nil and fails with it otherwise,
    and distributing the pairs fails. *)
Definition env (refused : option error) : kv.Env :=
  {| kv.getPrimariesKVPairs := λ _, ([primary_a; primary_b; primary_c], None);
     kv.found := λ _ key, bool_decide (key = "mysql/master/a"%string);
     kv.getValue := λ _ key,
       if bool_decide (key = "mysql/master/b"%string)
       then ("db-b:3306"%string, true, None)
       else ("db-old:3306"%string, true, None);
     kv.putKVPair := λ _ _, refused;
     kv.distributePairs := λ _, Some "consul is down"%string |}.

(** The backend cannot be read. *)
Definition unreadable : kv.Env :=
  {| kv.getPrimariesKVPairs := λ _, ([], Some "backend is down"%string);
     kv.found := kv.found (env None);
     kv.getValue := kv.getValue (env None);
     kv.putKVPair := kv.putKVPair (env None);
     kv.distributePairs := kv.distributePairs (env None) |}.

End SampleKv.

(** * Properties *)

(** ** Arithmetic of durations *)

Lemma wrap64_small z : - 2 ^ 63 ≤ z ≤ int64_max → wrap64 z = z.
Proof.
  unfold wrap64, int64_max. intros Hz.
  rewrite Z.mod_small; lia.
Qed.

Lemma instancePollSecondsDuration_small cfg :
  Z.of_N (InstancePollSeconds cfg) * Second ≤ int64_max →
  instancePollSecondsDuration cfg = Z.of_N (InstancePollSeconds cfg) * Second.
Proof.
  unfold instancePollSecondsDuration, int64_max, Second. intros Hle.
  rewrite (wrap64_small (Z.of_N _)); [| unfold int64_max; lia].
  apply wrap64_small. unfold int64_max. lia.
Qed.

(** ** The discovery queue keeps one entry per key *)

Module QueueFacts.
Import Queue.

Lemma wf_empty cap : wf (empty cap).
Proof. unfold wf, empty. simpl. constructor. Qed.

Lemma present_spec k q : present k q = true ↔ k ∈ pending q ++ inflight q.
Proof.
  unfold present. rewrite orb_true_iff, !bool_decide_eq_true, elem_of_app. tauto.
Qed.

Lemma present_false k q : present k q = false ↔ k ∉ pending q ++ inflight q.
Proof.
  rewrite <- present_spec. destruct (present k q); split; congruence.
Qed.

Lemma Push_wf k q q' : wf q → Push k q = Some q' → wf q'.
Proof.
  unfold Push, wf. intros Hwf Hpush.
  destruct (present k q) eqn:Hp; [by simplify_eq |].
  case_bool_decide; [| done]. simplify_eq. simpl.
  apply present_false in Hp.
  rewrite <- (assoc_L (++)). simpl.
  apply NoDup_app in Hwf as (Hp1 & Hp2 & Hp3).
  rewrite elem_of_app in Hp.
  apply NoDup_app. split_and!; [done | | ].
  - intros x Hx [->|Hin]%elem_of_cons; [tauto | by eapply Hp2].
  - constructor; [tauto | done].
Qed.

Lemma Consume_wf q k q' : wf q → Consume q = Some (k, q') → wf q'.
Proof.
  unfold Consume, wf. intros Hwf Hc.
  destruct (pending q) as [|k0 rest] eqn:Hpend; [done |]. simplify_eq. simpl in *.
  apply NoDup_cons in Hwf as [Hk Hwf].
  apply NoDup_app in Hwf as (Hp1 & Hp2 & Hp3).
  rewrite elem_of_app in Hk.
  apply NoDup_app. split_and!; [done | | ].
  - intros x Hx [->|Hin]%elem_of_cons; [tauto | by eapply Hp2].
  - constructor; [tauto | done].
Qed.

Lemma Release_wf k q : wf q → wf (Release k q).
Proof.
  unfold Release, wf. simpl. intros (Hp1 & Hp2 & Hp3)%NoDup_app.
  apply NoDup_app. split_and!; [done | | by apply NoDup_filter].
  intros x Hx [_ Hin]%list_elem_of_filter. by eapply Hp2.
Qed.

Lemma apply_wf o q : wf q → wf (apply o q).
Proof.
  intros Hwf. destruct o as [k| |k]; simpl.
  - destruct (Push k q) eqn:Hpush; simpl; [by eapply Push_wf | done].
  - destruct (Consume q) as [[k q']|] eqn:Hc; simpl; [by eapply Consume_wf | done].
  - by apply Release_wf.
Qed.

Lemma run_wf ops q : wf q → wf (run ops q).
Proof.
  unfold run. revert q. induction ops as [|o ops IH]; intros q Hwf; simpl; [done |].
  apply IH. by apply apply_wf.
Qed.

Lemma filter_eq_NoDup (k : InstanceKey) (l : list InstanceKey) :
  NoDup l → length (filter (λ k', k' = k) l) = if bool_decide (k ∈ l) then 1%nat else 0%nat.
Proof.
  induction 1 as [|x l Hx Hnd IH]; [done |].
  destruct (decide (x = k)) as [->|Hne].
  - rewrite filter_cons_True by done. simpl. rewrite IH.
    rewrite (bool_decide_eq_false_2 (k ∈ l)) by done.
    rewrite bool_decide_eq_true_2; [done | by left].
  - rewrite filter_cons_False by done. rewrite IH.
    apply (f_equal (λ b : bool, if b then 1%nat else 0%nat)).
    apply bool_decide_ext. rewrite elem_of_cons. intuition congruence.
Qed.

Lemma outstanding_wf k q :
  wf q → outstanding k q = if present k q then 1%nat else 0%nat.
Proof.
  intros Hwf. unfold outstanding. rewrite filter_eq_NoDup by done.
  destruct (present k q) eqn:Hp.
  - apply present_spec in Hp. by rewrite bool_decide_eq_true_2.
  - apply present_false in Hp. by rewrite bool_decide_eq_false_2.
Qed.

Lemma outstanding_le_1 k q : wf q → (outstanding k q ≤ 1)%nat.
Proof. intros Hwf. rewrite outstanding_wf by done. destruct (present k q); lia. Qed.

Lemma Push_present k q q' : Push k q = Some q' → present k q' = true.
Proof.
  unfold Push. intros Hpush.
  destruct (present k q) eqn:Hp; [by simplify_eq |].
  case_bool_decide; [| done]. simplify_eq.
  apply present_spec. simpl. rewrite !elem_of_app, list_elem_of_singleton. tauto.
Qed.

Lemma Push_noop k q : present k q = true → Push k q = Some q.
Proof. unfold Push. by intros ->. Qed.

(** A key stays outstanding until it is released. *)
Lemma apply_present k o q :
  o ≠ OpRelease k → present k q = true → present k (apply o q) = true.
Proof.
  intros Ho Hp. destruct o as [k'| |k']; simpl.
  - destruct (Push k' q) as [q'|] eqn:Hpush; simpl; [| done].
    unfold Push in Hpush. destruct (present k' q); [by simplify_eq |].
    case_bool_decide; [| done]. simplify_eq.
    apply present_spec in Hp. apply present_spec. simpl.
    rewrite !elem_of_app in *. tauto.
  - destruct (Consume q) as [[k0 q']|] eqn:Hc; simpl; [| done].
    unfold Consume in Hc. destruct (pending q) as [|k1 rest] eqn:Hpend; [done |].
    simplify_eq. apply present_spec in Hp. apply present_spec. simpl.
    rewrite Hpend in Hp. rewrite !elem_of_app, !elem_of_cons in *. tauto.
  - apply present_spec in Hp. apply present_spec. simpl.
    rewrite !elem_of_app, list_elem_of_filter in *.
    assert (k ≠ k') by congruence. tauto.
Qed.

Lemma run_present k ops q :
  OpRelease k ∉ ops → present k q = true → present k (run ops q) = true.
Proof.
  unfold run. revert q. induction ops as [|o ops IH]; intros q Hnot Hp; simpl; [done |].
  apply not_elem_of_cons in Hnot as [Ho Hnot].
  apply IH; [done |]. apply apply_present; [congruence | done].
Qed.

End QueueFacts.

(** C2. For every key the queue holds at most one outstanding (queued or
    in-flight) entry at any time: in a queue reached from the empty one by
    any operations, a push of [k] that goes through leaves exactly one
    outstanding entry for [k] and no key with more than one; a second push
    of [k] right after it is a no-op; and so is a push of [k] after any
    further operations that do not release [k]. *)
Theorem discovery_queue_one_entry_per_key
    (cap : nat) (ops : list Queue.op) (k : InstanceKey) (q1 : Queue.t) :
  Queue.Push k (Queue.run ops (Queue.empty cap)) = Some q1 →
  (∀ k', Queue.outstanding k' q1 ≤ 1)%nat
  ∧ Queue.outstanding k q1 = 1%nat
  ∧ Queue.Push k q1 = Some q1
  ∧ ∀ between : list Queue.op,
      Queue.OpRelease k ∉ between →
      let q2 := Queue.run between q1 in
      (∀ k', Queue.outstanding k' q2 ≤ 1)%nat
      ∧ Queue.outstanding k q2 = 1%nat
      ∧ Queue.Push k q2 = Some q2.
Proof.
  intros Hpush.
  assert (Queue.wf q1) as Hwf.
  { eapply QueueFacts.Push_wf; [| exact Hpush].
    apply QueueFacts.run_wf, QueueFacts.wf_empty. }
  pose proof (QueueFacts.Push_present _ _ _ Hpush) as Hp.
  split_and!.
  - intros k'. by apply QueueFacts.outstanding_le_1.
  - rewrite QueueFacts.outstanding_wf by done. by rewrite Hp.
  - by apply QueueFacts.Push_noop.
  - intros between Hnot q2.
    assert (Queue.wf q2) as Hwf2 by by apply QueueFacts.run_wf.
    assert (Queue.present k q2 = true) as Hp2 by by apply QueueFacts.run_present.
    split_and!.
    + intros k'. by apply QueueFacts.outstanding_le_1.
    + rewrite QueueFacts.outstanding_wf by done. by rewrite Hp2.
    + by apply QueueFacts.Push_noop.
Qed.

Lemma discovery_queue_one_entry_per_key_witness :
  (Queue.outstanding Sample.keyA Sample.queue_B_inflight_A_pending = 1)%nat
  ∧ Queue.Push Sample.keyA Sample.queue_B_inflight_A_pending
    = Some Sample.queue_B_inflight_A_pending.
Proof.
  pose proof (discovery_queue_one_entry_per_key 4
                [Queue.OpPush Sample.keyB; Queue.OpConsume] Sample.keyA
                Sample.queue_B_inflight_A_pending eq_refl) as (_ & Hone & Hnoop & _).
  exact (conj Hone Hnoop).
Defined.

(** ** The two election predicates *)

(** C9. [IsLeader] and [IsLeaderOrActive] return the same boolean for every
    value of the election flag. *)
Theorem IsLeader_IsLeaderOrActive_agree (g : Globals) (flag : Z) :
  IsLeaderOrActive (set_isElectedNode flag g) = IsLeader (set_isElectedNode flag g)
  ∧ ¬ (IsLeaderOrActive (set_isElectedNode flag g) = true
       ∧ IsLeader (set_isElectedNode flag g) = false).
Proof.
  unfold IsLeaderOrActive, IsLeader. simpl. split; [done |].
  intros [Ha Hl]. congruence.
Qed.

(** ** Counting events *)

Lemma count_nil p : count p [] = 0%nat.
Proof. done. Qed.

Lemma count_cons p e tr :
  count p (e :: tr) = ((if p e then 1 else 0) + count p tr)%nat.
Proof.
  unfold count. destruct (p e) eqn:Hp.
  - by rewrite filter_cons_True.
  - rewrite filter_cons_False; [done | congruence].
Qed.

Lemma count_app p tr1 tr2 : count p (tr1 ++ tr2) = (count p tr1 + count p tr2)%nat.
Proof. unfold count. by rewrite filter_app, length_app. Qed.

Ltac count_simpl :=
  repeat (rewrite ?count_app, ?count_cons, ?count_nil; simpl).

(** ** The discovery operation, path by path *)

Ltac discover_paths :=
  unfold DiscoverInstance, DiscoverInstance_deferred, Cache.Add;
  repeat case_match; simplify_eq; simpl.

Section DiscoveryFacts.
Context `{InstanceKeyMethods}.

(** [DiscoverInstance] touches neither the queue nor the election flag nor
    the configuration. *)
Lemma DiscoverInstance_frame g k force env :
  let g' := (DiscoverInstance g k force env).1 in
  discoveryQueue g' = discoveryQueue g
  ∧ isElectedNode g' = isElectedNode g
  ∧ config g' = config g.
Proof. discover_paths; done. Qed.

Lemma DiscoverInstance_no_release g k force env :
  count is_release (DiscoverInstance g k force env).2 = 0%nat.
Proof. discover_paths; count_simpl; done. Qed.

Lemma DiscoverInstance_no_consume g k force env :
  count is_consume (DiscoverInstance g k force env).2 = 0%nat.
Proof. discover_paths; count_simpl; done. Qed.

(** Each turn of a worker consumes once and releases once. *)
Lemma handleDiscoveryRequests_worker_counts g env g' tr :
  handleDiscoveryRequests_worker g env = Some (g', tr) →
  count is_consume tr = 1%nat ∧ count is_release tr = 1%nat.
Proof.
  unfold handleDiscoveryRequests_worker. intros Hturn.
  destruct (Queue.Consume (discoveryQueue g)) as [[k q]|]; [| done].
  destruct (negb (IsLeaderOrActive _)); [by simplify_eq |].
  pose proof (DiscoverInstance_no_release (set_discoveryQueue q g) k false env) as Hr.
  pose proof (DiscoverInstance_no_consume (set_discoveryQueue q g) k false env) as Hc.
  destruct (DiscoverInstance (set_discoveryQueue q g) k false env) as [g1 tr1].
  simplify_eq. simpl in *. rewrite !count_cons, !count_app, Hr, Hc. by count_simpl.
Qed.

(** Over the turns of a worker's loop, as many keys are released as are
    consumed. *)
Lemma handleDiscoveryRequests_loop_balanced envs g :
  let tr := (handleDiscoveryRequests_loop envs g).2 in
  count is_release tr = count is_consume tr.
Proof.
  revert g. induction envs as [|env envs IH]; intros g; simpl; [done |].
  destruct (handleDiscoveryRequests_worker g env) as [[g1 tr1]|] eqn:Hturn; [| done].
  destruct (handleDiscoveryRequests_worker_counts g env g1 tr1 Hturn) as [Hc Hr].
  specialize (IH g1). destruct (handleDiscoveryRequests_loop envs g1) as [g2 tr2].
  simpl in *. rewrite !count_app. lia.
Qed.

End DiscoveryFacts.

(** ** The discovery workers *)

Lemma count_weaken p p' tr :
  (∀ e, p' e = true → p e = true) → count p tr = 0%nat → count p' tr = 0%nat.
Proof.
  intros Himp. induction tr as [|e tr IH]; [done |].
  rewrite !count_cons. intros Hz.
  destruct (p e) eqn:Hp; [lia |]. destruct (p' e) eqn:Hp'.
  - apply Himp in Hp'. congruence.
  - apply IH. lia.
Qed.

Section WorkerFacts.
Context `{InstanceKeyMethods}.

(** C3. A worker releases the key it consumed exactly once on each path of
    its loop body: a worker on a process that is not elected skips the
    discovery and releases the key, and a worker on an elected process
    releases it after [DiscoverInstance], whatever the probe returned: an
    instance, or no instance when it failed or recovered from a panic. In
    both cases the release is the last call of the turn and the key is no
    longer in flight afterwards. *)
Theorem worker_releases_consumed_key_once
    (g : Globals) (env : DiscoverEnv) (k : InstanceKey) (q : Queue.t) :
  Queue.Consume (discoveryQueue g) = Some (k, q) →
  ∃ g' tr,
    handleDiscoveryRequests_worker g env = Some (g', tr)
    ∧ count is_release tr = 1%nat
    ∧ occurrences (EvQueueRelease k) tr = 1%nat
    ∧ last tr = Some (EvQueueRelease k)
    ∧ discoveryQueue g' = Queue.Release k q
    ∧ (k ∉ Queue.inflight (discoveryQueue g'))
    ∧ (IsLeaderOrActive g = false →
       tr = [EvQueueConsume k;
             EvLog Debug "Node apparently demoted. Skipping discovery";
             EvQueueRelease k])
    ∧ (IsLeaderOrActive g = true →
       tr = [EvQueueConsume k]
            ++ (DiscoverInstance (set_discoveryQueue q g) k false env).2
            ++ [EvQueueRelease k]).
Proof.
  intros Hc. unfold handleDiscoveryRequests_worker. rewrite Hc.
  assert (k ∉ Queue.inflight (Queue.Release k q)) as Hgone.
  { unfold Queue.Release. simpl. rewrite list_elem_of_filter. tauto. }
  change (IsLeaderOrActive (set_discoveryQueue q g)) with (IsLeaderOrActive g).
  destruct (IsLeaderOrActive g) eqn:Hl; simpl.
  - destruct (DiscoverInstance (set_discoveryQueue q g) k false env) as [g1 tr1] eqn:Hd.
    pose proof (DiscoverInstance_frame (set_discoveryQueue q g) k false env) as (Hq & _ & _).
    pose proof (DiscoverInstance_no_release (set_discoveryQueue q g) k false env) as Hnr.
    rewrite Hd in Hq, Hnr. simpl in Hq, Hnr.
    eexists _, _. split; [reflexivity |]. simpl. rewrite Hq.
    split_and!; try done.
    + rewrite count_cons, count_app, Hnr. by count_simpl.
    + unfold occurrences. rewrite count_cons, count_app.
      rewrite (count_weaken is_release _ tr1); [| | done].
      * count_simpl. by rewrite bool_decide_eq_true_2.
      * intros e He. apply bool_decide_eq_true in He. by subst e.
    + by rewrite last_cons, last_snoc.
  - eexists _, _. split; [reflexivity |]. simpl.
    split_and!; try done.
    unfold occurrences. count_simpl. by rewrite bool_decide_eq_true_2.
Qed.

End WorkerFacts.

Lemma worker_releases_consumed_key_once_witness :
  ∃ g' tr,
    handleDiscoveryRequests_worker (H := Sample.methods) Sample.globals0
      (Sample.env 0 None (ProbeNil (Some "connection refused"%string))
         (2 * Millisecond) (3 * Millisecond)) = Some (g', tr)
    ∧ occurrences (EvQueueRelease Sample.keyA) tr = 1%nat.
Proof.
  destruct (worker_releases_consumed_key_once (H := Sample.methods) Sample.globals0
              (Sample.env 0 None (ProbeNil (Some "connection refused"%string))
                 (2 * Millisecond) (3 * Millisecond))
              Sample.keyA
              {| Queue.pending := []; Queue.inflight := [Sample.keyA]; Queue.capacity := 4 |}
              eq_refl) as (g' & tr & Hrun & _ & Honce & _).
  exists g', tr. exact (conj Hrun Honce).
Defined.

(** ** The throttle *)

Section ThrottleFacts.
Context `{InstanceKeyMethods}.

Lemma set_recentDiscoveryOperationKeys_id g :
  set_recentDiscoveryOperationKeys (recentDiscoveryOperationKeys g) g = g.
Proof. by destruct g. Qed.

Lemma reaches_throttle_true k env :
  reaches_throttle k env = true ↔
  InstanceIsForgotten env k = false
  ∧ RegexpMatchPatterns env (StringCode k) = false
  ∧ IsValid (ResolveHostname env k) = true.
Proof.
  unfold reaches_throttle. rewrite !andb_true_iff, !negb_true_iff. tauto.
Qed.

(** A call that does not reach the throttle check changes nothing and
    reads neither the store nor the instance. *)
Lemma DiscoverInstance_not_reaching g k force env :
  reaches_throttle k env = false →
  let r := DiscoverInstance g k force env in
  r.1 = g ∧ count is_backend_read r.2 = 0%nat ∧ count is_probe r.2 = 0%nat
  ∧ count is_metric r.2 = 0%nat.
Proof.
  unfold reaches_throttle. intros Hr.
  unfold DiscoverInstance, DiscoverInstance_deferred.
  destruct (InstanceIsForgotten env k); [done |].
  destruct (RegexpMatchPatterns env (StringCode k)); [done |].
  simpl in Hr. rewrite Hr. simpl. by case_bool_decide.
Qed.

(** A non-forced call that finds an unexpired marker returns right after
    the cache lookup. *)
Lemma DiscoverInstance_throttled g k env :
  reaches_throttle k env = true →
  Cache.live (recentDiscoveryOperationKeys g) (throttle_key k env) (cacheNow env) = true →
  DiscoverInstance g k false env
  = (g, [EvCacheAdd (throttle_key k env) (instancePollSecondsDuration (config g))]
        ++ DiscoverInstance_deferred g env).
Proof.
  intros (Hf & Hi & Hv)%reaches_throttle_true Hlive.
  unfold DiscoverInstance, Cache.Add, throttle_key in *.
  rewrite Hf, Hi, Hv, Hlive. simpl.
  by rewrite set_recentDiscoveryOperationKeys_id.
Qed.

(** The cache after a call that reaches the throttle check. *)
Lemma DiscoverInstance_cache g k force env :
  reaches_throttle k env = true →
  recentDiscoveryOperationKeys (DiscoverInstance g k force env).1
  = (Cache.Add (throttle_key k env) (instancePollSecondsDuration (config g))
       (cacheNow env) (recentDiscoveryOperationKeys g)).1.
Proof.
  intros (Hf & Hi & Hv)%reaches_throttle_true.
  unfold DiscoverInstance, throttle_key in *. rewrite Hf, Hi, Hv. simpl.
  destruct (Cache.Add _ _ _ _) as [c e]. simpl.
  repeat case_match; done.
Qed.

(** A call that passes the throttle check adds the marker, then reads the
    store, and then probes unless it is not forced and the store reports
    the instance as fresh. *)
Lemma DiscoverInstance_passing g k force env :
  passes_throttle g k force env = true →
  let r := DiscoverInstance g k force env in
  (∃ rest,
      r.2 = EvCacheAdd (throttle_key k env) (instancePollSecondsDuration (config g))
            :: EvReadInstance (ResolveHostname env k) :: rest
      ∧ count is_backend_read rest = 0%nat)
  ∧ count is_probe r.2 = (if negb force && store_fresh k env then 0 else 1)%nat
  ∧ count is_metric r.2 = (if negb force && store_fresh k env then 0 else 1)%nat.
Proof.
  unfold passes_throttle. intros [Hr Hpass]%andb_true_iff.
  apply reaches_throttle_true in Hr as (Hf & Hi & Hv).
  unfold DiscoverInstance, DiscoverInstance_deferred, Cache.Add, throttle_key, store_fresh in *.
  rewrite Hf, Hi, Hv. simpl.
  destruct force; simpl in *.
  - repeat case_match; simplify_eq; simpl; (split; [eexists; split; [reflexivity |] |]);
      count_simpl; done.
  - apply negb_true_iff in Hpass. rewrite Hpass. simpl.
    repeat case_match; simplify_eq; simpl; (split; [eexists; split; [reflexivity |] |]);
      count_simpl; done.
Qed.

Lemma Cache_Add_keeps_live_marker c key deadline k ttl now :
  c !! key = Some deadline → now ≤ deadline →
  (Cache.Add k ttl now c).1 !! key = Some deadline.
Proof.
  intros Hm Hnow. unfold Cache.Add, Cache.live.
  destruct (decide (k = key)) as [->|Hne].
  - rewrite Hm. by rewrite bool_decide_eq_true_2.
  - case_match; simpl; [done |]. by rewrite lookup_insert_ne.
Qed.

(** An unexpired marker outlives everything that happens before its
    deadline: no call replaces it, and a reload does not touch it. *)
Lemma perform_keeps_live_marker a g key deadline :
  recentDiscoveryOperationKeys g !! key = Some deadline →
  by_deadline deadline a →
  recentDiscoveryOperationKeys (perform a g) !! key = Some deadline.
Proof.
  intros Hm Hby. destruct a as [k force env | cfg]; simpl in *; [| done].
  destruct (reaches_throttle k env) eqn:Hr.
  - rewrite DiscoverInstance_cache by done. by apply Cache_Add_keeps_live_marker.
  - by destruct (DiscoverInstance_not_reaching g k force env Hr) as [-> _].
Qed.

Lemma perform_all_keeps_live_marker acts g key deadline :
  recentDiscoveryOperationKeys g !! key = Some deadline →
  Forall (by_deadline deadline) acts →
  recentDiscoveryOperationKeys (perform_all acts g) !! key = Some deadline.
Proof.
  unfold perform_all. revert g.
  induction acts as [|a acts IH]; intros g Hm Hall; simpl; [done |].
  apply Forall_cons in Hall as [Ha Hall].
  apply IH; [| done]. by apply perform_keeps_live_marker.
Qed.

(** A call that passes the throttle check without force leaves the marker
    of its key with the poll interval of that moment as time to live. *)
Lemma DiscoverInstance_sets_marker g k env :
  passes_throttle g k false env = true →
  recentDiscoveryOperationKeys (DiscoverInstance g k false env).1 !! throttle_key k env
  = Some (cacheNow env + instancePollSecondsDuration (config g)).
Proof.
  unfold passes_throttle. intros [Hr Hpass]%andb_true_iff. simpl in Hpass.
  apply negb_true_iff in Hpass.
  rewrite DiscoverInstance_cache by done.
  unfold Cache.Add. rewrite Hpass. simpl. apply lookup_insert_eq.
Qed.

(** A non-forced call on a key whose marker is unexpired reads neither the
    store nor the instance, and changes nothing. *)
Lemma DiscoverInstance_within_window g k env deadline :
  recentDiscoveryOperationKeys g !! throttle_key k env = Some deadline →
  cacheNow env ≤ deadline →
  let r := DiscoverInstance g k false env in
  r.1 = g ∧ count is_backend_read r.2 = 0%nat ∧ count is_probe r.2 = 0%nat
  ∧ count is_metric r.2 = 0%nat.
Proof.
  intros Hm Hnow. destruct (reaches_throttle k env) eqn:Hr.
  - rewrite DiscoverInstance_throttled; [| done |].
    + unfold DiscoverInstance_deferred. simpl. case_bool_decide; by count_simpl.
    + unfold Cache.live. rewrite Hm. by apply bool_decide_eq_true_2.
  - by apply DiscoverInstance_not_reaching.
Qed.

(** C10. A non-forced call that passes the throttle check adds the marker
    of its key before it reads the backend state and before it probes. The
    marker then stays for the poll interval, whether the probe ran, failed
    or was skipped as fresh: whatever other calls and reloads happen within
    the interval, a further non-forced call on that key within the interval
    reads neither the store nor the instance. *)
Theorem throttle_marker_precedes_backend_read
    (g : Globals) (k : InstanceKey) (env : DiscoverEnv) :
  passes_throttle g k false env = true →
  let T := instancePollSecondsDuration (config g) in
  let r := DiscoverInstance g k false env in
  (∃ rest,
      r.2 = EvCacheAdd (throttle_key k env) T
            :: EvReadInstance (ResolveHostname env k) :: rest
      ∧ count is_backend_read rest = 0%nat)
  ∧ count is_probe r.2 = (if store_fresh k env then 0 else 1)%nat
  ∧ recentDiscoveryOperationKeys r.1 !! throttle_key k env = Some (cacheNow env + T)
  ∧ ∀ (others : list Activity) (k' : InstanceKey) (env' : DiscoverEnv),
      Forall (by_deadline (cacheNow env + T)) others →
      throttle_key k' env' = throttle_key k env →
      cacheNow env' ≤ cacheNow env + T →
      let g' := perform_all others r.1 in
      let r' := DiscoverInstance g' k' false env' in
      recentDiscoveryOperationKeys g' !! throttle_key k env = Some (cacheNow env + T)
      ∧ count is_backend_read r'.2 = 0%nat
      ∧ count is_probe r'.2 = 0%nat
      ∧ r'.1 = g'.
Proof.
  intros Hpass T r.
  pose proof (DiscoverInstance_passing g k false env Hpass) as (Hshape & Hprobe & _).
  pose proof (DiscoverInstance_sets_marker g k env Hpass) as Hmark.
  split_and!; [done | done | done |].
  intros others k' env' Hall Hkey Hnow g' r'.
  assert (recentDiscoveryOperationKeys g' !! throttle_key k env
          = Some (cacheNow env + T)) as Hkept
    by by apply perform_all_keeps_live_marker.
  split; [done |].
  destruct (DiscoverInstance_within_window g' k' env' (cacheNow env + T))
    as (Hg & Hread & Hp & _); [by rewrite Hkey | done |].
  done.
Qed.

End ThrottleFacts.

Lemma throttle_marker_precedes_backend_read_witness :
  let env := Sample.env 0 (Some (Sample.instanceA true)) (ProbeNil None)
               (2 * Millisecond) (3 * Millisecond) in
  let r := DiscoverInstance (H := Sample.methods) Sample.globals0 Sample.keyA false env in
  count is_probe r.2 = 0%nat
  ∧ recentDiscoveryOperationKeys r.1 !! throttle_key (H := Sample.methods) Sample.keyA env
    = Some (5 * Second).
Proof.
  intros env r.
  destruct (throttle_marker_precedes_backend_read (H := Sample.methods)
              Sample.globals0 Sample.keyA env eq_refl) as (_ & Hprobe & Hmark & _).
  exact (conj Hprobe Hmark).
Defined.

Section ThrottleScenario.
Context `{InstanceKeyMethods}.

(** C4, as the code has it. With poll interval [T > 0], after a non-forced
    call on [k] that passes the throttle check at time [t] (leaving a marker
    that lives until [t + T]), a non-forced call on [k] at [t + T/2] reads
    neither the store nor the instance and leaves the state as it is; a
    non-forced call on [k] at [t + 2T] that reaches the throttle check
    passes it, leaves a new marker, reads the store, and probes unless the
    store reports the instance as up to date with a valid last check. *)
Theorem throttle_window
    (g : Globals) (k : InstanceKey) (env1 env2 env3 : DiscoverEnv) :
  let T := instancePollSecondsDuration (config g) in
  let t := cacheNow env1 in
  0 < T →
  passes_throttle g k false env1 = true →
  reaches_throttle k env3 = true →
  throttle_key k env2 = throttle_key k env1 →
  throttle_key k env3 = throttle_key k env1 →
  cacheNow env2 = t + T / 2 →
  cacheNow env3 = t + 2 * T →
  let g1 := (DiscoverInstance g k false env1).1 in
  let r2 := DiscoverInstance g1 k false env2 in
  let r3 := DiscoverInstance r2.1 k false env3 in
  recentDiscoveryOperationKeys g1 !! throttle_key k env1 = Some (t + T)
  ∧ count is_probe r2.2 = 0%nat
  ∧ count is_backend_read r2.2 = 0%nat
  ∧ r2.1 = g1
  ∧ passes_throttle r2.1 k false env3 = true
  ∧ recentDiscoveryOperationKeys r3.1 !! throttle_key k env1 = Some (t + 3 * T)
  ∧ count is_backend_read r3.2 = 1%nat
  ∧ count is_probe r3.2 = (if store_fresh k env3 then 0 else 1)%nat.
Proof.
  intros T t HT Hpass Hreach3 Hkey2 Hkey3 Hnow2 Hnow3 g1 r2 r3.
  pose proof (DiscoverInstance_sets_marker g k env1 Hpass) as Hmark.
  fold g1 T t in Hmark.
  assert (T / 2 ≤ T) as Hhalf by (apply Z.div_le_upper_bound; lia).
  destruct (DiscoverInstance_within_window g1 k env2 (t + T))
    as (Hg2 & Hread2 & Hprobe2 & _); [by rewrite Hkey2 | lia |].
  fold r2 in Hg2, Hread2, Hprobe2.
  assert (config g1 = config g) as Hcfg
    by apply (DiscoverInstance_frame g k false env1).
  assert (passes_throttle r2.1 k false env3 = true) as Hpass3.
  { unfold passes_throttle. rewrite Hreach3, Hg2. simpl.
    unfold Cache.live. rewrite Hkey3, Hmark.
    rewrite bool_decide_eq_false_2; [done | lia]. }
  pose proof (DiscoverInstance_passing r2.1 k false env3 Hpass3)
    as ((rest & Htr & Hrest) & Hprobe3 & _).
  pose proof (DiscoverInstance_sets_marker r2.1 k env3 Hpass3) as Hmark3.
  fold r3 in Htr, Hprobe3, Hmark3.
  rewrite Hkey3, Hg2, Hcfg, Hnow3 in Hmark3. fold T in Hmark3.
  split_and!; try done.
  - rewrite Hmark3. f_equal. lia.
  - rewrite Htr. count_simpl. by rewrite Hrest.
Qed.

End ThrottleScenario.

(** C4, a call at [t + 2T] that does not probe: with a poll interval of
    five seconds, key A is discovered at time 0; ten seconds later the store
    reports A as up to date with a valid last check, and the call returns
    after reading the store. *)
Lemma throttle_scenario_probes_at_2T_fails :
  ¬ throttle_scenario_probes_at_2T (H := Sample.methods).
Proof.
  intros Hclaim.
  pose (probed := ProbeInstance (Sample.instanceA true)).
  specialize (Hclaim Sample.globals0 Sample.keyA
                (Sample.env 0 None probed (2 * Millisecond) (3 * Millisecond))
                (Sample.env (2500 * Millisecond) None probed
                   (2 * Millisecond) (3 * Millisecond))
                (Sample.env (10 * Second) (Some (Sample.instanceA true)) probed
                   (2 * Millisecond) (3 * Millisecond))).
  destruct Hclaim as [_ Hthird]; try reflexivity.
  vm_compute in Hthird. discriminate Hthird.
Qed.

Lemma throttle_window_witness :
  let probed := ProbeInstance (Sample.instanceA true) in
  let env1 := Sample.env 0 None probed (2 * Millisecond) (3 * Millisecond) in
  let env2 := Sample.env (2500 * Millisecond) None probed
                (2 * Millisecond) (3 * Millisecond) in
  let env3 := Sample.env (10 * Second) None probed (2 * Millisecond) (3 * Millisecond) in
  let g1 := (DiscoverInstance (H := Sample.methods) Sample.globals0 Sample.keyA false env1).1 in
  let r2 := DiscoverInstance (H := Sample.methods) g1 Sample.keyA false env2 in
  let r3 := DiscoverInstance (H := Sample.methods) r2.1 Sample.keyA false env3 in
  count is_probe r2.2 = 0%nat ∧ count is_probe r3.2 = 1%nat.
Proof.
  intros probed env1 env2 env3 g1 r2 r3.
  destruct (throttle_window (H := Sample.methods) Sample.globals0 Sample.keyA
              env1 env2 env3)
    as (_ & Hsecond & _ & _ & _ & _ & _ & Hthird); try reflexivity.
  exact (conj Hsecond Hthird).
Defined.

(** ** Slow and failed probes *)

Ltac occ_simpl :=
  unfold occurrences, exceeded_inc, exceeded_warning;
  repeat (rewrite ?count_app, ?count_cons, ?count_nil; simpl).

Section LatencyFacts.
Context `{InstanceKeyMethods}.

(** C6, as the code has it. An attempt that got past the forgotten and
    filter checks and whose latency, read by the deferred function, exceeds
    the poll interval [T] emits the poll-seconds-exceeded signal exactly
    once: one counter increment and one warning. If the probe was invoked,
    exactly one metric is appended; it carries the total latency read right
    after the probe returned, which exceeds [T] whenever that reading does,
    and the error of a probe that returned no instance, which is counted as
    a failed discovery. The call returns in every case. *)
Theorem slow_attempt_signalled_once
    (g : Globals) (k : InstanceKey) (force : bool) (env : DiscoverEnv) :
  let T := instancePollSecondsDuration (config g) in
  let r := DiscoverInstance g k force env in
  let probed := ReadTopologyInstanceBufferable env (ResolveHostname env k)
                  (BufferInstanceWrites (config g)) in
  InstanceIsForgotten env k = false →
  RegexpMatchPatterns env (StringCode k) = false →
  totalElapsedAtExit env > T →
  occurrences exceeded_inc r.2 = 1%nat
  ∧ occurrences exceeded_warning r.2 = 1%nat
  ∧ (count is_probe r.2 = 0%nat → metrics_of r.2 = [])
  ∧ (count is_probe r.2 ≠ 0%nat →
     ∃ m, metrics_of r.2 = [m]
          ∧ MetricInstanceKey m = ResolveHostname env k
          ∧ TotalLatency m = totalElapsedAfterProbe env
          ∧ (totalElapsedAfterProbe env > T → TotalLatency m > T)
          ∧ Err m = match probed with ProbeNil err => err | ProbeInstance _ => None end
          ∧ occurrences (EvCounterInc failedDiscoveriesCounter 1) r.2
            = match probed with ProbeNil _ => 1%nat | ProbeInstance _ => 0%nat end).
Proof.
  intros T r probed Hf Hi Hslow. subst T r probed.
  unfold DiscoverInstance, DiscoverInstance_deferred, Cache.Add.
  rewrite Hf, Hi. rewrite (bool_decide_eq_true_2 _ Hslow). simpl.
  destruct (ReadTopologyInstanceBufferable env (ResolveHostname env k)
              (BufferInstanceWrites (config g))) as [instance | err];
  repeat case_match; simplify_eq; simpl;
    (split_and!; [by occ_simpl | by occ_simpl | | ]);
    try done; try (by count_simpl);
    intros _; eexists; (split; [reflexivity |]); simpl; split_and!; try done;
    by occ_simpl.
Qed.

End LatencyFacts.

(** C6, an attempt whose metric stays below the interval: with a poll
    interval of five seconds the probe of A returns after 4999 ms, and the
    deferred function reads 5001 ms. The signal is due, and the metric of
    the attempt carries 4999 ms. *)
Lemma slow_attempt_metric_above_interval_fails :
  ¬ slow_attempt_metric_above_interval (H := Sample.methods).
Proof.
  intros Hclaim.
  pose (env := Sample.env 0 None (ProbeInstance (Sample.instanceA true))
                 (4999 * Millisecond) (5001 * Millisecond)).
  specialize (Hclaim Sample.globals0 Sample.keyA false env
                {| Timestamp := 0 + 4999 * Millisecond;
                   MetricInstanceKey := Sample.keyA;
                   TotalLatency := 4999 * Millisecond;
                   BackendLatency := 1 * Millisecond;
                   InstanceLatency := 2 * Millisecond;
                   Err := None |}
                eq_refl eq_refl eq_refl).
  assert (4999 * Millisecond > instancePollSecondsDuration Sample.cfg) as Habove.
  { apply Hclaim. vm_compute. apply list_elem_of_here. }
  vm_compute in Habove. discriminate Habove.
Qed.

Lemma slow_attempt_signalled_once_witness :
  let env := Sample.env 0 None (ProbeNil (Some "connection refused"%string))
               (6 * Second) (6 * Second + 1) in
  let r := DiscoverInstance (H := Sample.methods) Sample.globals0 Sample.keyA false env in
  occurrences exceeded_inc r.2 = 1%nat
  ∧ occurrences exceeded_warning r.2 = 1%nat
  ∧ ∃ m, metrics_of r.2 = [m] ∧ TotalLatency m > 5 * Second
         ∧ Err m = Some "connection refused"%string.
Proof.
  intros env r.
  destruct (slow_attempt_signalled_once (H := Sample.methods)
              Sample.globals0 Sample.keyA false env eq_refl eq_refl eq_refl)
    as (Hinc & Hwarn & _ & Hmetric).
  destruct Hmetric as (m & Hm & _ & _ & Habove & Herr & _); [by vm_compute |].
  split; [exact Hinc |]. split; [exact Hwarn |].
  exists m. split; [exact Hm |]. split; [| exact Herr].
  apply Habove. reflexivity.
Defined.

(** ** The recovery trigger *)

Section GuardFacts.
Context `{InstanceKeyMethods}.

Lemma holders_insert (l : list GuardPC) i pc pc' :
  l !! i = Some pc →
  (length (filter (λ pc, holds_guard pc = true) (<[i := pc']> l)) + b2n (holds_guard pc)
   = length (filter (λ pc, holds_guard pc = true) l) + b2n (holds_guard pc'))%nat.
Proof.
  revert i. induction l as [|x l IH]; intros i Hi; [done |].
  destruct i as [|i].
  - simpl in Hi. simplify_eq. change (<[0%nat:=pc']> (pc :: l)) with (pc' :: l).
    rewrite !filter_cons.
    destruct (holds_guard pc), (holds_guard pc'); simpl; repeat case_decide; simpl; try done; lia.
  - specialize (IH i Hi). change (<[S i:=pc']> (x :: l)) with (x :: <[i:=pc']> l).
    rewrite !filter_cons.
    destruct (decide (holds_guard x = true)); simpl; lia.
Qed.

Lemma holders_move d i pc pc' flag :
  goroutines d !! i = Some pc →
  (holders (move i pc' flag d) + b2n (holds_guard pc)
   = holders d + b2n (holds_guard pc'))%nat.
Proof. intros Hi. unfold holders, move. simpl. by apply holders_insert. Qed.

Lemma holders_spawn d : holders (spawn_guard d) = holders d.
Proof.
  unfold holders, spawn_guard. simpl. rewrite filter_app, length_app.
  rewrite filter_cons_False by done. simpl. lia.
Qed.

Lemma guard_step_inv i now o d : guard_inv d → guard_inv (guard_step i now o d).
Proof.
  unfold guard_inv, guard_step. intros [Hflag Hle].
  destruct (goroutines d !! i) as [pc|] eqn:Hi; [| done].
  destruct pc; repeat case_match; simpl;
    change (holders (emit _ ?d)) with (holders d);
    match goal with
    | |- context [move i ?pc' ?flag d] =>
        pose proof (holders_move d i _ pc' flag Hi) as Hm; simpl in Hm
    | _ => idtac
    end;
    try case_bool_decide; try lia; done.
Qed.

(** Ticks other than the recovery tick leave the guard alone. *)
Lemma step_inv a d : guard_inv d → guard_inv (step a d).
Proof.
  intros Hinv. destruct a as [env| |now| | | |i now o]; simpl.
  - destruct (onHealthTick (globals d) env) as [[g tr] st]. done.
  - unfold onInstancePollTick. by case_match.
  - unfold onCaretakingTick. by case_match.
  - unfold onRecoveryTick. case_match; [| done].
    destruct Hinv as [Hflag Hle]. split; simpl.
    + by rewrite holders_spawn.
    + by rewrite holders_spawn.
  - unfold onSnapshotTopologiesTick. by case_match.
  - done.
  - by apply guard_step_inv.
Qed.

Lemma run_inv acts d : guard_inv d → guard_inv (run acts d).
Proof.
  unfold run. revert d. induction acts as [|a acts IH]; intros d Hinv; simpl; [done |].
  by apply IH, step_inv.
Qed.

Lemma setup_inv g now : guard_inv (ContinuousDiscovery_setup g now).
Proof. unfold guard_inv, holders. simpl. split; [done | lia]. Qed.

(** Two goroutines that hold the guard are one and the same. *)
Lemma holders_two (l : list GuardPC) i j pi pj :
  l !! i = Some pi → l !! j = Some pj →
  holds_guard pi = true → holds_guard pj = true → i ≠ j →
  (2 ≤ length (filter (λ pc, holds_guard pc = true) l))%nat.
Proof.
  intros Hi Hj Hpi Hpj Hne.
  pose proof (holders_insert l i pi AtEntrance Hi) as Hcount.
  rewrite Hpi in Hcount. simpl in Hcount.
  assert (<[i := AtEntrance]> l !! j = Some pj) as Hj' by by rewrite list_lookup_insert_ne.
  assert (pj ∈ filter (λ pc, holds_guard pc = true) (<[i := AtEntrance]> l)) as Hin.
  { apply list_elem_of_filter. split; [done |]. by eapply list_elem_of_lookup_2. }
  destruct (filter _ (<[i := AtEntrance]> l)) eqn:Hfl; [by apply elem_of_nil in Hin |].
  simpl in Hcount. lia.
Qed.

Lemma mutual_exclusion d i j pi pj :
  guard_inv d →
  goroutines d !! i = Some pi → goroutines d !! j = Some pj →
  holds_guard pi = true → holds_guard pj = true → i = j.
Proof.
  intros [_ Hle] Hi Hj Hpi Hpj. destruct (decide (i = j)) as [|Hne]; [done |].
  pose proof (holders_two _ _ _ _ _ Hi Hj Hpi Hpj Hne) as H2.
  unfold holders in Hle. lia.
Qed.

Lemma lookup_move d i pc pc' flag :
  goroutines d !! i = Some pc → goroutines (move i pc' flag d) !! i = Some pc'.
Proof.
  intros Hi. unfold move. simpl. apply list_lookup_insert_eq.
  by eapply lookup_lt_Some.
Qed.

Lemma lookup_move_ne d i j pc' flag :
  i ≠ j → goroutines (move i pc' flag d) !! j = goroutines d !! j.
Proof. intros Hne. unfold move. simpl. by apply list_lookup_insert_ne. Qed.

Lemma guard_step_entrance d i now o :
  goroutines d !! i = Some AtEntrance →
  guard_step i now o d
  = if bool_decide (recoveryEntrance d = 0) then move i Holding 1 d
    else move i (Finished None) (recoveryEntrance d) d.
Proof. intros Hi. unfold guard_step. by rewrite Hi. Qed.

Lemma guard_step_holding d i now o :
  goroutines d !! i = Some Holding →
  guard_step i now o d
  = if runCheckAndRecoverOperationsTimeRipe d now
    then emit [EvCheckAndRecover i] (move i Recovering (recoveryEntrance d) d)
    else emit [EvLog Debug "Waiting for seconds to pass before running failure detection/recovery"]
              (move i (Releasing ExitNotRipe) (recoveryEntrance d) d).
Proof. intros Hi. unfold guard_step. by rewrite Hi. Qed.

Lemma guard_step_recovering d i now o :
  goroutines d !! i = Some Recovering →
  guard_step i now o d = move i (Releasing (ExitPass o)) (recoveryEntrance d) d.
Proof. intros Hi. unfold guard_step. by rewrite Hi. Qed.

Lemma guard_step_releasing d i now o e :
  goroutines d !! i = Some (Releasing e) →
  guard_step i now o d = move i (Finished (Some e)) 0 d.
Proof. intros Hi. unfold guard_step. by rewrite Hi. Qed.

Lemma guard_step_finished d i now o e :
  goroutines d !! i = Some (Finished e) → guard_step i now o d = d.
Proof. intros Hi. unfold guard_step. by rewrite Hi. Qed.

(** How the holder of the guard leaves: whatever the ripeness test says
    and however [CheckAndRecover] ends, the deferred store runs. *)
Lemma guard_run_holder d i now o :
  goroutines d !! i = Some Holding →
  let e := if runCheckAndRecoverOperationsTimeRipe d now
           then ExitPass o else ExitNotRipe in
  let d' := guard_run i now o d in
  recoveryEntrance d' = 0
  ∧ goroutines d' = <[i := Finished (Some e)]> (goroutines d)
  ∧ globals d' = globals d
  ∧ trace d' = trace d ++
      [if runCheckAndRecoverOperationsTimeRipe d now then EvCheckAndRecover i
       else EvLog Debug "Waiting for seconds to pass before running failure detection/recovery"].
Proof.
  intros Hi. unfold guard_run. rewrite (guard_step_holding d i now o Hi).
  pose proof (lookup_lt_Some _ _ _ Hi) as Hlt.
  destruct (runCheckAndRecoverOperationsTimeRipe d now); simpl.
  - erewrite (guard_step_recovering (emit _ _)); [| by apply (lookup_move d i Holding)].
    erewrite (guard_step_releasing (move _ _ _ _));
      [| simpl; apply list_lookup_insert_eq; by rewrite length_insert].
    erewrite (guard_step_finished (move _ _ _ _));
      [| simpl; apply list_lookup_insert_eq; by rewrite !length_insert].
    simpl. by rewrite !list_insert_insert_eq.
  - erewrite (guard_step_releasing (emit _ _)); [| by apply (lookup_move d i Holding)].
    erewrite (guard_step_finished (move _ _ _ _));
      [| simpl; apply list_lookup_insert_eq; by rewrite !length_insert].
    erewrite (guard_step_finished (move _ _ _ _));
      [| simpl; apply list_lookup_insert_eq; by rewrite !length_insert].
    simpl. by rewrite !list_insert_insert_eq.
Qed.

Lemma guard_run_inv i now o d : guard_inv d → guard_inv (guard_run i now o d).
Proof. intros Hinv. unfold guard_run. by do 4 apply guard_step_inv. Qed.

(** C1. The recovery trigger is non re-entrant. In every state the
    dispatcher reaches, under any interleaving of the recovery goroutines'
    atomic actions with each other and with the ticks: the entrance flag is
    1 exactly when one goroutine holds the guard, and no two hold it at
    once; of two requests that arrive together at an idle guard, the first
    to swap holds the guard and the other returns without any effect; a
    request that finds the guard held returns at once and does nothing
    later; and the holder resets the flag to 0 on each of its ways out (not
    yet ripe, [CheckAndRecover] returned with or without an error, or
    panicked), after which a further request acquires the guard. *)
Theorem recovery_guard_non_reentrant (g : Globals) (start : Z) (acts : list Action) :
  let d := run acts (ContinuousDiscovery_setup g start) in
  (recoveryEntrance d = Z.of_nat (holders d) ∧ (holders d ≤ 1)%nat)
  ∧ (∀ i j pi pj,
        goroutines d !! i = Some pi → goroutines d !! j = Some pj →
        holds_guard pi = true → holds_guard pj = true → i = j)
  ∧ (∀ i j now o now' o',
        i ≠ j → recoveryEntrance d = 0 →
        goroutines d !! i = Some AtEntrance → goroutines d !! j = Some AtEntrance →
        let d2 := guard_step j now' o' (guard_step i now o d) in
        goroutines d2 !! i = Some Holding
        ∧ goroutines d2 !! j = Some (Finished None)
        ∧ recoveryEntrance d2 = 1
        ∧ trace d2 = trace d
        ∧ globals d2 = globals d)
  ∧ (∀ j now o,
        recoveryEntrance d = 1 → goroutines d !! j = Some AtEntrance →
        let d' := guard_step j now o d in
        goroutines d' !! j = Some (Finished None)
        ∧ recoveryEntrance d' = 1
        ∧ trace d' = trace d
        ∧ globals d' = globals d
        ∧ (∀ i, i ≠ j → goroutines d' !! i = goroutines d !! i)
        ∧ ∀ now' o', guard_step j now' o' d' = d')
  ∧ (∀ i now o,
        goroutines d !! i = Some Holding →
        let ripe := runCheckAndRecoverOperationsTimeRipe d now in
        let d' := guard_run i now o d in
        recoveryEntrance d' = 0
        ∧ holders d' = 0%nat
        ∧ goroutines d' !! i = Some (Finished (Some (if ripe then ExitPass o else ExitNotRipe)))
        ∧ count is_check_and_recover (trace d')
          = (count is_check_and_recover (trace d) + if ripe then 1 else 0)%nat
        ∧ ∀ j now' o',
            goroutines d' !! j = Some AtEntrance →
            let d'' := guard_step j now' o' d' in
            recoveryEntrance d'' = 1 ∧ goroutines d'' !! j = Some Holding)
  ∧ (∀ i e now o,
        goroutines d !! i = Some (Releasing e) →
        let d' := guard_step i now o d in
        recoveryEntrance d' = 0 ∧ holders d' = 0%nat
        ∧ goroutines d' !! i = Some (Finished (Some e))).
Proof.
  intros d.
  assert (guard_inv d) as Hinv by apply run_inv, setup_inv.
  refine (conj Hinv (conj _ (conj _ (conj _ (conj _ _))))).
  - intros i j pi pj. by apply mutual_exclusion.
  - intros i j now o now' o' Hne Hidle Hi Hj d2. subst d2.
    rewrite (guard_step_entrance d i now o Hi).
    rewrite (bool_decide_eq_true_2 _ Hidle).
    rewrite (guard_step_entrance (move i Holding 1 d) j now' o')
      by by rewrite lookup_move_ne.
    simpl. split_and!; try done.
    + rewrite list_lookup_insert_ne by done.
      apply list_lookup_insert_eq. by eapply lookup_lt_Some.
    + apply list_lookup_insert_eq. rewrite length_insert. by eapply lookup_lt_Some.
  - intros j now o Hheld Hj d'. subst d'.
    rewrite (guard_step_entrance d j now o Hj).
    rewrite bool_decide_eq_false_2 by lia. rewrite Hheld.
    assert (goroutines (move j (Finished None) 1 d) !! j = Some (Finished None)) as Hdone.
    { simpl. apply list_lookup_insert_eq. by eapply lookup_lt_Some. }
    split_and!; try done.
    + intros i Hne. by apply lookup_move_ne.
    + intros now' o'. by apply (guard_step_finished _ j now' o' None).
  - intros i now o Hi ripe d'.
    destruct (guard_run_holder d i now o Hi) as (Hflag & Hgs & Hglob & Htr).
    fold d' ripe in Hflag, Hgs, Hglob, Htr.
    assert (guard_inv d') as [Hinv1 _] by by apply guard_run_inv.
    split_and!.
    + done.
    + lia.
    + rewrite Hgs. apply list_lookup_insert_eq. by eapply lookup_lt_Some.
    + rewrite Htr, count_app. destruct ripe; by count_simpl.
    + intros j now' o' Hj d''. subst d''.
      rewrite (guard_step_entrance d' j now' o' Hj).
      rewrite (bool_decide_eq_true_2 _ Hflag). split; [done |].
      simpl. apply list_lookup_insert_eq. by eapply lookup_lt_Some.
  - intros i e now o Hi d'. subst d'.
    assert (guard_inv (guard_step i now o d)) as [Hinv1 _] by by apply guard_step_inv.
    rewrite (guard_step_releasing d i now o e Hi) in *. simpl in *.
    split_and!; [done | lia |].
    apply list_lookup_insert_eq. by eapply lookup_lt_Some.
Qed.

End GuardFacts.

Lemma recovery_guard_non_reentrant_witness :
  let d := run (H := Sample.methods)
             [HealthTick (Sample.healthEnv (Elected true)); RecoveryTick; RecoveryTick]
             Sample.dispatcher0 in
  let d2 := guard_step 1 0 RecoverPanicked (guard_step 0 0 RecoverPanicked d) in
  goroutines d2 !! 0%nat = Some Holding
  ∧ goroutines d2 !! 1%nat = Some (Finished None)
  ∧ recoveryEntrance d2 = 1.
Proof.
  intros d d2.
  destruct (recovery_guard_non_reentrant (H := Sample.methods) Sample.globals0 0
              [HealthTick (Sample.healthEnv (Elected true)); RecoveryTick; RecoveryTick])
    as (_ & _ & Hboth & _).
  destruct (Hboth 0%nat 1%nat 0 RecoverPanicked 0 RecoverPanicked)
    as (Hfirst & Hsecond & Hflag & _); [lia | reflexivity | reflexivity | reflexivity |].
  exact (conj Hfirst (conj Hsecond Hflag)).
Defined.

(** ** Ticks of a process that is not elected *)

Section HealthFacts.
Context `{InstanceKeyMethods}.

Lemma pushInstanceKeys_no_recover ks q :
  count is_check_and_recover (pushInstanceKeys ks q).1.2 = 0%nat.
Proof.
  revert q. induction ks as [|k ks IH]; intros q; simpl; [done |].
  destruct (IsValid k); [| done].
  destruct (Queue.Push k q) as [q'|]; [| done].
  specialize (IH q'). destruct (pushInstanceKeys ks q') as [[q2 tr] st].
  simpl in *. by rewrite count_cons.
Qed.

Lemma onHealthTick_no_recover g env :
  count is_check_and_recover (onHealthTick g env).1.2 = 0%nat.
Proof.
  unfold onHealthTick.
  destruct (negb (IsLeaderOrActive _)).
  - simpl. repeat case_match; by count_simpl.
  - destruct (ReadOutdatedInstanceKeys env) as [ks err].
    match goal with
    | |- context [pushInstanceKeys ?ks ?q] =>
        pose proof (pushInstanceKeys_no_recover ks q) as Hpush;
        destruct (pushInstanceKeys ks q) as [[q2 pushed] st]
    end.
    simpl in *. count_simpl. rewrite Hpush.
    repeat case_match; by count_simpl.
Qed.

Lemma election_lost_not_won r : election_lost r → myIsElectedNode r = false.
Proof.
  intros [Herr | Hlost]; [| done]. destruct r as [won | err]; [done | done].
Qed.

(** A health tick whose election attempt is lost stores 0 and returns
    before it reads any key. *)
Lemma onHealthTick_lost g env :
  election_lost (AttemptElection env) →
  ∃ tr, onHealthTick g env = (set_isElectedNode 0 g, tr, TickReturned).
Proof.
  intros Hlost%election_lost_not_won. unfold onHealthTick. rewrite Hlost. simpl.
  by eexists.
Qed.

(** On such a process, every action whose election attempt is lost leaves
    the goroutines as they are, adds no recovery pass to the trace, and
    leaves the process not elected. *)
Lemma step_idle a d :
  idle d → tick_lost a →
  idle (step a d)
  ∧ goroutines (step a d) = goroutines d
  ∧ count is_check_and_recover (trace (step a d)) = count is_check_and_recover (trace d).
Proof.
  intros [Hnot Hfin] Hlost.
  destruct a as [env| |now| | | |i now o]; simpl in *.
  - destruct (onHealthTick_lost (globals d) env Hlost) as [tr Htick].
    pose proof (onHealthTick_no_recover (globals d) env) as Hnr.
    rewrite Htick in *. simpl in *.
    split_and!; [by split | done |]. rewrite count_app. lia.
  - unfold onInstancePollTick. by rewrite Hnot.
  - unfold onCaretakingTick. rewrite Hnot. split_and!; [by split | done |].
    simpl. by count_simpl.
  - unfold onRecoveryTick. by rewrite Hnot.
  - unfold onSnapshotTopologiesTick. by rewrite Hnot.
  - split_and!; [by split | done |]. by count_simpl.
  - unfold guard_step. destruct (goroutines d !! i) as [pc|] eqn:Hi; [| done].
    assert (finished pc) as Hpc.
    { eapply Forall_forall; [exact Hfin |]. by eapply list_elem_of_lookup_2. }
    destruct pc; done.
Qed.

Lemma run_idle acts d :
  idle d → Forall tick_lost acts →
  idle (run acts d)
  ∧ goroutines (run acts d) = goroutines d
  ∧ count is_check_and_recover (trace (run acts d))
    = count is_check_and_recover (trace d).
Proof.
  unfold run. revert d.
  induction acts as [|a acts IH]; intros d Hidle Hall; simpl; [done |].
  apply Forall_cons in Hall as [Ha Hall].
  destruct (step_idle a d Hidle Ha) as (Hidle' & Hgs & Htr).
  destruct (IH (step a d) Hidle' Hall) as (Hidle'' & Hgs' & Htr').
  split_and!; [done | congruence | congruence].
Qed.

Lemma guard_step_globals i now o d :
  globals (guard_step i now o d) = globals d
  ∧ length (goroutines (guard_step i now o d)) = length (goroutines d).
Proof.
  unfold guard_step. repeat case_match; simpl; by rewrite ?length_insert.
Qed.

(** On a process that is not elected, an action whose election attempt is
    lost starts no recovery goroutine and leaves the process not elected. *)
Lemma step_not_elected a d :
  IsLeaderOrActive (globals d) = false → tick_lost a →
  IsLeaderOrActive (globals (step a d)) = false
  ∧ length (goroutines (step a d)) = length (goroutines d).
Proof.
  intros Hnot Hlost.
  destruct a as [env| |now| | | |i now o]; simpl in *.
  - destruct (onHealthTick_lost (globals d) env Hlost) as [tr Htick].
    by rewrite Htick.
  - unfold onInstancePollTick. by rewrite Hnot.
  - unfold onCaretakingTick. by rewrite Hnot.
  - unfold onRecoveryTick. by rewrite Hnot.
  - unfold onSnapshotTopologiesTick. by rewrite Hnot.
  - done.
  - destruct (guard_step_globals i now o d) as [-> ->]. done.
Qed.

Lemma run_not_elected acts d :
  IsLeaderOrActive (globals d) = false → Forall tick_lost acts →
  IsLeaderOrActive (globals (run acts d)) = false
  ∧ length (goroutines (run acts d)) = length (goroutines d).
Proof.
  unfold run. revert d.
  induction acts as [|a acts IH]; intros d Hnot Hall; simpl; [done |].
  apply Forall_cons in Hall as [Ha Hall].
  destruct (step_not_elected a d Hnot Ha) as [Hnot' Hlen].
  destruct (IH (step a d) Hnot' Hall) as [Hnot'' Hlen'].
  split; [done | congruence].
Qed.

(** C5. A lost election attempt leaves the process not elected, whatever
    the flag was before: after a health tick whose attempt returns an error
    or does not win, [IsLeader] is false. And while every attempt is lost,
    [IsLeader] stays false after each action and the recovery tick starts
    no recovery goroutine, however often it fires; so, unless a goroutine
    started before is still under way, no recovery pass is invoked. *)
Theorem failed_election_is_not_elected
    (d : Dispatcher) (env : HealthEnv) (acts : list Action) :
  election_lost (AttemptElection env) →
  Forall tick_lost acts →
  let d1 := step (HealthTick env) d in
  IsLeader (globals d1) = false
  ∧ isElectedNode (globals d1) = 0
  ∧ (∀ n, IsLeader (globals (run (take n acts) d1)) = false)
  ∧ length (goroutines (run acts d1)) = length (goroutines d)
  ∧ (Forall finished (goroutines d) →
     goroutines (run acts d1) = goroutines d
     ∧ count is_check_and_recover (trace (run acts d1))
       = count is_check_and_recover (trace d)).
Proof.
  intros Hlost Hall d1.
  destruct (onHealthTick_lost (globals d) env Hlost) as [tr Htick].
  pose proof (onHealthTick_no_recover (globals d) env) as Hnr.
  assert (IsLeaderOrActive (globals d1) = false) as Hnot.
  { subst d1. simpl. by rewrite Htick. }
  assert (goroutines d1 = goroutines d) as Hgs.
  { subst d1. simpl. by rewrite Htick. }
  assert (count is_check_and_recover (trace d1) = count is_check_and_recover (trace d)) as Htr.
  { subst d1. simpl. rewrite Htick in *. simpl in *. rewrite count_app. lia. }
  split_and!.
  - apply Hnot.
  - subst d1. simpl. by rewrite Htick.
  - intros n. apply (run_not_elected (take n acts) d1 Hnot). by apply Forall_take.
  - destruct (run_not_elected acts d1 Hnot Hall) as [_ ->]. by rewrite Hgs.
  - intros Hfin.
    assert (idle d1) as Hidle by (split; [done | by rewrite Hgs]).
    destruct (run_idle acts d1 Hidle Hall) as (_ & -> & ->). done.
Qed.

End HealthFacts.

Lemma failed_election_is_not_elected_witness :
  let failed := HealthTick (Sample.healthEnv (ElectionError "database is down")) in
  let d1 := step (H := Sample.methods) failed Sample.dispatcher0 in
  let d3 := run (H := Sample.methods)
              [RecoveryTick; failed; RecoveryTick; failed; RecoveryTick;
               GuardStep 0 (100 * Second) (RecoverReturned None)] d1 in
  IsLeader (globals Sample.dispatcher0) = true
  ∧ IsLeader (globals d1) = false
  ∧ IsLeader (globals d3) = false
  ∧ count is_check_and_recover (trace d3) = 0%nat.
Proof.
  intros failed d1 d3.
  assert (election_lost (ElectionError "database is down")) as Hlost
    by (left; discriminate).
  destruct (failed_election_is_not_elected (H := Sample.methods) Sample.dispatcher0
              (Sample.healthEnv (ElectionError "database is down"))
              [RecoveryTick; failed; RecoveryTick; failed; RecoveryTick;
               GuardStep 0 (100 * Second) (RecoverReturned None)])
    as (Hafter & _ & Hstays & _ & Hpass).
  - exact Hlost.
  - repeat constructor; exact Hlost.
  - split; [reflexivity |]. split; [exact Hafter |].
    split; [exact (Hstays 6%nat) |]. apply Hpass. constructor.
Defined.

(** ** The wait period before the first recovery pass *)

Section RipeFacts.
Context `{InstanceKeyMethods}.

Lemma guard_step_clock i now o d :
  continuousDiscoveryStartTime (guard_step i now o d) = continuousDiscoveryStartTime d
  ∧ checkAndRecoverWaitPeriod (guard_step i now o d) = checkAndRecoverWaitPeriod d.
Proof. unfold guard_step. repeat case_match; done. Qed.

(** No action changes the start time or the wait period. *)
Lemma step_clock a d :
  continuousDiscoveryStartTime (step a d) = continuousDiscoveryStartTime d
  ∧ checkAndRecoverWaitPeriod (step a d) = checkAndRecoverWaitPeriod d.
Proof.
  destruct a as [env| |now| | | |i now o]; simpl.
  - by destruct (onHealthTick (globals d) env) as [[g tr] st].
  - unfold onInstancePollTick. by case_match.
  - unfold onCaretakingTick. by case_match.
  - unfold onRecoveryTick. by case_match.
  - unfold onSnapshotTopologiesTick. by case_match.
  - done.
  - apply guard_step_clock.
Qed.

Lemma early_not_ripe d now :
  now - continuousDiscoveryStartTime d < checkAndRecoverWaitPeriod d →
  runCheckAndRecoverOperationsTimeRipe d now = false.
Proof.
  intros Hearly. unfold runCheckAndRecoverOperationsTimeRipe.
  apply bool_decide_eq_false_2. lia.
Qed.

(** An action taken before the wait period has passed adds no recovery
    pass to the trace. *)
Lemma step_early a d :
  early d a →
  count is_check_and_recover (trace (step a d)) = count is_check_and_recover (trace d).
Proof.
  intros Hearly. destruct a as [env| |now| | | |i now o]; simpl in *.
  - pose proof (onHealthTick_no_recover (globals d) env) as Hnr.
    destruct (onHealthTick (globals d) env) as [[g tr] st]. simpl in *.
    rewrite count_app. lia.
  - unfold onInstancePollTick. case_match; [| done]. simpl. by count_simpl.
  - unfold onCaretakingTick. case_match; simpl; rewrite count_app;
      repeat case_match; count_simpl; lia.
  - unfold onRecoveryTick. case_match; [| done]. simpl. by count_simpl.
  - unfold onSnapshotTopologiesTick. case_match; [| done]. simpl. by count_simpl.
  - by count_simpl.
  - unfold guard_step. rewrite (early_not_ripe d now Hearly).
    repeat case_match; simpl; try done. by count_simpl.
Qed.

Lemma early_step a b d : early d b → early (step a d) b.
Proof.
  destruct (step_clock a d) as [Hs Hw].
  destruct b; simpl; try done. by rewrite Hs, Hw.
Qed.

Lemma run_early acts d :
  Forall (early d) acts →
  count is_check_and_recover (trace (run acts d)) = count is_check_and_recover (trace d)
  ∧ continuousDiscoveryStartTime (run acts d) = continuousDiscoveryStartTime d
  ∧ checkAndRecoverWaitPeriod (run acts d) = checkAndRecoverWaitPeriod d.
Proof.
  unfold run. revert d.
  induction acts as [|a acts IH]; intros d Hall; simpl; [done |].
  apply Forall_cons in Hall as [Ha Hall].
  destruct (IH (step a d)) as (Htr & Hs & Hw).
  { eapply Forall_impl; [exact Hall |]. intros b. apply early_step. }
  destruct (step_clock a d) as [Hs' Hw'].
  rewrite Htr, Hs, Hw. by rewrite step_early.
Qed.

(** A recovery goroutine that finds the guard idle before the wait period
    has passed: it swaps the flag to 1, logs that it waits, and stores 0. *)
Lemma guard_run_early d i now o :
  goroutines d !! i = Some AtEntrance →
  recoveryEntrance d = 0 →
  now - continuousDiscoveryStartTime d < checkAndRecoverWaitPeriod d →
  recoveryEntrance (guard_step i now o d) = 1
  ∧ goroutines (guard_step i now o d) !! i = Some Holding
  ∧ recoveryEntrance (guard_run i now o d) = 0
  ∧ goroutines (guard_run i now o d) !! i = Some (Finished (Some ExitNotRipe))
  ∧ trace (guard_run i now o d)
    = trace d ++ [EvLog Debug "Waiting for seconds to pass before running failure detection/recovery"].
Proof.
  intros Hi Hidle Hearly.
  pose proof (lookup_lt_Some _ _ _ Hi) as Hlt.
  unfold guard_run.
  rewrite (guard_step_entrance d i now o Hi), (bool_decide_eq_true_2 _ Hidle).
  assert (goroutines (move i Holding 1 d) !! i = Some Holding) as Hhold
    by (simpl; by apply list_lookup_insert_eq).
  split; [done |]. split; [done |].
  rewrite (guard_step_holding _ i now o Hhold).
  rewrite (early_not_ripe (move i Holding 1 d) now) by done.
  erewrite (guard_step_releasing (emit _ _));
    [| simpl; apply list_lookup_insert_eq; by rewrite length_insert].
  erewrite (guard_step_finished (move _ _ _ _));
    [| simpl; apply list_lookup_insert_eq; by rewrite !length_insert].
  simpl. split_and!; try done.
  apply list_lookup_insert_eq. by rewrite !length_insert.
Qed.

(** C7. No recovery pass runs before [checkAndRecoverWaitPeriod], three
    times the poll interval as set when [ContinuousDiscovery] starts, has
    passed since that start: as long as every recovery goroutine reads the
    clock before then, the trace holds no call of [CheckAndRecover]. A
    recovery tick that fires on an elected process with the guard idle in
    that time starts a goroutine that acquires the guard, logs that it
    waits, and releases the guard. *)
Theorem no_recovery_pass_before_wait_period
    (g : Globals) (start : Z) (acts : list Action) :
  let d0 := ContinuousDiscovery_setup g start in
  Forall (early d0) acts →
  let d := run acts d0 in
  checkAndRecoverWaitPeriod d = wrap64 (3 * instancePollSecondsDuration (config g))
  ∧ (3 * (Z.of_N (InstancePollSeconds (config g)) * Second) ≤ int64_max →
     checkAndRecoverWaitPeriod d = 3 * (Z.of_N (InstancePollSeconds (config g)) * Second))
  ∧ continuousDiscoveryStartTime d = start
  ∧ count is_check_and_recover (trace d) = 0%nat
  ∧ ∀ now o,
      now - start < checkAndRecoverWaitPeriod d →
      IsLeaderOrActive (globals d) = true →
      recoveryEntrance d = 0 →
      let i := length (goroutines d) in
      let d1 := onRecoveryTick d in
      goroutines d1 !! i = Some AtEntrance
      ∧ recoveryEntrance (guard_step i now o d1) = 1
      ∧ goroutines (guard_step i now o d1) !! i = Some Holding
      ∧ recoveryEntrance (guard_run i now o d1) = 0
      ∧ goroutines (guard_run i now o d1) !! i = Some (Finished (Some ExitNotRipe))
      ∧ count is_check_and_recover (trace (guard_run i now o d1)) = 0%nat.
Proof.
  intros d0 Hall d.
  destruct (run_early acts d0 Hall) as (Htr & Hs & Hw). fold d in Htr, Hs, Hw.
  assert (checkAndRecoverWaitPeriod d = wrap64 (3 * instancePollSecondsDuration (config g)))
    as Hwait by by rewrite Hw.
  split_and!.
  - done.
  - intros Hsmall. rewrite Hwait.
    rewrite instancePollSecondsDuration_small by (unfold int64_max, Second in *; lia).
    apply wrap64_small. unfold int64_max, Second in *. lia.
  - by rewrite Hs.
  - rewrite Htr. simpl. destruct (GrabElection (config g)); by count_simpl.
  - intros now o Hearly Hlead Hidle i d1.
    assert (d1 = spawn_guard
                   (emit [EvGo "ClearActiveFailureDetections";
                          EvGo "ClearActiveRecoveries";
                          EvGo "ExpireBlockedRecoveries";
                          EvGo "AcknowledgeCrashedRecoveries";
                          EvGo "inst.ExpireInstanceAnalysisChangelog"] d)) as Hd1.
    { subst d1. unfold onRecoveryTick. by rewrite Hlead. }
    assert (goroutines d1 !! i = Some AtEntrance) as Hi.
    { rewrite Hd1. simpl. subst i. apply list_lookup_middle. done. }
    destruct (guard_run_early d1 i now o Hi) as (H1 & H2 & H3 & H4 & H5).
    { by rewrite Hd1. }
    { rewrite Hd1. simpl. by rewrite Hs. }
    split_and!; try done.
    rewrite H5, Hd1. simpl. rewrite !count_app, Htr. simpl.
    destruct (GrabElection (config g)); by count_simpl.
Qed.

End RipeFacts.

Lemma no_recovery_pass_before_wait_period_witness :
  let d := run (H := Sample.methods)
             [HealthTick (Sample.healthEnv (Elected true)); RecoveryTick;
              GuardStep 0 (14 * Second) (RecoverReturned None);
              GuardStep 0 (14 * Second) (RecoverReturned None);
              GuardStep 0 (14 * Second) (RecoverReturned None)]
             Sample.dispatcher0 in
  checkAndRecoverWaitPeriod d = 15 * Second
  ∧ goroutines d !! 0%nat = Some (Finished (Some ExitNotRipe))
  ∧ count is_check_and_recover (trace d) = 0%nat.
Proof.
  intros d.
  destruct (no_recovery_pass_before_wait_period (H := Sample.methods) Sample.globals0 0
              [HealthTick (Sample.healthEnv (Elected true)); RecoveryTick;
               GuardStep 0 (14 * Second) (RecoverReturned None);
               GuardStep 0 (14 * Second) (RecoverReturned None);
               GuardStep 0 (14 * Second) (RecoverReturned None)])
    as (_ & Hwait & _ & Hnone & _).
  - repeat constructor.
  - split; [apply Hwait; by vm_compute |]. split; [reflexivity | exact Hnone].
Defined.

(** ** The shutdown drain *)

Lemma waitForLocks_leaves fuel env n :
  leaves env n → waitForLocks (S fuel) env n = Some (last_turn env n).
Proof.
  unfold leaves, last_turn. intros Hl. simpl.
  case_bool_decide; [done |]. destruct Hl as [|Hl]; [done |].
  by rewrite bool_decide_eq_true_2.
Qed.

Lemma waitForLocks_stays fuel env n :
  ¬ leaves env n →
  waitForLocks (S fuel) env n
  = match waitForLocks fuel env (S n) with
    | Some (e, tr) => Some (e, EvSleep (100 * Millisecond) :: tr)
    | None => None
    end.
Proof.
  unfold leaves. intros Hl. simpl.
  rewrite bool_decide_eq_false_2 by tauto.
  rewrite bool_decide_eq_false_2 by tauto. done.
Qed.

Lemma leaves_dec env n : {leaves env n} + {¬ leaves env n}.
Proof. unfold leaves. apply or_dec; apply _. Defined.

(** If the timer has fired by turn [n + k], the loop leaves in some turn
    [n + j] with [j ≤ k], the first that finds the counter at zero or the
    timer fired, after [j] sleeps. *)
Lemma waitForLocks_first env k n :
  shutdownWaitTime env ≤ elapsedAt env (n + k)%nat →
  ∃ j, (j ≤ k)%nat
       ∧ leaves env (n + j)%nat
       ∧ (∀ m, (n ≤ m < n + j)%nat → ¬ leaves env m)
       ∧ ∀ fuel, (j < fuel)%nat →
           waitForLocks fuel env n
           = Some ((last_turn env (n + j)%nat).1,
                   replicate j (EvSleep (100 * Millisecond))
                   ++ (last_turn env (n + j)%nat).2).
Proof.
  revert n. induction k as [|k IH]; intros n Htimer.
  - exists 0%nat. rewrite Nat.add_0_r in *.
    split; [lia |]. split; [by right |]. split; [intros m; lia |].
    intros [|fuel] Hfuel; [lia |].
    rewrite waitForLocks_leaves by by right. by destruct (last_turn env n).
  - destruct (leaves_dec env n) as [Hl | Hl].
    + exists 0%nat. rewrite Nat.add_0_r.
      split; [lia |]. split; [done |]. split; [intros m; lia |].
      intros [|fuel] Hfuel; [lia |].
      rewrite waitForLocks_leaves by done. by destruct (last_turn env n).
    + destruct (IH (S n)) as (j & Hj & Hlj & Hbefore & Hrun).
      { by replace (S n + k)%nat with (n + S k)%nat by lia. }
      exists (S j). replace (n + S j)%nat with (S n + j)%nat by lia.
      split; [lia |]. split; [done |]. split.
      * intros m Hm. destruct (decide (m = n)) as [->|Hne]; [done |].
        apply Hbefore. lia.
      * intros [|fuel] Hfuel; [lia |].
        rewrite waitForLocks_stays by done. rewrite Hrun by lia. done.
Qed.

Lemma sleeps_elapsed env n :
  sleeps env → Z.of_nat n * (100 * Millisecond) ≤ elapsedAt env n.
Proof.
  intros [H0 Hstep]. induction n as [|n IH]; [simpl; lia |].
  specialize (Hstep n). lia.
Qed.

(** C8. On SIGTERM the handler stores the terminating flag, stops the
    auto-expiration of the discovery metrics, records the audit entry and
    then polls: it sleeps 100 ms per turn and leaves the loop in the first
    turn that finds the lock counter at zero (without a further sleep or
    log) or the wait time passed (whatever the counter reads). It then
    exits the process. In the state it leaves, the terminating flag reads
    1, whatever it read before, and no other package variable has changed.
    If every sleep takes at least its 100 ms, that turn comes no later
    than turn [shutdownWaitTime / 100 ms + 1]. *)
Theorem shutdown_drain (g : Globals) (env : SignalEnv) :
  sleeps env →
  ∃ n : nat,
    Z.of_nat n ≤ Z.max 0 (shutdownWaitTime env / (100 * Millisecond) + 1)
    ∧ leaves env n
    ∧ (∀ m, (m < n)%nat →
            shardsLockCounterAt env m ≠ 0 ∧ elapsedAt env m < shutdownWaitTime env)
    ∧ ∀ fuel, (n < fuel)%nat →
        ∃ g',
          acceptSignals fuel SIGTERM g env
          = Some (g',
                  [EvLog Info "Received SIGTERM. Starting shutdown";
                   EvStoreHasReceivedSIGTERM 1;
                   EvStopAutoExpiration;
                   EvAuditOperation "shutdown"]
                  ++ (replicate n (EvSleep (100 * Millisecond))
                      ++ (if bool_decide (shardsLockCounterAt env n = 0) then []
                          else [EvLog Info "wait for lock release timed out. Some locks might not have been released."]))
                  ++ [EvLog Info "Shutting down orchestrator"; EvExit 0],
                  true)
          ∧ g' = set_hasReceivedSIGTERM 1 g
          ∧ hasReceivedSIGTERM g' = 1
          ∧ config g' = config g
          ∧ isElectedNode g' = isElectedNode g
          ∧ recentDiscoveryOperationKeys g' = recentDiscoveryOperationKeys g
          ∧ discoveryQueue g' = discoveryQueue g
          ∧ snapshotDiscoveryKeys g' = snapshotDiscoveryKeys g.
Proof.
  intros Hsleeps.
  set (k := Z.to_nat (Z.max 0 (shutdownWaitTime env / (100 * Millisecond) + 1))).
  assert (shutdownWaitTime env ≤ elapsedAt env (0 + k)%nat) as Htimer.
  { pose proof (sleeps_elapsed env k Hsleeps) as Hk. simpl.
    assert (0 < 100 * Millisecond) as Hpos by (unfold Millisecond; lia).
    pose proof (Z.mul_succ_div_gt (shutdownWaitTime env) (100 * Millisecond) Hpos) as Hgt.
    destruct Hsleeps as [H0 _].
    destruct (Z.max_spec 0 (shutdownWaitTime env / (100 * Millisecond) + 1))
      as [[Hlt Hmax] | [Hle Hmax]]; subst k; rewrite Hmax in Hk |- *.
    - rewrite Z2Nat.id in Hk by lia. unfold Millisecond in *. lia.
    - assert (shutdownWaitTime env / (100 * Millisecond) < 0) as Hneg by lia.
      pose proof (Z.div_pos (shutdownWaitTime env) (100 * Millisecond)) as Hdiv.
      simpl in Hk. lia. }
  destruct (waitForLocks_first env k 0%nat Htimer) as (n & Hn & Hleaves & Hbefore & Hrun).
  simpl in Hleaves, Hrun.
  exists n. split_and!.
  - subst k. lia.
  - done.
  - intros m Hm. specialize (Hbefore m). unfold leaves in Hbefore.
    assert (¬ (shardsLockCounterAt env m = 0
               ∨ shutdownWaitTime env ≤ elapsedAt env m)) as Hstay
      by (apply Hbefore; lia).
    split; [tauto | lia].
  - intros fuel Hfuel. exists (set_hasReceivedSIGTERM 1 g).
    unfold acceptSignals. rewrite (Hrun fuel Hfuel).
    unfold last_turn. split; [by case_bool_decide |]. by split_and!.
Qed.

Lemma shutdown_drain_witness :
  ∃ n : nat,
    Z.of_nat n ≤ 51
    ∧ leaves (Sample.drainEnv 7) n
    ∧ ∀ fuel, (n < fuel)%nat →
        ∃ g' tr, acceptSignals fuel SIGTERM Sample.globals0 (Sample.drainEnv 7)
                 = Some (g', tr, true)
                 ∧ hasReceivedSIGTERM Sample.globals0 = 0
                 ∧ hasReceivedSIGTERM g' = 1
                 ∧ isElectedNode g' = 1.
Proof.
  destruct (shutdown_drain Sample.globals0 (Sample.drainEnv 7)) as (n & Hn & Hl & _ & Hrun).
  - split; [reflexivity |]. intros n. simpl. lia.
  - exists n. split; [exact Hn |]. split; [exact Hl |].
    intros fuel Hfuel.
    destruct (Hrun fuel Hfuel) as (g' & Hexit & _ & Hflag & _ & Helected & _).
    exists g'. eexists. split; [exact Hexit |]. split; [reflexivity |].
    split; [exact Hflag | exact Helected].
Defined.

(** The two ends of the drain on the sample: the locks are released in
    turn 7, or they are still held when the 5 s have passed in turn 50. *)
Example shutdown_drain_released :
  waitForLocks 100 (Sample.drainEnv 7) 0
  = Some (LocksReleased, replicate 7 (EvSleep (100 * Millisecond))).
Proof. by vm_compute. Qed.

Example shutdown_drain_timed_out :
  waitForLocks 100 (Sample.drainEnv 1000) 0
  = Some (TimedOut,
          replicate 50 (EvSleep (100 * Millisecond))
          ++ [EvLog Info "wait for lock release timed out. Some locks might not have been released."]).
Proof. by vm_compute. Qed.

(** * Further properties of the code *)

(** ** Query projections *)

Lemma ParseUint_nonneg s n un : 0 ≤ n → strconv.ParseUint s n = Some un → 0 ≤ un.
Proof.
  revert n. induction s as [|c s IH]; intros n Hn; simpl.
  { intros. simplify_eq. done. }
  unfold strconv.digit. case_bool_decide; [| done].
  repeat case_bool_decide; intros Hun; simplify_eq; [lia | lia |].
  eapply IH; [| done]. lia.
Qed.

Lemma Atoi_range s : - 2 ^ 63 ≤ strconv.Atoi s ≤ int64_max.
Proof.
  unfold strconv.Atoi, int64_max.
  assert (∀ (neg : bool) body,
    - 2 ^ 63 ≤ match body with
               | EmptyString => 0
               | _ => match strconv.ParseUint body 0 with
                      | None => 0
                      | Some un =>
                          let cutoff := 2 ^ 63 in
                          if negb neg && bool_decide (cutoff ≤ un) then cutoff - 1
                          else if neg && bool_decide (cutoff < un) then - cutoff
                          else if neg then - un else un
                      end
               end ≤ 2 ^ 63 - 1) as Hbody.
  { intros neg body. destruct body as [|c body]; [lia |].
    destruct (strconv.ParseUint (String c body) 0) as [un|] eqn:Hun; [| lia].
    apply ParseUint_nonneg in Hun; [| lia].
    cbv zeta. destruct neg; simpl; repeat case_bool_decide; lia. }
  destruct s as [|c rest]; [lia |].
  case_bool_decide; [apply (Hbody false rest) |].
  case_bool_decide; [apply (Hbody true rest) | apply (Hbody false (String c rest))].
Qed.

Section QueryProjectionFacts.
Import sqlparser abstract.
Context `{Functions}.

Lemma addOrderBy_appends qp order qp' :
  addOrderBy qp order = Some qp' →
  ∃ o, qp' = appendOrder qp o ∧ Direction (Inner o) = Direction order.
Proof.
  unfold addOrderBy. intros Hadd.
  repeat case_match; simplify_eq; by eexists.
Qed.

(** X1. [addOrderBy] appends exactly one ordering, with the direction asked
    for, and leaves the select expressions, the aggregation flag, the
    grouping and the orderings already there as they are. *)
Theorem addOrderBy_appends_one (qp : QueryProjection) (order : Order) (qp' : QueryProjection) :
  addOrderBy qp order = Some qp' →
  ∃ o, OrderExprs qp' = OrderExprs qp ++ [o]
       ∧ Direction (Inner o) = Direction order
       ∧ SelectExprs qp' = SelectExprs qp
       ∧ HasAggr qp' = HasAggr qp
       ∧ GroupByExprs qp' = GroupByExprs qp.
Proof.
  intros (o & -> & Hdir)%addOrderBy_appends. by exists o.
Qed.

Lemma addOrderBy_position qp val dir :
  Z.of_nat (length (SelectExprs qp)) ≤ int64_max →
  match addOrderBy qp {| Expr_ := Literal IntVal val; Direction := dir |} with
  | None => ¬ position_in_range val qp
  | Some qp' =>
      position_in_range val qp
      ∧ ∃ selectExpr,
          SelectExprs qp !! Z.to_nat (strconv.Atoi val - 1) = Some selectExpr
          ∧ OrderExprs qp'
            = OrderExprs qp ++
              [{| Inner :=
                    {| Expr_ := if ColIdent_IsEmpty (As (Col selectExpr))
                                then Expr (Col selectExpr)
                                else ColName (As (Col selectExpr))
                                       {| Name := ""; Qualifier := "" |};
                       Direction := dir |};
                  WeightStrExpr := Expr (Col selectExpr) |}]
  end.
Proof.
  intros Hlen. unfold addOrderBy, position_in_range. simpl.
  pose proof (Atoi_range val) as Hr. unfold int64_max in *.
  set (n := strconv.Atoi val) in *.
  destruct (decide (n = - 2 ^ 63)) as [Hmin | Hmin].
  - (* [num - 1] wraps around to the largest [int] *)
    assert (wrap64 (n - 1) = 2 ^ 63 - 1) as -> by (rewrite Hmin; reflexivity).
    rewrite bool_decide_eq_true_2 by lia.
    rewrite (lookup_ge_None_2 (SelectExprs qp)) by lia. lia.
  - rewrite wrap64_small by (unfold int64_max; lia).
    case_bool_decide as Hneg; [| lia].
    destruct (SelectExprs qp !! Z.to_nat (n - 1)) as [selectExpr|] eqn:Hlook.
    + apply lookup_lt_Some in Hlook. split; [lia |].
      exists selectExpr. split; [done |]. simpl.
      by destruct (ColIdent_IsEmpty (As (Col selectExpr))).
    + apply lookup_ge_None in Hlook. lia.
Qed.

End QueryProjectionFacts.

Section QueryProjectionFacts2.
Import sqlparser abstract.
Context `{Functions}.

Lemma findAlias_Some name l selectExpr :
  findAlias name l = Some selectExpr →
  ∃ i, l !! i = Some selectExpr
       ∧ aliased_as name selectExpr = true
       ∧ ∀ j other, (j < i)%nat → l !! j = Some other → aliased_as name other = false.
Proof.
  induction l as [|x l IH]; simpl; [done |].
  fold (aliased_as name x). destruct (aliased_as name x) eqn:Hx.
  - intros [= ->]. exists 0%nat. split_and!; [done | done |]. intros j other Hj. lia.
  - intros (i & Hi & Hal & Hbefore)%IH. exists (S i). split_and!; [done | done |].
    intros [|j] other Hj Hother; simpl in *; [by simplify_eq |].
    eapply Hbefore; [| done]. lia.
Qed.

Lemma findAlias_None name l :
  findAlias name l = None → Forall (λ other, aliased_as name other = false) l.
Proof.
  induction l as [|x l IH]; simpl; [constructor |].
  fold (aliased_as name x). destruct (aliased_as name x) eqn:Hx; [done |].
  intros Hnone. constructor; [done | by apply IH].
Qed.

(** X2. An ordering on an unqualified column whose name is the alias of a
    select expression takes the expression behind the first such alias as
    its weight-string expression; an ordering on any other unqualified
    column takes the column itself. In both cases the order is kept as it
    was written, and the call returns. *)
Theorem addOrderBy_alias (qp : QueryProjection) (name : ColIdent)
    (qualifier : TableName) (dir : OrderDirection) :
  TableName_IsEmpty qualifier = true →
  let order := {| Expr_ := ColName name qualifier; Direction := dir |} in
  ∃ weight,
    addOrderBy qp order
    = Some (appendOrder qp {| Inner := order; WeightStrExpr := weight |})
    ∧ ((∃ i selectExpr,
           SelectExprs qp !! i = Some selectExpr
           ∧ aliased_as name selectExpr = true
           ∧ (∀ j other, (j < i)%nat → SelectExprs qp !! j = Some other →
                         aliased_as name other = false)
           ∧ weight = Expr (Col selectExpr))
       ∨ (Forall (λ other, aliased_as name other = false) (SelectExprs qp)
          ∧ weight = ColName name qualifier)).
Proof.
  intros Hq order. unfold addOrderBy. simpl. rewrite Hq.
  destruct (findAlias name (SelectExprs qp)) as [selectExpr|] eqn:Hfind.
  - eexists. split; [reflexivity |]. left.
    apply findAlias_Some in Hfind as (i & Hi & Hal & Hbefore).
    by exists i, selectExpr.
  - eexists. split; [reflexivity |]. right.
    split; [by apply findAlias_None | done].
Qed.

(** X3. An ordering by position [n] is added exactly when
    [1 ≤ n ≤ len(SelectExprs)]; any other position makes the index
    [num - 1] leave the slice, and the call panics. The ordering added is on
    the alias of the select expression at that position when it has one and
    on its expression otherwise, and carries that expression as
    weight-string expression. *)
Theorem addOrderBy_by_position (qp : QueryProjection) (val : string)
    (dir : OrderDirection) :
  Z.of_nat (length (SelectExprs qp)) ≤ int64_max →
  let order := {| Expr_ := Literal IntVal val; Direction := dir |} in
  (addOrderBy qp order = None ↔ ¬ position_in_range val qp)
  ∧ ∀ qp', addOrderBy qp order = Some qp' →
      ∃ selectExpr,
        SelectExprs qp !! Z.to_nat (strconv.Atoi val - 1) = Some selectExpr
        ∧ OrderExprs qp'
          = OrderExprs qp ++
            [{| Inner :=
                  {| Expr_ := if ColIdent_IsEmpty (As (Col selectExpr))
                              then Expr (Col selectExpr)
                              else ColName (As (Col selectExpr))
                                     {| Name := ""; Qualifier := "" |};
                     Direction := dir |};
                WeightStrExpr := Expr (Col selectExpr) |}].
Proof.
  intros Hlen order. pose proof (addOrderBy_position qp val dir Hlen) as Hpos.
  fold order in Hpos. destruct (addOrderBy qp order) as [qp1|].
  - destruct Hpos as [Hin Hadded]. split.
    + split; [done | tauto].
    + by intros qp' [= <-].
  - split; [done | done].
Qed.

(** An ordering that is not by position never panics. *)
Lemma addOrderBy_no_panic qp order :
  ¬ position (Expr_ order) → is_Some (addOrderBy qp order).
Proof.
  unfold addOrderBy, position. intros Hpos.
  repeat case_match; try done; by eexists.
Qed.

End QueryProjectionFacts2.

Section CreateQPFacts.
Import sqlparser abstract.
Context `{Functions}.

Lemma selectLoop_inr l acc hasAggr hasNonAggr res hasAggr' hasNonAggr' :
  selectLoop l acc hasAggr hasNonAggr = inr (res, hasAggr', hasNonAggr') →
  ∃ new,
    res = acc ++ new
    ∧ l = map toSelectExpr new
    ∧ Forall checked new
    ∧ hasAggr' = hasAggr || existsb Aggr new
    ∧ hasNonAggr' = hasNonAggr || existsb (λ s, negb (Aggr s)) new.
Proof.
  revert acc hasAggr hasNonAggr.
  induction l as [|selExp l IH]; intros acc hasAggr hasNonAggr Hloop; simpl in Hloop.
  - simplify_eq. exists []. rewrite app_nil_r, !orb_false_r. by split_and!.
  - destruct selExp as [|e as_|]; [done | | done].
    assert (∀ isAggr acc1 ha hn,
               selectLoop l acc1 ha hn = inr (res, hasAggr', hasNonAggr') →
               acc1 = acc ++ [{| Col := {| Expr := e; As := as_ |}; Aggr := isAggr |}] →
               checked {| Col := {| Expr := e; As := as_ |}; Aggr := isAggr |} →
               ha = hasAggr || isAggr → hn = hasNonAggr || negb isAggr →
               ∃ new, res = acc ++ new
                      ∧ sqlparser.AliasedExpr e as_ :: l = map toSelectExpr new
                      ∧ Forall checked new
                      ∧ hasAggr' = hasAggr || existsb Aggr new
                      ∧ hasNonAggr' = hasNonAggr || existsb (λ s, negb (Aggr s)) new)
      as Hstep.
    { intros isAggr acc1 ha hn (new & -> & -> & Hall & -> & ->)%IH -> Hchk -> ->.
      eexists (_ :: new). rewrite <- (assoc_L (++)). simpl.
      split_and!; [done | done | by constructor | by rewrite orb_assoc | by rewrite orb_assoc]. }
    assert (ContainsAggregation e = false → aggregate_func e = false →
            checked {| Col := {| Expr := e; As := as_ |}; Aggr := false |}) as Hplain.
    { intros Hca Hnot. unfold checked. simpl. by split. }
    destruct e as [name q | type val | q name distinct exprs | node].
    + destruct (ContainsAggregation _) eqn:Hca; [done |].
      eapply (Hstep false _ _ _ Hloop);
        [done | by apply Hplain | by rewrite orb_false_r | by rewrite orb_true_r].
    + destruct (ContainsAggregation _) eqn:Hca; [done |].
      eapply (Hstep false _ _ _ Hloop);
        [done | by apply Hplain | by rewrite orb_false_r | by rewrite orb_true_r].
    + destruct (IsAggregate (FuncExpr q name distinct exprs)) eqn:Hagg.
      * case_bool_decide as Hlen; [done |]. destruct distinct; [done |].
        eapply (Hstep true _ _ _ Hloop);
          [done | | by rewrite orb_true_r | by rewrite orb_false_r].
        unfold checked. simpl. split; [done |]. split; [| done].
        destruct (decide (length exprs = 1%nat)); [done | tauto].
      * destruct (ContainsAggregation _) eqn:Hca; [done |].
        eapply (Hstep false _ _ _ Hloop);
          [done | by apply Hplain | by rewrite orb_false_r | by rewrite orb_true_r].
    + destruct (ContainsAggregation _) eqn:Hca; [done |].
      eapply (Hstep false _ _ _ Hloop);
        [done | by apply Hplain | by rewrite orb_false_r | by rewrite orb_true_r].
Qed.

Lemma orderLoop_Some orders qp qp' :
  orderLoop orders qp = Some qp' →
  ∃ os, qp' = {| SelectExprs := SelectExprs qp; HasAggr := HasAggr qp;
                 GroupByExprs := GroupByExprs qp; OrderExprs := OrderExprs qp ++ os |}
        ∧ map (λ o, Direction (Inner o)) os = map Direction orders.
Proof.
  revert qp. induction orders as [|order orders IH]; intros qp Hloop; simpl in Hloop.
  - simplify_eq. exists []. rewrite app_nil_r. by destruct qp'.
  - destruct (addOrderBy qp order) as [qp1|] eqn:Hadd; [| done].
    apply addOrderBy_appends in Hadd as (o & -> & Hdir).
    apply IH in Hloop as (os & -> & Hdirs). exists (o :: os). simpl.
    rewrite <- (assoc_L (++)). split; [done |]. by rewrite Hdir, Hdirs.
Qed.

Lemma orderedBy_app e qp os :
  orderedBy e qp = true →
  orderedBy e {| SelectExprs := SelectExprs qp; HasAggr := HasAggr qp;
                 GroupByExprs := GroupByExprs qp; OrderExprs := OrderExprs qp ++ os |} = true.
Proof.
  unfold orderedBy. simpl. rewrite existsb_app. by intros ->.
Qed.

Lemma provided_for_app e os more : provided_for e os → provided_for e (os ++ more).
Proof.
  intros [(o & Ho & He) | [(o & Ho & He) | Hp]].
  - left. exists o. split; [apply elem_of_app; by left | done].
  - right. left. exists o. split; [apply elem_of_app; by left | done].
  - by right; right.
Qed.

Lemma addOrderBy_inner qp order qp' :
  addOrderBy qp order = Some qp' → ¬ position (Expr_ order) →
  ∃ weight, qp' = appendOrder qp {| Inner := order; WeightStrExpr := weight |}.
Proof.
  unfold addOrderBy, position. intros Hadd Hpos.
  repeat case_match; simplify_eq; try done; by eexists.
Qed.

Lemma groupLoop_Some exprs qp qp' :
  groupLoop exprs qp = Some qp' →
  ∃ added,
    qp' = {| SelectExprs := SelectExprs qp; HasAggr := HasAggr qp;
             GroupByExprs := GroupByExprs qp; OrderExprs := OrderExprs qp ++ added |}
    ∧ Forall (λ o, Direction (Inner o) = AscOrder) added
    ∧ (length added ≤ length exprs)%nat
    ∧ Forall (λ e, provided_for e (OrderExprs qp')) exprs.
Proof.
  revert qp. induction exprs as [|e exprs IH]; intros qp Hloop; simpl in Hloop.
  - simplify_eq. exists []. rewrite app_nil_r.
    split_and!; [by destruct qp' | constructor | done | constructor].
  - destruct (orderedBy e qp) eqn:Hord.
    + apply IH in Hloop as (added & -> & Hasc & Hlen & Hprov).
      exists added. split_and!; [done | done | simpl; lia |].
      constructor; [| done]. simpl. apply provided_for_app. left.
      unfold orderedBy in Hord. apply existsb_exists in Hord as (o & Ho & He).
      exists o. split; [by apply list_elem_of_In | done].
    + destruct (addOrderBy qp _) as [qp1|] eqn:Hadd; [| done].
      pose proof (addOrderBy_appends _ _ _ Hadd) as (o & Hqp1 & Hdir). simpl in Hdir.
      destruct (IH qp1 Hloop) as (added & Hqp' & Hasc & Hlen & Hprov). clear IH.
      assert (OrderExprs qp' = OrderExprs qp ++ o :: added) as Hoe.
      { rewrite Hqp', Hqp1. simpl. by rewrite <- (assoc_L (++)). }
      exists (o :: added). split_and!.
      * rewrite Hqp', Hqp1. simpl. by rewrite <- (assoc_L (++)).
      * by constructor.
      * simpl. lia.
      * constructor; [| done]. rewrite Hoe.
        destruct (decide (position e)) as [Hpos | Hpos]; [by right; right |].
        right. left.
        destruct (addOrderBy_inner _ _ _ Hadd Hpos) as (weight & Heq).
        rewrite Heq in Hqp1. unfold appendOrder in Hqp1.
        assert (o = {| Inner := {| Expr_ := e; Direction := AscOrder |};
                       WeightStrExpr := weight |}) as ->.
        { injection Hqp1 as Happ. by apply app_inv_head in Happ as [= <-]. }
        exists {| Inner := {| Expr_ := e; Direction := AscOrder |};
                  WeightStrExpr := weight |}.
        split; [| done]. apply elem_of_app. right. by left.
Qed.

End CreateQPFacts.

Section CreateQPTheorems.
Import sqlparser abstract.
Context `{Functions}.

Lemma selectLoop_supported l acc hasAggr hasNonAggr :
  if forallb supported l
  then ∃ res, selectLoop l acc hasAggr hasNonAggr
              = inr (res, hasAggr || existsb aggregate_column l,
                     hasNonAggr || existsb (λ s, negb (aggregate_column s)) l)
  else ∃ e, selectLoop l acc hasAggr hasNonAggr = inl e
            ∧ e ≠ MixOfGroupFuncAndFields.
Proof.
  revert acc hasAggr hasNonAggr.
  induction l as [|selExp l IH]; intros acc hasAggr hasNonAggr; simpl.
  - eexists. by rewrite !orb_false_r.
  - destruct selExp as [|e as_|]; simpl; [by eexists | | by eexists].
    destruct e as [name q | type val | q name distinct exprs | node]; simpl.
    + destruct (ContainsAggregation _); simpl; [by eexists |].
      specialize (IH (acc ++ [{| Col := {| Expr := ColName name q; As := as_ |};
                                 Aggr := false |}]) hasAggr true).
      destruct (forallb supported l); [| done].
      destruct IH as [res ->]. eexists. by rewrite orb_true_r.
    + destruct (ContainsAggregation _); simpl; [by eexists |].
      specialize (IH (acc ++ [{| Col := {| Expr := Literal type val; As := as_ |};
                                 Aggr := false |}]) hasAggr true).
      destruct (forallb supported l); [| done].
      destruct IH as [res ->]. eexists. by rewrite orb_true_r.
    + destruct (IsAggregate _); simpl.
      * case_bool_decide as Hlen; simpl.
        -- rewrite bool_decide_eq_false_2 by tauto.
           destruct distinct; simpl; [by eexists |].
           specialize (IH (acc ++ [{| Col := {| Expr := FuncExpr q name false exprs;
                                                As := as_ |};
                                      Aggr := true |}]) true hasNonAggr).
           destruct (forallb supported l); [| done].
           destruct IH as [res ->]. eexists. by rewrite orb_true_r.
        -- rewrite bool_decide_eq_true_2 by done. by eexists.
      * destruct (ContainsAggregation _); simpl; [by eexists |].
        specialize (IH (acc ++ [{| Col := {| Expr := FuncExpr q name distinct exprs;
                                             As := as_ |};
                                   Aggr := false |}]) hasAggr true).
        destruct (forallb supported l); [| done].
        destruct IH as [res ->]. eexists. by rewrite orb_true_r.
    + destruct (ContainsAggregation _); simpl; [by eexists |].
      specialize (IH (acc ++ [{| Col := {| Expr := OtherExpr node; As := as_ |};
                                 Aggr := false |}]) hasAggr true).
      destruct (forallb supported l); [| done].
      destruct IH as [res ->]. eexists. by rewrite orb_true_r.
Qed.

(** X4. [CreateQPFromSelect] returns an error exactly when the select list
    holds an expression it does not support, or mixes aggregate calls with
    other columns without a GROUP BY; the error of the mix is reported only
    when every select expression is supported. Whether it fails does not
    depend on the ORDER BY. *)
Theorem CreateQPFromSelect_errors (sel : Select) :
  ((∃ e, CreateQPFromSelect sel = Failed e)
   ↔ forallb supported (sqlparser.SelectExprs sel) = false
     ∨ (mixes sel = true ∧ GroupBy sel = []))
  ∧ (CreateQPFromSelect sel = Failed MixOfGroupFuncAndFields
     ↔ forallb supported (sqlparser.SelectExprs sel) = true
       ∧ mixes sel = true ∧ GroupBy sel = []).
Proof.
  unfold CreateQPFromSelect, mixes.
  pose proof (selectLoop_supported (sqlparser.SelectExprs sel) [] false false) as Hloop.
  destruct (forallb supported (sqlparser.SelectExprs sel)).
  - destruct Hloop as [res ->]. simpl.
    rewrite (andb_comm (existsb (λ s, negb (aggregate_column s)) _)).
    destruct (existsb aggregate_column _ && existsb _ _) eqn:Hmix; simpl.
    + case_bool_decide as Hgb; simpl.
      * split; split; try done; [by right | by eexists].
      * split; split; try (intros (_ & _ & ?); done); try (intros [|[_ ?]]; done).
        -- intros [e He]. repeat case_match; done.
        -- repeat case_match; done.
    + split; split; try (intros (_ & ? & _); done); try (intros [|[? _]]; done).
      * intros [e He]. repeat case_match; done.
      * repeat case_match; done.
  - destruct Hloop as (e & -> & Hne). split; split.
    + by left.
    + by eexists.
    + intros [= ->]. done.
    + intros (? & _). done.
Qed.

End CreateQPTheorems.

Section CreateQPReturned.
Import sqlparser abstract.
Context `{Functions}.

(** What a returned projection is made of. *)
Lemma CreateQPFromSelect_Returned sel qp :
  CreateQPFromSelect sel = Returned qp →
  ∃ hasNonAggr os added,
    selectLoop (sqlparser.SelectExprs sel) [] false false
    = inr (SelectExprs qp, HasAggr qp, hasNonAggr)
    ∧ hasNonAggr && HasAggr qp && bool_decide (GroupBy sel = []) = false
    ∧ GroupByExprs qp = GroupBy sel
    ∧ OrderExprs qp = os ++ added
    ∧ orderLoop (sqlparser.OrderBy sel)
        {| SelectExprs := SelectExprs qp; HasAggr := HasAggr qp;
           GroupByExprs := GroupBy sel; OrderExprs := [] |}
      = Some {| SelectExprs := SelectExprs qp; HasAggr := HasAggr qp;
                GroupByExprs := GroupBy sel; OrderExprs := os |}
    ∧ map (λ o, Direction (Inner o)) os = map Direction (sqlparser.OrderBy sel)
    ∧ Forall (λ o, Direction (Inner o) = AscOrder) added
    ∧ (length added ≤ length (GroupBy sel))%nat
    ∧ Forall (λ e, provided_for e (OrderExprs qp)) (GroupBy sel).
Proof.
  unfold CreateQPFromSelect. intros Hret.
  destruct (selectLoop _ _ _ _) as [e | [[selectExprs hasAggr] hasNonAggr]] eqn:Hsel; [done |].
  destruct (hasNonAggr && hasAggr && bool_decide (GroupBy sel = [])) eqn:Hmix; [done |].
  destruct (orderLoop _ _) as [qp1|] eqn:Hord; [| done].
  destruct (groupLoop _ _) as [qp2|] eqn:Hgrp; [| done]. simplify_eq.
  pose proof (orderLoop_Some _ _ _ Hord) as (os & Hqp1 & Hdirs). simpl in Hqp1.
  subst qp1. simpl in Hgrp.
  apply groupLoop_Some in Hgrp as (added & -> & Hasc & Hlen & Hprov). simpl in *.
  exists hasNonAggr, os, added. split_and!; done.
Qed.

(** X5. A returned projection holds one select expression per expression of
    the select list, in the same order; each is the aliased expression it
    was made from, marked as an aggregate exactly when it is an aggregate
    call, which then has one argument and no DISTINCT, while the others
    contain no aggregation. [HasAggr] tells whether there is an aggregate,
    and the grouping is that of the statement. *)
Theorem CreateQPFromSelect_select_list (sel : Select) (qp : QueryProjection) :
  CreateQPFromSelect sel = Returned qp →
  sqlparser.SelectExprs sel = map toSelectExpr (SelectExprs qp)
  ∧ Forall checked (SelectExprs qp)
  ∧ HasAggr qp = existsb Aggr (SelectExprs qp)
  ∧ GroupByExprs qp = GroupBy sel.
Proof.
  intros (hn & os & added & Hsel & _ & Hgb & _)%CreateQPFromSelect_Returned.
  apply selectLoop_inr in Hsel as (new & Hres & Hl & Hchk & Hha & _).
  simpl in *. subst new. by split_and!.
Qed.

(** X6. Without a GROUP BY, a returned projection that has an aggregate has
    nothing but aggregates. *)
Theorem CreateQPFromSelect_no_mix (sel : Select) (qp : QueryProjection) :
  CreateQPFromSelect sel = Returned qp →
  GroupBy sel = [] → HasAggr qp = true →
  Forall (λ selectExpr, Aggr selectExpr = true) (SelectExprs qp).
Proof.
  intros (hn & os & added & Hsel & Hmix & _)%CreateQPFromSelect_Returned Hgb Hagg.
  apply selectLoop_inr in Hsel as (new & Hres & _ & _ & _ & Hhn).
  simpl in *. subst new. rewrite Hagg, bool_decide_eq_true_2 in Hmix by done.
  rewrite !andb_true_r in Hmix. subst hn.
  apply Forall_forall. intros s Hs. destruct (Aggr s) eqn:Ha; [done |].
  assert (existsb (λ s, negb (Aggr s)) (SelectExprs qp) = true) as Hex; [| congruence].
  apply existsb_exists. exists s. split; [by apply list_elem_of_In | by rewrite Ha].
Qed.

Lemma addOrderBy_ordering qp order qp' :
  Z.of_nat (length (SelectExprs qp)) ≤ int64_max →
  addOrderBy qp order = Some qp' →
  ∃ o, qp' = appendOrder qp o ∧ ordering_of (SelectExprs qp) order o.
Proof.
  intros Hlen Hadd. destruct order as [e dir].
  pose proof (addOrderBy_appends _ _ _ Hadd) as (o & Hqp' & Hdir). simpl in Hdir.
  exists o. split; [done |]. split; [done |]. simpl.
  assert (∀ weight,
             Some (appendOrder qp {| Inner := {| Expr_ := e; Direction := dir |};
                                     WeightStrExpr := weight |}) = Some qp' →
             Expr_ (Inner o) = e ∧ WeightStrExpr o = weight) as Hplain.
  { intros weight [= Heq]. rewrite <- Heq in Hqp'. unfold appendOrder in Hqp'.
    injection Hqp' as Happ. by apply app_inv_head in Happ as [= <-]. }
  clear Hdir.
  destruct e as [name qualifier | type val | q n d exprs | node].
  - unfold addOrderBy in Hadd. simpl in Hadd.
    destruct (TableName_IsEmpty qualifier) eqn:Hq.
    + destruct (findAlias name (SelectExprs qp)) as [selectExpr|] eqn:Hfind.
      * destruct (Hplain _ Hadd) as [He Hw]. split; [done |].
        right. exists name, qualifier, selectExpr.
        apply findAlias_Some in Hfind as (i & Hi & Hal & _).
        split_and!; try done. by eapply list_elem_of_lookup_2.
      * destruct (Hplain _ Hadd) as [He Hw]. split; [done | by left].
    + destruct (Hplain _ Hadd) as [He Hw]. split; [done | by left].
  - destruct type;
      try (unfold addOrderBy in Hadd; simpl in Hadd;
           destruct (Hplain _ Hadd) as [He Hw]; split; [done | by left]).
    pose proof (addOrderBy_position qp val dir Hlen) as Hpos.
    rewrite Hadd in Hpos. destruct Hpos as ([Hone _] & selectExpr & Hlook & Hoe).
    exists selectExpr. rewrite Hqp' in Hoe. simpl in Hoe.
    apply app_inv_head in Hoe as [= ->]. by split_and!.
  - unfold addOrderBy in Hadd. simpl in Hadd.
    destruct (Hplain _ Hadd) as [He Hw]. split; [done | by left].
  - unfold addOrderBy in Hadd. simpl in Hadd.
    destruct (Hplain _ Hadd) as [He Hw]. split; [done | by left].
Qed.

Lemma orderLoop_orderings orders qp qp' :
  Z.of_nat (length (SelectExprs qp)) ≤ int64_max →
  orderLoop orders qp = Some qp' →
  ∃ os, qp' = {| SelectExprs := SelectExprs qp; HasAggr := HasAggr qp;
                 GroupByExprs := GroupByExprs qp; OrderExprs := OrderExprs qp ++ os |}
        ∧ Forall2 (ordering_of (SelectExprs qp)) orders os.
Proof.
  revert qp. induction orders as [|order orders IH]; intros qp Hlen Hloop; simpl in Hloop.
  - simplify_eq. exists []. rewrite app_nil_r. split; [by destruct qp' | constructor].
  - destruct (addOrderBy qp order) as [qp1|] eqn:Hadd; [| done].
    apply addOrderBy_ordering in Hadd as (o & -> & Ho); [| done].
    apply IH in Hloop as (os & -> & Hos); [| done]. exists (o :: os). simpl.
    rewrite <- (assoc_L (++)). split; [done |]. by constructor.
Qed.

Lemma groupLoop_orderings exprs qp qp' :
  Z.of_nat (length (SelectExprs qp)) ≤ int64_max →
  groupLoop exprs qp = Some qp' →
  ∃ added,
    qp' = {| SelectExprs := SelectExprs qp; HasAggr := HasAggr qp;
             GroupByExprs := GroupByExprs qp; OrderExprs := OrderExprs qp ++ added |}
    ∧ (length added ≤ length exprs)%nat
    ∧ Forall (λ o, ∃ e, e ∈ exprs
                        ∧ ordering_of (SelectExprs qp)
                            {| Expr_ := e; Direction := AscOrder |} o) added.
Proof.
  revert qp. induction exprs as [|e exprs IH]; intros qp Hlen Hloop; simpl in Hloop.
  - simplify_eq. exists []. rewrite app_nil_r.
    split_and!; [by destruct qp' | done | constructor].
  - assert (∀ added : list OrderBy,
               Forall (λ o, ∃ e', e' ∈ exprs
                                  ∧ ordering_of (SelectExprs qp)
                                      {| Expr_ := e'; Direction := AscOrder |} o) added →
               Forall (λ o, ∃ e', e' ∈ e :: exprs
                                  ∧ ordering_of (SelectExprs qp)
                                      {| Expr_ := e'; Direction := AscOrder |} o) added)
      as Hmore.
    { intros added Hall. eapply Forall_impl; [exact Hall |].
      intros o (e' & He' & Ho). exists e'. split; [by right | done]. }
    destruct (orderedBy e qp).
    + apply IH in Hloop as (added & -> & Hn & Hall); [| done].
      exists added. split_and!; [done | simpl; lia | by apply Hmore].
    + destruct (addOrderBy qp _) as [qp1|] eqn:Hadd; [| done].
      apply addOrderBy_ordering in Hadd as (o & -> & Ho); [| done].
      apply IH in Hloop as (added & -> & Hn & Hall); [| done]. simpl in *.
      exists (o :: added). split_and!.
      * by rewrite <- (assoc_L (++)).
      * simpl. lia.
      * constructor; [| by apply Hmore]. exists e. split; [by left | done].
Qed.

(** X7. The orderings of a returned projection start with one ordering per
    ORDER BY expression of the statement, in the same order: each is the
    ordering made for that expression, on the expression as written or on
    the select expression at the position given, and in the direction
    written. The orderings after them are made for GROUP BY expressions of
    the statement, are ascending, and there are at most as many of them as
    there are GROUP BY expressions. *)
Theorem CreateQPFromSelect_orderings (sel : Select) (qp : QueryProjection) :
  Z.of_nat (length (sqlparser.SelectExprs sel)) ≤ int64_max →
  CreateQPFromSelect sel = Returned qp →
  ∃ os added,
    OrderExprs qp = os ++ added
    ∧ Forall2 (ordering_of (SelectExprs qp)) (sqlparser.OrderBy sel) os
    ∧ map (λ o, Direction (Inner o)) os = map Direction (sqlparser.OrderBy sel)
    ∧ Forall (λ o, ∃ e, e ∈ GroupBy sel
                        ∧ ordering_of (SelectExprs qp)
                            {| Expr_ := e; Direction := AscOrder |} o) added
    ∧ Forall (λ o, Direction (Inner o) = AscOrder) added
    ∧ (length added ≤ length (GroupBy sel))%nat.
Proof.
  unfold CreateQPFromSelect. intros Hlen Hret.
  destruct (selectLoop _ _ _ _) as [e | [[selectExprs hasAggr] hasNonAggr]] eqn:Hsel; [done |].
  destruct (hasNonAggr && hasAggr && bool_decide (GroupBy sel = [])); [done |].
  destruct (orderLoop _ _) as [qp1|] eqn:Hord; [| done].
  destruct (groupLoop _ _) as [qp2|] eqn:Hgrp; [| done]. simplify_eq.
  apply selectLoop_inr in Hsel as (new & Hres & Hl & _). simpl in Hres. subst new.
  assert (Z.of_nat (length selectExprs) ≤ int64_max) as Hlen'.
  { rewrite Hl, length_map in Hlen. done. }
  apply orderLoop_orderings in Hord as (os & -> & Hos); [| done]. simpl in *.
  apply groupLoop_orderings in Hgrp as (added & -> & Hn & Hadded); [| done]. simpl in *.
  exists os, added. split_and!; try done.
  - clear -Hos. induction Hos as [|order o orders os [Hdir _] _ IH]; simpl; [done |].
    by rewrite Hdir, IH.
  - eapply Forall_impl; [exact Hadded |]. by intros o (e & _ & [Hdir _]).
Qed.

(** X8. In a returned projection every GROUP BY expression is provided
    for: unless it is a position, some ordering is on an expression that
    [EqualsExpr] equates with it, or on the expression itself in ascending
    direction. *)
Theorem CreateQPFromSelect_grouping_ordered (sel : Select) (qp : QueryProjection)
    (e : sqlparser.Expr) :
  CreateQPFromSelect sel = Returned qp →
  e ∈ GroupBy sel → ¬ position e →
  ∃ o, o ∈ OrderExprs qp
       ∧ (EqualsExpr e (Expr_ (Inner o)) = true
          ∨ Inner o = {| Expr_ := e; Direction := AscOrder |}).
Proof.
  intros (hn & os & added & _ & _ & _ & _ & _ & _ & _ & _ & Hprov)
    %CreateQPFromSelect_Returned He Hpos.
  eapply Forall_forall in Hprov; [| exact He].
  destruct Hprov as [(o & Ho & Heq) | [(o & Ho & Heq) | Hp]]; [| | done].
  - exists o. by split; [| left].
  - exists o. by split; [| right].
Qed.

Lemma orderLoop_no_panic orders qp :
  Forall (λ order, ¬ position (Expr_ order)) orders → is_Some (orderLoop orders qp).
Proof.
  revert qp. induction orders as [|order orders IH]; intros qp Hall; simpl; [by eexists |].
  apply Forall_cons in Hall as [Ho Hall].
  destruct (addOrderBy_no_panic qp order Ho) as [qp1 ->]. by apply IH.
Qed.

Lemma groupLoop_no_panic exprs qp :
  Forall (λ e, ¬ position e) exprs → is_Some (groupLoop exprs qp).
Proof.
  revert qp. induction exprs as [|e exprs IH]; intros qp Hall; simpl; [by eexists |].
  apply Forall_cons in Hall as [He Hall].
  destruct (orderedBy e qp); [by apply IH |].
  destruct (addOrderBy_no_panic qp {| Expr_ := e; Direction := AscOrder |} He) as [qp1 ->].
  by apply IH.
Qed.

Lemma orderLoop_positions orders qp qp' :
  Z.of_nat (length (SelectExprs qp)) ≤ int64_max →
  orderLoop orders qp = Some qp' →
  ∀ order val, order ∈ orders → Expr_ order = Literal IntVal val →
               position_in_range val qp.
Proof.
  intros Hlen. revert qp Hlen.
  induction orders as [|o orders IH]; intros qp Hlen Hloop order val Hin Hexpr.
  - by apply elem_of_nil in Hin.
  - simpl in Hloop. destruct (addOrderBy qp o) as [qp1|] eqn:Hadd; [| done].
    pose proof (addOrderBy_appends _ _ _ Hadd) as (x & Hqp1 & _).
    apply elem_of_cons in Hin as [-> | Hin].
    + pose proof (addOrderBy_position qp val (Direction o) Hlen) as Hpos.
      destruct o as [oe od]. simpl in *. subst oe. rewrite Hadd in Hpos. tauto.
    + assert (position_in_range val qp1) as Hr.
      { eapply IH; [| done | done | done]. by subst qp1. }
      unfold position_in_range in *. by subst qp1.
Qed.

(** X9. [CreateQPFromSelect] panics only on an ordering or grouping by
    position: if neither the ORDER BY nor the GROUP BY holds an integer
    literal, the call returns a projection or an error. And it returns a
    projection only if every position in the ORDER BY is between 1 and the
    number of select expressions. *)
Theorem CreateQPFromSelect_panics_on_positions_only (sel : Select) :
  (Forall (λ order, ¬ position (Expr_ order)) (sqlparser.OrderBy sel) →
   Forall (λ e, ¬ position e) (GroupBy sel) →
   CreateQPFromSelect sel ≠ Panicked)
  ∧ (Z.of_nat (length (sqlparser.SelectExprs sel)) ≤ int64_max →
     ∀ qp order val,
       CreateQPFromSelect sel = Returned qp →
       order ∈ sqlparser.OrderBy sel → Expr_ order = Literal IntVal val →
       1 ≤ strconv.Atoi val ≤ Z.of_nat (length (sqlparser.SelectExprs sel))).
Proof.
  split.
  - intros Hord Hgrp. unfold CreateQPFromSelect.
    destruct (selectLoop _ _ _ _) as [e | [[selectExprs hasAggr] hasNonAggr]]; [done |].
    destruct (_ && _ && _); [done |].
    match goal with
    | |- context [orderLoop ?os ?qp] =>
        destruct (orderLoop_no_panic os qp Hord) as [qp1 Hqp1];
        pose proof (orderLoop_Some _ _ _ Hqp1) as (xs & Hshape & _);
        rewrite Hqp1
    end.
    destruct (groupLoop_no_panic (GroupByExprs qp1) qp1) as [qp2 ->]; [| done].
    by rewrite Hshape.
  - intros Hlen qp order val Hret Hin Hexpr.
    pose proof (CreateQPFromSelect_Returned _ _ Hret)
      as (hn & os & added & Hsel & _ & _ & _ & Hloop & _).
    apply selectLoop_inr in Hsel as (new & Hres & Hl & _). simpl in Hres. subst new.
    assert (length (sqlparser.SelectExprs sel) = length (SelectExprs qp)) as Hsame
      by by rewrite Hl, length_map.
    assert (position_in_range val
              {| SelectExprs := SelectExprs qp; HasAggr := HasAggr qp;
                 GroupByExprs := GroupBy sel; OrderExprs := [] |}) as Hr.
    { eapply orderLoop_positions; [simpl; lia | exact Hloop | exact Hin | exact Hexpr]. }
    unfold position_in_range in Hr. simpl in Hr. lia.
Qed.

End CreateQPReturned.

(** ** More on the discovery operation *)

Section DiscoverMore.
Context `{InstanceKeyMethods}.

(** X10. A call makes at most one probe. It counts a discovery attempt and
    appends a metric exactly when it probes, and it counts a failed
    discovery exactly when the probe returned no instance. *)
Theorem DiscoverInstance_counters
    (g : Globals) (k : InstanceKey) (force : bool) (env : DiscoverEnv) :
  let tr := (DiscoverInstance g k force env).2 in
  let probed := ReadTopologyInstanceBufferable env (ResolveHostname env k)
                  (BufferInstanceWrites (config g)) in
  (count is_probe tr ≤ 1)%nat
  ∧ count is_discovery_attempt tr = count is_probe tr
  ∧ count is_metric tr = count is_probe tr
  ∧ count is_backend_read tr = (if passes_throttle g k force env then 1 else 0)%nat
  ∧ count is_failed_discovery tr
    = (match probed with
       | ProbeNil _ => count is_probe tr
       | ProbeInstance _ => 0
       end)%nat.
Proof.
  intros tr probed. subst tr probed.
  unfold passes_throttle, reaches_throttle, throttle_key.
  unfold DiscoverInstance, DiscoverInstance_deferred, Cache.Add. simpl.
  destruct (ReadTopologyInstanceBufferable env (ResolveHostname env k)
              (BufferInstanceWrites (config g))) as [instance | err];
    destruct force, (InstanceIsForgotten env k), (RegexpMatchPatterns env (StringCode k)),
      (IsValid (ResolveHostname env k)),
      (Cache.live (recentDiscoveryOperationKeys g)
         (DisplayString (ResolveHostname env k)) (cacheNow env));
    simpl; repeat case_match; simplify_eq; simpl in *; count_simpl; try done; try lia.
Qed.

(** X11. The poll-seconds-exceeded signal is emitted exactly by the calls
    that got past the forgotten and filter checks and whose latency, read
    at return, exceeds the poll interval: one increment and one warning
    then, and none otherwise; an invalid, throttled or fresh key is
    signalled like any other. *)
Theorem DiscoverInstance_exceeded_signal
    (g : Globals) (k : InstanceKey) (force : bool) (env : DiscoverEnv) :
  let tr := (DiscoverInstance g k force env).2 in
  let signalled :=
    negb (InstanceIsForgotten env k)
    && negb (RegexpMatchPatterns env (StringCode k))
    && bool_decide (totalElapsedAtExit env > instancePollSecondsDuration (config g)) in
  count is_exceeded tr = (if signalled then 1 else 0)%nat
  ∧ occurrences exceeded_inc tr = (if signalled then 1 else 0)%nat
  ∧ occurrences exceeded_warning tr = (if signalled then 1 else 0)%nat.
Proof.
  intros tr signalled. subst tr signalled.
  unfold DiscoverInstance, DiscoverInstance_deferred, Cache.Add.
  destruct (InstanceIsForgotten env k); simpl; [by occ_simpl |].
  destruct (RegexpMatchPatterns env (StringCode k)); simpl; [by occ_simpl |].
  destruct (bool_decide (totalElapsedAtExit env > _)); simpl;
    repeat case_match; simplify_eq; simpl; by occ_simpl.
Qed.

End DiscoverMore.

Section DiscoverMore2.
Context `{InstanceKeyMethods}.

(** X12. A forced call that reaches the throttle check always probes: it
    reads the store once and probes once whether or not the key has an
    unexpired marker and whether or not the store reports it as fresh. It
    leaves an unexpired marker with the deadline it had and puts a new one
    where there was none or an expired one. *)
Theorem DiscoverInstance_forced (g : Globals) (k : InstanceKey) (env : DiscoverEnv) :
  reaches_throttle k env = true →
  let r := DiscoverInstance g k true env in
  let key := throttle_key k env in
  count is_backend_read r.2 = 1%nat
  ∧ count is_probe r.2 = 1%nat
  ∧ count is_metric r.2 = 1%nat
  ∧ recentDiscoveryOperationKeys r.1 !! key
    = (if Cache.live (recentDiscoveryOperationKeys g) key (cacheNow env)
       then recentDiscoveryOperationKeys g !! key
       else Some (cacheNow env + instancePollSecondsDuration (config g))).
Proof.
  intros Hreach r key.
  assert (passes_throttle g k true env = true) as Hpass
    by (unfold passes_throttle; by rewrite Hreach).
  destruct (DiscoverInstance_passing g k true env Hpass)
    as ((rest & Htr & Hrest) & Hprobe & Hmetric).
  fold r in Htr, Hprobe, Hmetric. simpl in Hprobe, Hmetric.
  split_and!; [| done | done |].
  - rewrite Htr. count_simpl. by rewrite Hrest.
  - subst r key. rewrite DiscoverInstance_cache by done. unfold Cache.Add.
    destruct (Cache.live _ _ _); simpl; [done |]. apply lookup_insert_eq.
Qed.

(** X13. The throttle cache only grows, and a call touches no marker but
    that of its own key: after any call every other key has the marker it
    had, a key that had a marker still has one, and an unexpired marker
    keeps its deadline. *)
Theorem DiscoverInstance_cache_frame
    (g : Globals) (k : InstanceKey) (force : bool) (env : DiscoverEnv) (key : string) :
  let before := recentDiscoveryOperationKeys g in
  let after := recentDiscoveryOperationKeys (DiscoverInstance g k force env).1 in
  (key ≠ throttle_key k env → after !! key = before !! key)
  ∧ (is_Some (before !! key) → is_Some (after !! key))
  ∧ (Cache.live before key (cacheNow env) = true → after !! key = before !! key)
  ∧ (reaches_throttle k env = false → after = before).
Proof.
  intros before after. subst before after.
  destruct (reaches_throttle k env) eqn:Hreach.
  - rewrite DiscoverInstance_cache by done. unfold Cache.Add.
    destruct (Cache.live _ (throttle_key k env) _) eqn:Hlive; simpl.
    + by split_and!.
    + split_and!; [| | | done].
      * intros Hne. by rewrite lookup_insert_ne.
      * intros Hsome. destruct (decide (throttle_key k env = key)) as [<- | Hne].
        -- rewrite lookup_insert_eq. by eexists.
        -- by rewrite lookup_insert_ne.
      * intros Hl. destruct (decide (throttle_key k env = key)) as [<- | Hne];
          [congruence | by rewrite lookup_insert_ne].
  - destruct (DiscoverInstance_not_reaching g k force env Hreach) as [-> _]. by split_and!.
Qed.

(** X14. A key that is forgotten, filtered or invalid once resolved costs
    nothing: the call leaves the package state as it is and neither adds
    a marker nor reads the store nor probes nor appends a metric. *)
Theorem DiscoverInstance_skipped
    (g : Globals) (k : InstanceKey) (force : bool) (env : DiscoverEnv) :
  InstanceIsForgotten env k = true
  ∨ RegexpMatchPatterns env (StringCode k) = true
  ∨ IsValid (ResolveHostname env k) = false →
  let r := DiscoverInstance g k force env in
  r.1 = g
  ∧ count is_cache_add r.2 = 0%nat
  ∧ count is_backend_read r.2 = 0%nat
  ∧ count is_probe r.2 = 0%nat
  ∧ count is_metric r.2 = 0%nat.
Proof.
  intros Hskip r. subst r.
  unfold DiscoverInstance, DiscoverInstance_deferred.
  destruct (InstanceIsForgotten env k); [by count_simpl |].
  destruct (RegexpMatchPatterns env (StringCode k)); [by count_simpl |].
  destruct Hskip as [? | [? | Hinvalid]]; [done | done |].
  rewrite Hinvalid. simpl. case_bool_decide; by count_simpl.
Qed.

(** X15. The time to live of a marker is the poll interval of the
    configuration in force when the call is made: after a SIGHUP has
    installed a new configuration, a call that passes the throttle check
    sets its marker with the new poll interval, while the markers set
    before keep their deadlines. The reload itself touches neither the
    cache nor the election flag nor the terminating flag, and does not
    exit. *)
Theorem reload_changes_ttl_of_new_markers
    (g : Globals) (senv : SignalEnv) (fuel : nat)
    (k : InstanceKey) (env : DiscoverEnv) (other : string) :
  passes_throttle g k false env = true →
  other ≠ throttle_key k env →
  ∃ g1 tr,
    acceptSignals fuel SIGHUP g senv = Some (g1, tr, false)
    ∧ config g1 = reloaded senv
    ∧ recentDiscoveryOperationKeys g1 = recentDiscoveryOperationKeys g
    ∧ isElectedNode g1 = isElectedNode g
    ∧ hasReceivedSIGTERM g1 = hasReceivedSIGTERM g
    ∧ let r := DiscoverInstance g1 k false env in
      recentDiscoveryOperationKeys r.1 !! throttle_key k env
      = Some (cacheNow env + instancePollSecondsDuration (reloaded senv))
      ∧ recentDiscoveryOperationKeys r.1 !! other
        = recentDiscoveryOperationKeys g !! other.
Proof.
  intros Hpass Hother. eexists _, _. split; [reflexivity |]. simpl.
  split_and!; try done.
  - rewrite DiscoverInstance_sets_marker; [done |].
    unfold passes_throttle in *. done.
  - apply andb_true_iff in Hpass as [Hreach _].
    rewrite DiscoverInstance_cache by done. unfold Cache.Add. simpl.
    case_match; simpl; [done |]. by rewrite lookup_insert_ne.
Qed.

End DiscoverMore2.

(** ** More on the health tick *)

Section HealthMore.
Context `{InstanceKeyMethods}.




Lemma pushInstanceKeys_no_go ks q f :
  count (λ e, bool_decide (e = EvGo f)) (pushInstanceKeys ks q).1.2 = 0%nat.
Proof.
  revert q. induction ks as [|k ks IH]; intros q; simpl; [done |].
  destruct (IsValid k); [| done].
  destruct (Queue.Push k q) as [q'|]; [| done].
  specialize (IH q'). destruct (pushInstanceKeys ks q') as [[q2 tr] st].
  simpl in *. by rewrite count_cons.
Qed.




End HealthMore.

(** ** More on the dispatcher *)

Section DispatcherMore.
Context `{InstanceKeyMethods}.

Lemma step_unelected a d :
  idle d → tick_lost a →
  idle (step a d)
  ∧ ∃ new, trace (step a d) = trace d ++ new
           ∧ Forall (λ e, runs_unelected e = true) new.
Proof.
  intros [Hnot Hfin] Hlost.
  destruct a as [env| |now| | | |i now o]; simpl in *.
  - apply election_lost_not_won in Hlost. unfold onHealthTick.
    rewrite Hlost. simpl. split; [by split |].
    eexists. split; [reflexivity |].
    repeat case_match; repeat constructor.
  - unfold onInstancePollTick. rewrite Hnot. split; [by split |].
    exists []. by rewrite app_nil_r.
  - unfold onCaretakingTick. rewrite Hnot. split; [by split |].
    eexists. split; [reflexivity |]. by repeat constructor.
  - unfold onRecoveryTick. rewrite Hnot. split; [by split |].
    exists []. by rewrite app_nil_r.
  - unfold onSnapshotTopologiesTick. rewrite Hnot. split; [by split |].
    exists []. by rewrite app_nil_r.
  - split; [by split |]. eexists. split; [reflexivity |]. by repeat constructor.
  - unfold guard_step. destruct (goroutines d !! i) as [pc|] eqn:Hi.
    + assert (finished pc) as Hpc.
      { eapply Forall_forall; [exact Hfin |]. by eapply list_elem_of_lookup_2. }
      destruct pc; try done. split; [by split |]. exists []. by rewrite app_nil_r.
    + split; [by split |]. exists []. by rewrite app_nil_r.
Qed.

(** X18. Leadership gating. On a process that is not elected and has no
    recovery goroutine under way, as long as every election attempt is
    lost, whatever ticks fire add nothing to the trace but the election
    attempts with their logs, the reload of the host name cache by the
    caretaking tick, and the refresh of the tablets: no other task is
    started, no key is read or pushed, and no recovery pass is run. *)
Theorem unelected_process_runs_no_leader_task (d : Dispatcher) (acts : list Action) :
  IsLeaderOrActive (globals d) = false →
  Forall finished (goroutines d) →
  Forall tick_lost acts →
  ∃ new, trace (run acts d) = trace d ++ new
         ∧ Forall (λ e, runs_unelected e = true) new.
Proof.
  intros Hnot Hfin. assert (idle d) as Hidle by by split. clear Hnot Hfin.
  unfold run. revert d Hidle.
  induction acts as [|a acts IH]; intros d Hidle Hall; simpl.
  - exists []. by rewrite app_nil_r.
  - apply Forall_cons in Hall as [Ha Hall].
    destruct (step_unelected a d Hidle Ha) as (Hidle' & new1 & Htr1 & Hnew1).
    destruct (IH (step a d) Hidle' Hall) as (new2 & Htr2 & Hnew2).
    exists (new1 ++ new2). rewrite Htr2, Htr1, <- (assoc_L (++)). split; [done |].
    by apply Forall_app.
Qed.

Lemma onHealthTick_no_submit g env :
  count is_submit_primaries (onHealthTick g env).1.2 = 0%nat.
Proof.
  unfold onHealthTick, is_submit_primaries.
  destruct (negb (IsLeaderOrActive _)).
  - simpl. repeat case_match; by count_simpl.
  - destruct (ReadOutdatedInstanceKeys env) as [ks err].
    match goal with
    | |- context [pushInstanceKeys ?ks ?q] =>
        pose proof (pushInstanceKeys_no_go ks q "SubmitPrimariesToKvStores") as Hpush;
        destruct (pushInstanceKeys ks q) as [[q2 pushed] st]
    end.
    simpl in *. count_simpl. rewrite Hpush.
    repeat case_match; by count_simpl.
Qed.

Lemma step_submit a d :
  count is_submit_primaries (trace (step a d))
  = (count is_submit_primaries (trace d)
     + match a with
       | CaretakingTick now =>
           if IsLeader (globals d) && runCheckAndRecoverOperationsTimeRipe d now
           then 1 else 0
       | _ => 0
       end)%nat.
Proof.
  destruct a as [env| |now| | | |i now o]; simpl.
  - pose proof (onHealthTick_no_submit (globals d) env) as Hnr.
    destruct (onHealthTick (globals d) env) as [[g tr] st]. simpl in *.
    rewrite count_app. lia.
  - unfold onInstancePollTick. case_match; simpl; by count_simpl.
  - unfold onCaretakingTick, IsLeader, IsLeaderOrActive.
    destruct (bool_decide (isElectedNode (globals d) = 1)); simpl.
    + rewrite count_app. f_equal.
      destruct (runCheckAndRecoverOperationsTimeRipe d now); by count_simpl.
    + by count_simpl.
  - unfold onRecoveryTick. case_match; simpl; by count_simpl.
  - unfold onSnapshotTopologiesTick. case_match; simpl; by count_simpl.
  - by count_simpl.
  - unfold guard_step. repeat case_match; simpl; by count_simpl.
Qed.

(** X19. The caretaking tick starts [SubmitPrimariesToKvStores] exactly
    when the process is elected and the wait period has passed: a tick does
    so once if both hold when it fires and not otherwise, and no other
    action ever does. So as long as every caretaking tick fires before the
    wait period has passed, the primaries are not submitted. *)
Theorem primaries_submitted_when_ripe_and_elected
    (g : Globals) (start : Z) (acts : list Action) :
  let d0 := ContinuousDiscovery_setup g start in
  (∀ d a,
      count is_submit_primaries (trace (step a d))
      = (count is_submit_primaries (trace d)
         + match a with
           | CaretakingTick now =>
               if IsLeader (globals d) && runCheckAndRecoverOperationsTimeRipe d now
               then 1 else 0
           | _ => 0
           end)%nat)
  ∧ (Forall (caretaking_early d0) acts →
     count is_submit_primaries (trace (run acts d0)) = 0%nat).
Proof.
  intros d0. split; [intros d a; apply step_submit |].
  assert (count is_submit_primaries (trace d0) = 0%nat) as H0.
  { subst d0. simpl. destruct (GrabElection (config g)); by count_simpl. }
  assert (∀ acts d,
             continuousDiscoveryStartTime d = continuousDiscoveryStartTime d0 →
             checkAndRecoverWaitPeriod d = checkAndRecoverWaitPeriod d0 →
             count is_submit_primaries (trace d) = 0%nat →
             Forall (caretaking_early d0) acts →
             count is_submit_primaries (trace (run acts d)) = 0%nat) as Hrun.
  { clear acts H0. unfold run.
    induction acts as [|a acts IH]; intros d Hs Hw Hnone Hall; simpl; [done |].
    apply Forall_cons in Hall as [Ha Hall].
    destruct (step_clock a d) as [Hs' Hw'].
    apply IH; [congruence | congruence | | done].
    rewrite step_submit, Hnone. destruct a; simpl in *; try done.
    rewrite (early_not_ripe d now) by (rewrite Hs, Hw; done).
    by rewrite andb_false_r. }
  intros Hall. by apply Hrun.
Qed.

End DispatcherMore.

Section DispatcherRipe.
Context `{InstanceKeyMethods}.

(** A recovery goroutine that finds the guard idle once the wait period
    has passed: it swaps the flag to 1, calls [CheckAndRecover], and stores
    0 however the call ends. *)
Lemma guard_run_ripe d i now o :
  goroutines d !! i = Some AtEntrance →
  recoveryEntrance d = 0 →
  runCheckAndRecoverOperationsTimeRipe d now = true →
  recoveryEntrance (guard_run i now o d) = 0
  ∧ goroutines (guard_run i now o d) = <[i := Finished (Some (ExitPass o))]> (goroutines d)
  ∧ globals (guard_run i now o d) = globals d
  ∧ continuousDiscoveryStartTime (guard_run i now o d) = continuousDiscoveryStartTime d
  ∧ checkAndRecoverWaitPeriod (guard_run i now o d) = checkAndRecoverWaitPeriod d
  ∧ trace (guard_run i now o d) = trace d ++ [EvCheckAndRecover i].
Proof.
  intros Hi Hidle Hripe.
  pose proof (lookup_lt_Some _ _ _ Hi) as Hlt.
  unfold guard_run.
  rewrite (guard_step_entrance d i now o Hi), (bool_decide_eq_true_2 _ Hidle).
  assert (goroutines (move i Holding 1 d) !! i = Some Holding) as Hhold
    by (simpl; by apply list_lookup_insert_eq).
  rewrite (guard_step_holding _ i now o Hhold).
  assert (runCheckAndRecoverOperationsTimeRipe (move i Holding 1 d) now = true) as ->
    by done.
  erewrite (guard_step_recovering (emit _ _));
    [| simpl; apply list_lookup_insert_eq; by rewrite length_insert].
  erewrite (guard_step_releasing (move _ _ _ _));
    [| simpl; apply list_lookup_insert_eq; by rewrite !length_insert].
  simpl. by rewrite !list_insert_insert_eq.
Qed.

(** X20. Once the wait period has passed, a recovery tick that fires on
    an elected process while the guard is idle runs [CheckAndRecover]
    exactly once, and the deferred store leaves the guard idle however the
    pass ends (returned, failed or panicked).  After a pass that returned,
    with or without an error, the next tick runs the next pass. *)
Theorem recovery_tick_runs_one_pass_when_ripe
    (d : Dispatcher) (now now' : Z) (o o' : CheckAndRecoverOutcome) (err : option error) :
  IsLeaderOrActive (globals d) = true →
  recoveryEntrance d = 0 →
  runCheckAndRecoverOperationsTimeRipe d now = true →
  runCheckAndRecoverOperationsTimeRipe d now' = true →
  let i := length (goroutines d) in
  let pass o := guard_run i now o (onRecoveryTick d) in
  let d2 := guard_run (S i) now' o' (onRecoveryTick (pass (RecoverReturned err))) in
  recoveryEntrance (pass o) = 0
  ∧ goroutines (pass o) !! i = Some (Finished (Some (ExitPass o)))
  ∧ count is_check_and_recover (trace (pass o))
    = (count is_check_and_recover (trace d) + 1)%nat
  ∧ recoveryEntrance d2 = 0
  ∧ goroutines d2 !! S i = Some (Finished (Some (ExitPass o')))
  ∧ count is_check_and_recover (trace d2)
    = (count is_check_and_recover (trace d) + 2)%nat.
Proof.
  intros Hlead Hidle Hripe Hripe' i pass d2.
  assert (∀ d now o,
             IsLeaderOrActive (globals d) = true → recoveryEntrance d = 0 →
             runCheckAndRecoverOperationsTimeRipe d now = true →
             let j := length (goroutines d) in
             let d' := guard_run j now o (onRecoveryTick d) in
             recoveryEntrance d' = 0
             ∧ goroutines d' = goroutines d ++ [Finished (Some (ExitPass o))]
             ∧ globals d' = globals d
             ∧ continuousDiscoveryStartTime d' = continuousDiscoveryStartTime d
             ∧ checkAndRecoverWaitPeriod d' = checkAndRecoverWaitPeriod d
             ∧ count is_check_and_recover (trace d')
               = (count is_check_and_recover (trace d) + 1)%nat) as Hone.
  { clear. intros d now o Hlead Hidle Hripe j d'. subst j d'.
    unfold onRecoveryTick. rewrite Hlead.
    match goal with |- context [guard_run _ _ _ ?x] => set (dt := x) end.
    destruct (guard_run_ripe dt (length (goroutines d)) now o)
      as (Hf & Hg & Hgl & Hs & Hw & Htr).
    { subst dt. simpl. by apply list_lookup_middle. }
    { done. }
    { done. }
    rewrite Hf, Hg, Hgl, Hs, Hw, Htr. subst dt. simpl.
    split_and!; try done.
    - rewrite insert_app_r_alt by lia. by rewrite Nat.sub_diag.
    - count_simpl. lia. }
  destruct (Hone d now o Hlead Hidle Hripe) as (Hf & Hg & _ & _ & _ & Hc).
  fold i in Hf, Hg, Hc. fold (pass o) in Hf, Hg, Hc.
  destruct (Hone d now (RecoverReturned err) Hlead Hidle Hripe)
    as (Hf1 & Hg1 & Hgl1 & Hs1 & Hw1 & Hc1).
  fold i in Hf1, Hg1, Hgl1, Hs1, Hw1, Hc1.
  fold (pass (RecoverReturned err)) in Hf1, Hg1, Hgl1, Hs1, Hw1, Hc1.
  destruct (Hone (pass (RecoverReturned err)) now' o') as (Hf2 & Hg2 & _ & _ & _ & Hc2).
  { by rewrite Hgl1. }
  { done. }
  { unfold runCheckAndRecoverOperationsTimeRipe in *. by rewrite Hs1, Hw1. }
  assert (length (goroutines (pass (RecoverReturned err))) = S i) as Hlen
    by (rewrite Hg1, length_app; simpl; lia).
  rewrite Hlen in Hf2, Hg2, Hc2. fold d2 in Hf2, Hg2, Hc2.
  split_and!; try done.
  - rewrite Hg. by apply list_lookup_middle.
  - rewrite Hg2. apply list_lookup_middle. done.
  - lia.
Qed.

(** ** More on the workers *)

(** A turn of a worker on a process that is not elected makes no call of
    [DiscoverInstance]. *)
Lemma handleDiscoveryRequests_worker_demoted g env g' tr :
  IsLeaderOrActive g = false →
  handleDiscoveryRequests_worker g env = Some (g', tr) →
  IsLeaderOrActive g' = false
  ∧ recentDiscoveryOperationKeys g' = recentDiscoveryOperationKeys g
  ∧ count is_cache_add tr = 0%nat
  ∧ count is_backend_read tr = 0%nat
  ∧ count is_probe tr = 0%nat.
Proof.
  unfold handleDiscoveryRequests_worker. intros Hnot Hturn.
  destruct (Queue.Consume (discoveryQueue g)) as [[k q]|]; [| done].
  change (IsLeaderOrActive (set_discoveryQueue q g)) with (IsLeaderOrActive g) in Hturn.
  rewrite Hnot in Hturn. simpl in Hturn. simplify_eq. by count_simpl.
Qed.

(** X21. The workers of a process that is not elected drain the queue
    without discovering anything: over any number of turns they release
    every key they consume, and they neither touch the throttle cache nor
    read the store nor probe. *)
Theorem demoted_workers_skip_discovery (envs : list DiscoverEnv) (g : Globals) :
  IsLeaderOrActive g = false →
  let r := handleDiscoveryRequests_loop envs g in
  count is_release r.2 = count is_consume r.2
  ∧ recentDiscoveryOperationKeys r.1 = recentDiscoveryOperationKeys g
  ∧ count is_cache_add r.2 = 0%nat
  ∧ count is_backend_read r.2 = 0%nat
  ∧ count is_probe r.2 = 0%nat.
Proof.
  intros Hnot r. subst r. split; [apply handleDiscoveryRequests_loop_balanced |].
  revert g Hnot. induction envs as [|env envs IH]; intros g Hnot; simpl; [done |].
  destruct (handleDiscoveryRequests_worker g env) as [[g1 tr1]|] eqn:Hturn; [| done].
  destruct (handleDiscoveryRequests_worker_demoted g env g1 tr1 Hnot Hturn)
    as (Hnot1 & Hc1 & Ha1 & Hr1 & Hp1).
  specialize (IH g1 Hnot1). destruct (handleDiscoveryRequests_loop envs g1) as [g2 tr2].
  simpl in *. destruct IH as (Hc2 & Ha2 & Hr2 & Hp2).
  rewrite !count_app. split_and!; [congruence | lia | lia | lia].
Qed.

End DispatcherRipe.

(** ** The poll interval as a duration *)

(** X22. Up to 9223372036 seconds the poll interval in nanoseconds is the
    exact product, and so is the wait period of three poll intervals up to
    3074457345 seconds; beyond that (up to twice the bound) the [int64]
    product wraps around once and the duration is negative. *)
Theorem poll_interval_overflow (cfg : Configuration) :
  let s := Z.of_N (InstancePollSeconds cfg) in
  (s ≤ 9223372036 →
   instancePollSecondsDuration cfg = s * Second ∧ 0 ≤ instancePollSecondsDuration cfg)
  ∧ (9223372036 < s ≤ 18446744073 →
     instancePollSecondsDuration cfg = s * Second - 2 ^ 64
     ∧ instancePollSecondsDuration cfg < 0)
  ∧ (s ≤ 3074457345 →
     checkAndRecoverWaitPeriod_of cfg = 3 * (s * Second)
     ∧ 0 ≤ checkAndRecoverWaitPeriod_of cfg)
  ∧ (3074457345 < s ≤ 6148914691 →
     checkAndRecoverWaitPeriod_of cfg = 3 * (s * Second) - 2 ^ 64
     ∧ checkAndRecoverWaitPeriod_of cfg < 0).
Proof.
  intros s. subst s.
  assert (∀ z, 2 ^ 63 ≤ z < 2 ^ 64 → wrap64 z = z - 2 ^ 64) as Hwrap.
  { intros z Hz. unfold wrap64.
    rewrite <- (Z.mod_unique (z + 2 ^ 63) (2 ^ 64) 1 (z - 2 ^ 63)); lia. }
  split_and!.
  - intros Hs. rewrite instancePollSecondsDuration_small
      by (unfold int64_max, Second; lia).
    unfold Second. lia.
  - intros Hs. unfold instancePollSecondsDuration.
    rewrite (wrap64_small (Z.of_N _)) by (unfold int64_max; lia).
    rewrite Hwrap by (unfold Second; lia). unfold Second. lia.
  - intros Hs. unfold checkAndRecoverWaitPeriod_of.
    rewrite instancePollSecondsDuration_small by (unfold int64_max, Second; lia).
    rewrite wrap64_small by (unfold int64_max, Second; lia).
    unfold Second. lia.
  - intros Hs. unfold checkAndRecoverWaitPeriod_of.
    rewrite instancePollSecondsDuration_small by (unfold int64_max, Second; lia).
    rewrite Hwrap by (unfold Second; lia). unfold Second. lia.
Qed.

(** ** Submitting the primaries to the key-value stores *)

Section SubmitFacts.
Import kv.

Lemma puts_app tr1 tr2 : puts (tr1 ++ tr2) = puts tr1 ++ puts tr2.
Proof. apply omap_app. Qed.
Lemma reads_app tr1 tr2 : reads (tr1 ++ tr2) = reads tr1 ++ reads tr2.
Proof. apply omap_app. Qed.
Lemma marks_app tr1 tr2 : marks (tr1 ++ tr2) = marks tr1 ++ marks tr2.
Proof. apply omap_app. Qed.
Lemma lookups_app tr1 tr2 : lookups (tr1 ++ tr2) = lookups tr1 ++ lookups tr2.
Proof. apply omap_app. Qed.
Lemma distributed_app tr1 tr2 :
  distributed (tr1 ++ tr2) = distributed tr1 ++ distributed tr2.
Proof. apply omap_app. Qed.

Lemma log_Errore_silent err :
  puts (log_Errore err) = [] ∧ reads (log_Errore err) = []
  ∧ marks (log_Errore err) = [] ∧ lookups (log_Errore err) = []
  ∧ distributed (log_Errore err) = [].
Proof. by destruct err. Qed.

(** The second loop puts every pair it is given, and does nothing else. *)
Lemma putLoop_calls env j pairs n e :
  let r := putLoop env j pairs n e in
  r.2 = map PutKVPair pairs.
Proof.
  revert j n e. induction pairs as [|p pairs IH]; intros j n e; simpl; [done |].
  destruct (putKVPair env j p) as [err|].
  - specialize (IH (S j) n (Some err)).
    destruct (putLoop env (S j) pairs n (Some err)) as [[n' e'] tr]. simpl in *.
    by rewrite IH.
  - specialize (IH (S j) (wrap64 (n + 1)) e).
    destruct (putLoop env (S j) pairs (wrap64 (n + 1)) e) as [[n' e'] tr]. simpl in *.
    by rewrite IH.
Qed.

Lemma puts_map_PutKVPair pairs : puts (map PutKVPair pairs) = pairs.
Proof. induction pairs as [|p pairs IH]; simpl; [done | by f_equal]. Qed.

Lemma others_map_PutKVPair pairs :
  reads (map PutKVPair pairs) = [] ∧ marks (map PutKVPair pairs) = []
  ∧ lookups (map PutKVPair pairs) = [] ∧ distributed (map PutKVPair pairs) = [].
Proof. induction pairs as [|p pairs IH]; simpl; [done | apply IH]. Qed.

(** The count after the second loop. *)
Lemma putLoop_count env j pairs n e :
  0 ≤ n → n + Z.of_nat (length pairs) ≤ int64_max →
  (putLoop env j pairs n e).1.1 = n + Z.of_nat (accepted env j pairs).
Proof.
  revert j n e. induction pairs as [|p pairs IH]; intros j n e Hn Hle; simpl.
  { lia. }
  simpl in Hle.
  destruct (putKVPair env j p) as [err|].
  - specialize (IH (S j) n (Some err) Hn ltac:(lia)).
    destruct (putLoop env (S j) pairs n (Some err)) as [[n' e'] tr]. simpl in *. lia.
  - assert (wrap64 (n + 1) = n + 1) as Hw
      by (apply wrap64_small; unfold int64_max in *; lia).
    specialize (IH (S j) (wrap64 (n + 1)) e ltac:(lia) ltac:(lia)).
    destruct (putLoop env (S j) pairs (wrap64 (n + 1)) e) as [[n' e'] tr].
    simpl in *. lia.
Qed.

Lemma accepted_le env j pairs : (accepted env j pairs ≤ length pairs)%nat.
Proof.
  revert j. induction pairs as [|p pairs IH]; intros j; simpl; [lia |].
  specialize (IH (S j)). destruct (putKVPair env j p); lia.
Qed.

Lemma all_accepted_cons env j p pairs :
  all_accepted env j (p :: pairs)
  ↔ putKVPair env j p = None ∧ all_accepted env (S j) pairs.
Proof.
  unfold all_accepted. split.
  - intros Hall. split.
    + specialize (Hall 0%nat p eq_refl). by rewrite Nat.add_0_r in Hall.
    + intros k q Hk. specialize (Hall (S k) q Hk).
      by replace (S j + k)%nat with (j + S k)%nat by lia.
  - intros [Hp Hall] [|k] q Hk; simpl in Hk.
    + simplify_eq. by rewrite Nat.add_0_r.
    + replace (j + S k)%nat with (S j + k)%nat by lia. by apply Hall.
Qed.

Lemma classic_all_accepted env j pairs :
  all_accepted env j pairs ∨ ¬ all_accepted env j pairs.
Proof.
  revert j. induction pairs as [|p pairs IH]; intros j.
  { left. by intros k p Hk. }
  rewrite all_accepted_cons.
  destruct (putKVPair env j p) as [err|]; [right; by intros [? _] |].
  destruct (IH (S j)) as [Hyes|Hno]; [by left | right; by intros [_ ?]].
Qed.

(** The error after the second loop. *)
Lemma putLoop_error env j pairs n e :
  let r := putLoop env j pairs n e in
  (all_accepted env j pairs → r.1.2 = e)
  ∧ (¬ all_accepted env j pairs →
     ∃ k err, r.1.2 = Some err ∧ last_refused env j pairs k err).
Proof.
  revert j n e. induction pairs as [|p pairs IH]; intros j n e; simpl.
  { split; [done |]. intros Hnot. destruct Hnot. by intros k p Hk. }
  rewrite all_accepted_cons.
  destruct (putKVPair env j p) as [err|] eqn:Hput.
  - specialize (IH (S j) n (Some err)).
    destruct (putLoop env (S j) pairs n (Some err)) as [[n' e'] tr]. simpl in *.
    destruct IH as [IHall IHnot]. split; [by intros [? _] |]. intros _.
    destruct (decide (Forall (λ kp, putKVPair env (S j + kp.1) kp.2 = None)
                             (imap pair pairs))) as [Hall|Hnall].
    + assert (all_accepted env (S j) pairs) as Hall'.
      { intros k q Hk. rewrite Forall_forall in Hall.
        apply (Hall (k, q)). apply elem_of_lookup_imap. by exists k, q. }
      exists 0%nat, err. split; [by apply IHall |]. split.
      * exists p. by rewrite Nat.add_0_r.
      * intros [|k'] p' Hlt Hk'; [lia |]. simpl in Hk'.
        replace (j + S k')%nat with (S j + k')%nat by lia. by apply Hall'.
    + assert (¬ all_accepted env (S j) pairs) as Hnall'.
      { intros Hall'. apply Hnall. rewrite Forall_forall. intros [k q] Hin.
        apply elem_of_lookup_imap in Hin as (k' & q' & Heq & Hk). simplify_eq.
        by apply Hall'. }
      destruct (IHnot Hnall') as (k & err' & He & (q & Hq & Hputq) & Hlater).
      exists (S k), err'. split; [done |]. split.
      * exists q. split; [done |].
        by replace (j + S k)%nat with (S j + k)%nat by lia.
      * intros [|k'] p' Hlt Hk'; [lia |]. simpl in Hk'.
        replace (j + S k')%nat with (S j + k')%nat by lia.
        apply (Hlater k' p'); [lia | done].
  - specialize (IH (S j) (wrap64 (n + 1)) e).
    destruct (putLoop env (S j) pairs (wrap64 (n + 1)) e) as [[n' e'] tr]. simpl in *.
    destruct IH as [IHall IHnot]. split; [intros [_ Hall]; by apply IHall |].
    intros Hnot. assert (¬ all_accepted env (S j) pairs) as Hnall' by tauto.
    destruct (IHnot Hnall') as (k & err' & He & (q & Hq & Hputq) & Hlater).
    exists (S k), err'. split; [done |]. split.
    + exists q. split; [done |].
      by replace (j + S k)%nat with (S j + k)%nat by lia.
    + intros [|k'] p' Hlt Hk'; [lia |]. simpl in Hk'.
      replace (j + S k')%nat with (S j + k')%nat by lia.
      apply (Hlater k' p'); [lia | done].
Qed.

End SubmitFacts.

Section SubmitTheorems.
Import kv.

Lemma submitKvPairs_forced env i l : submitKvPairs env true i l = (l, []).
Proof.
  revert i. induction l as [|p l IH]; intros i; simpl; [done |].
  by rewrite IH.
Qed.

Lemma submitKvPairs_cons env i p l :
  submitKvPairs env false i (p :: l) =
  let r := submitKvPairs env false (S i) l in
  if cached env (i, p) then (r.1, CacheGet (Key p) :: r.2)
  else if stored env (i, p)
  then (r.1, CacheGet (Key p) :: GetValue (Key p)
             :: CacheSetDefaultExpiration (Key p) :: r.2)
  else (p :: r.1, CacheGet (Key p) :: GetValue (Key p) :: r.2).
Proof.
  unfold cached, stored, already_stored. simpl.
  destruct (found env i (Key p)); [done |].
  by destruct (getValue env i (Key p)) as [[v fnd] err].
Qed.

Lemma submitKvPairs_periodic env i l :
  let r := submitKvPairs env false i l in
  r.1 = (filter (λ ip, cached env ip = false ∧ stored env ip = false) (positions i l)).*2
  ∧ lookups r.2 = map Key l
  ∧ reads r.2 = map (λ ip, Key ip.2) (filter (λ ip, cached env ip = false) (positions i l))
  ∧ marks r.2 = map (λ ip, Key ip.2)
      (filter (λ ip, cached env ip = false ∧ stored env ip = true) (positions i l))
  ∧ puts r.2 = [] ∧ distributed r.2 = [].
Proof.
  revert i. induction l as [|p l IH]; intros i; [done |].
  specialize (IH (S i)). simpl in IH. destruct IH as (IH1 & IH2 & IH3 & IH4 & IH5 & IH6).
  cbv zeta. rewrite submitKvPairs_cons.
  change (positions i (p :: l)) with ((i, p) :: positions (S i) l).
  destruct (cached env (i, p)) eqn:Hc; [| destruct (stored env (i, p)) eqn:Hs].
  - rewrite !filter_cons_False by (rewrite Hc; intuition congruence).
    cbn. split_and!; try done. by f_equal.
  - rewrite (filter_cons_False (λ ip, cached env ip = false ∧ stored env ip = false))
      by (rewrite Hs; intuition congruence).
    rewrite (filter_cons_True (λ ip, cached env ip = false)) by done.
    rewrite (filter_cons_True (λ ip, cached env ip = false ∧ stored env ip = true))
      by done.
    cbn. split_and!; try done; by f_equal.
  - rewrite (filter_cons_True (λ ip, cached env ip = false ∧ stored env ip = false))
      by done.
    rewrite (filter_cons_True (λ ip, cached env ip = false)) by done.
    rewrite (filter_cons_False (λ ip, cached env ip = false ∧ stored env ip = true))
      by (rewrite Hs; intuition congruence).
    cbn. split_and!; try done; by f_equal.
Qed.

Lemma positions_length i l : length (positions i l) = length l.
Proof. unfold positions. rewrite length_zip, length_seq. lia. Qed.

Lemma submitKvPairs_length env force i l :
  (length (submitKvPairs env force i l).1 ≤ length l)%nat.
Proof.
  destruct force.
  - by rewrite submitKvPairs_forced.
  - rewrite (proj1 (submitKvPairs_periodic env i l)), length_fmap.
    etrans; [apply length_filter |]. by rewrite positions_length.
Qed.

(** The calls of a run that got its pairs. *)
Lemma SubmitPrimariesToKvStores_calls env c force kvPairs :
  getPrimariesKVPairs env c = (kvPairs, None) →
  let s := submitKvPairs env force 0 kvPairs in
  let l := putLoop env 0 s.1 0 None in
  SubmitPrimariesToKvStores env c force =
  ((kvPairs, l.1.1, l.1.2),
   [GetPrimariesKVPairs c; Debugf_numPairs c force (length kvPairs)]
   ++ s.2 ++ [Debugf_submitKvPairs (length s.1)] ++ map PutKVPair s.1
   ++ [DistributePairs kvPairs] ++ log_Errore (distributePairs env kvPairs)
   ++ log_Errore l.1.2).
Proof.
  intros Hget s l. unfold SubmitPrimariesToKvStores. rewrite Hget.
  pose proof (putLoop_calls env 0 s.1 0 None) as Hcalls. fold l in Hcalls.
  subst l. fold s. destruct s as [submit tr1]. simpl in *.
  destruct (putLoop env 0 submit 0 None) as [[n e] tr2]. simpl in *. by subst tr2.
Qed.

Lemma SubmitPrimariesToKvStores_puts env c force kvPairs :
  getPrimariesKVPairs env c = (kvPairs, None) →
  puts (SubmitPrimariesToKvStores env c force).2
  = (submitKvPairs env force 0 kvPairs).1.
Proof.
  intros Hget. rewrite (SubmitPrimariesToKvStores_calls env c force kvPairs Hget).
  cbn [snd]. rewrite !puts_app, puts_map_PutKVPair.
  rewrite !(proj1 (log_Errore_silent _)).
  destruct force.
  - rewrite submitKvPairs_forced. simpl. by rewrite app_nil_r.
  - destruct (submitKvPairs_periodic env 0 kvPairs) as (_ & _ & _ & _ & -> & _).
    simpl. by rewrite app_nil_r.
Qed.

(** X23. The error that [SubmitPrimariesToKvStores] returns.  It is nil
    exactly when the pairs could be read and every put succeeded.  If the
    pairs could not be read, it is the error of the read, the count is 0,
    and neither the cache nor the stores are touched.  Otherwise it is the
    error of the last put that failed, whatever the earlier puts did. *)
Theorem SubmitPrimariesToKvStores_error (env : kv.Env) (clusterName : string) (force : bool) :
  let r := kv.SubmitPrimariesToKvStores env clusterName force in
  let read := kv.getPrimariesKVPairs env clusterName in
  r.1.1.1 = read.1
  ∧ (r.1.2 = None ↔ read.2 = None ∧ kv.all_accepted env 0 (kv.puts r.2))
  ∧ (∀ e, read.2 = Some e →
       r.1.2 = Some e ∧ r.1.1.2 = 0
       ∧ kv.puts r.2 = [] ∧ kv.lookups r.2 = [] ∧ kv.reads r.2 = []
       ∧ kv.marks r.2 = [] ∧ kv.distributed r.2 = [])
  ∧ (∀ err, read.2 = None → r.1.2 = Some err →
       ∃ k, kv.last_refused env 0 (kv.puts r.2) k err).
Proof.
  intros r read. subst r read.
  destruct (getPrimariesKVPairs env clusterName) as [kvPairs [e|]] eqn:Hget.
  - unfold SubmitPrimariesToKvStores. rewrite Hget. simpl.
    split_and!; try done.
    split; [done | by intros [? _]].
  - rewrite (SubmitPrimariesToKvStores_puts env clusterName force kvPairs Hget).
    rewrite (SubmitPrimariesToKvStores_calls env clusterName force kvPairs Hget).
    cbn [fst snd].
    destruct (putLoop_error env 0 (submitKvPairs env force 0 kvPairs).1 0 None)
      as [Hall Hnot].
    split_and!; try done.
    + split.
      * intros Hnone. split; [done |].
        destruct (classic_all_accepted env 0 (submitKvPairs env force 0 kvPairs).1)
          as [Hyes|Hno]; [done |].
        destruct (Hnot Hno) as (k & err & He & _). congruence.
      * intros [_ Hyes]. by apply Hall.
    + intros err _ Herr.
      destruct (classic_all_accepted env 0 (submitKvPairs env force 0 kvPairs).1)
        as [Hyes|Hno].
      * rewrite (Hall Hyes) in Herr. done.
      * destruct (Hnot Hno) as (k & err' & He & Hlast). exists k. congruence.
Qed.

End SubmitTheorems.

Section SubmitTheorems2.
Import kv.

(** X24. [submittedCount] is the number of puts that succeeded; it is at
    most the number of puts, which is at most the number of pairs read.
    The count is an [int], and so is the length of the list of pairs. *)
Theorem SubmitPrimariesToKvStores_count (env : kv.Env) (clusterName : string) (force : bool) :
  let r := kv.SubmitPrimariesToKvStores env clusterName force in
  Z.of_nat (length r.1.1.1) ≤ int64_max →
  r.1.1.2 = Z.of_nat (kv.accepted env 0 (kv.puts r.2))
  ∧ (kv.accepted env 0 (kv.puts r.2) ≤ length (kv.puts r.2))%nat
  ∧ (length (kv.puts r.2) ≤ length r.1.1.1)%nat.
Proof.
  intros r. subst r.
  destruct (getPrimariesKVPairs env clusterName) as [kvPairs [e|]] eqn:Hget.
  - unfold SubmitPrimariesToKvStores. rewrite Hget. simpl. intros _.
    split_and!; [done | lia | lia].
  - rewrite (SubmitPrimariesToKvStores_puts env clusterName force kvPairs Hget).
    rewrite (SubmitPrimariesToKvStores_calls env clusterName force kvPairs Hget).
    cbn [fst snd]. intros Hlen.
    pose proof (submitKvPairs_length env force 0 kvPairs) as Hle.
    split_and!; [| apply accepted_le | done].
    rewrite putLoop_count; [lia | lia | lia].
Qed.

(** X25. A forced call puts every pair that was read, in the order read,
    and consults neither the cache nor the stores before it does. *)
Theorem SubmitPrimariesToKvStores_forced (env : kv.Env) (clusterName : string) :
  let r := kv.SubmitPrimariesToKvStores env clusterName true in
  (kv.getPrimariesKVPairs env clusterName).2 = None →
  kv.puts r.2 = r.1.1.1
  ∧ kv.lookups r.2 = [] ∧ kv.reads r.2 = [] ∧ kv.marks r.2 = [].
Proof.
  intros r Hok. subst r.
  destruct (getPrimariesKVPairs env clusterName) as [kvPairs err] eqn:Hget.
  simpl in Hok. subst err.
  rewrite (SubmitPrimariesToKvStores_puts env clusterName true kvPairs Hget).
  rewrite (SubmitPrimariesToKvStores_calls env clusterName true kvPairs Hget).
  cbn [fst snd]. rewrite submitKvPairs_forced. cbn [fst snd].
  destruct (others_map_PutKVPair kvPairs) as (Hr & Hm & Hl & _).
  split_and!; [done | | |].
  - rewrite !lookups_app, Hl.
    by rewrite !(proj1 (proj2 (proj2 (proj2 (log_Errore_silent _))))).
  - rewrite !reads_app, Hr.
    by rewrite !(proj1 (proj2 (log_Errore_silent _))).
  - rewrite !marks_app, Hm.
    by rewrite !(proj1 (proj2 (proj2 (log_Errore_silent _)))).
Qed.

(** X26. A call that is not forced looks every key up in the cache; it
    reads from the stores the keys that the cache does not have; it marks
    in the cache, with the default expiration, the keys of the pairs read
    whose value the stores already have; and it puts the pairs that are
    neither cached nor already stored, in the order read. *)
Theorem SubmitPrimariesToKvStores_periodic (env : kv.Env) (clusterName : string) :
  let r := kv.SubmitPrimariesToKvStores env clusterName false in
  let at_ := kv.positions 0 r.1.1.1 in
  (kv.getPrimariesKVPairs env clusterName).2 = None →
  kv.lookups r.2 = map kv.Key r.1.1.1
  ∧ kv.reads r.2
    = map (λ ip, kv.Key ip.2) (filter (λ ip, kv.cached env ip = false) at_)
  ∧ kv.marks r.2
    = map (λ ip, kv.Key ip.2)
        (filter (λ ip, kv.cached env ip = false ∧ kv.stored env ip = true) at_)
  ∧ kv.puts r.2
    = (filter (λ ip, kv.cached env ip = false ∧ kv.stored env ip = false) at_).*2.
Proof.
  intros r at_ Hok. subst r at_.
  destruct (getPrimariesKVPairs env clusterName) as [kvPairs err] eqn:Hget.
  simpl in Hok. subst err.
  rewrite (SubmitPrimariesToKvStores_puts env clusterName false kvPairs Hget).
  rewrite (SubmitPrimariesToKvStores_calls env clusterName false kvPairs Hget).
  cbn [fst snd].
  destruct (submitKvPairs_periodic env 0 kvPairs) as (Hs & Hl & Hr & Hm & _ & _).
  destruct (others_map_PutKVPair (submitKvPairs env false 0 kvPairs).1)
    as (Hr' & Hm' & Hl' & _).
  split_and!; [| | | done].
  - rewrite !lookups_app, Hl, Hl'.
    rewrite !(proj1 (proj2 (proj2 (proj2 (log_Errore_silent _))))).
    simpl. by rewrite app_nil_r.
  - rewrite !reads_app, Hr, Hr'.
    rewrite !(proj1 (proj2 (log_Errore_silent _))).
    simpl. by rewrite app_nil_r.
  - rewrite !marks_app, Hm, Hm'.
    rewrite !(proj1 (proj2 (proj2 (log_Errore_silent _)))).
    simpl. by rewrite app_nil_r.
Qed.

(** X27. When the pairs could be read, [kv.DistributePairs] is called
    exactly once, with all the pairs read and not only those put, and after
    the last put.  Its error is logged, and it changes neither the results
    nor the puts. *)
Theorem SubmitPrimariesToKvStores_distributes
    (env : kv.Env) (clusterName : string) (force : bool) :
  let r := kv.SubmitPrimariesToKvStores env clusterName force in
  (kv.getPrimariesKVPairs env clusterName).2 = None →
  kv.distributed r.2 = [r.1.1.1]
  ∧ (∃ before after,
       r.2 = before ++ kv.DistributePairs r.1.1.1 :: after
       ∧ kv.puts before = kv.puts r.2 ∧ kv.puts after = [])
  ∧ (∀ e, kv.distributePairs env r.1.1.1 = Some e → kv.Errore e ∈ r.2)
  ∧ (∀ f, let r' := kv.SubmitPrimariesToKvStores
                     (kv.with_distributePairs f env) clusterName force in
          r'.1 = r.1 ∧ kv.puts r'.2 = kv.puts r.2).
Proof.
  intros r Hok. subst r.
  destruct (getPrimariesKVPairs env clusterName) as [kvPairs err] eqn:Hget.
  simpl in Hok. subst err.
  assert (∀ f i l, submitKvPairs (with_distributePairs f env) force i l
                   = submitKvPairs env force i l) as Hsame.
  { intros f i l. revert i. induction l as [|p l IH]; intros i; simpl; [done |].
    by rewrite IH. }
  assert (∀ f j l n e, putLoop (with_distributePairs f env) j l n e
                       = putLoop env j l n e) as Hsame'.
  { intros f j l. revert j. induction l as [|p l IH]; intros j n e; simpl; [done |].
    destruct (putKVPair env j p); by rewrite IH. }
  rewrite (SubmitPrimariesToKvStores_puts env clusterName force kvPairs Hget).
  rewrite (SubmitPrimariesToKvStores_calls env clusterName force kvPairs Hget).
  cbn [fst snd].
  set (s := submitKvPairs env force 0 kvPairs).
  set (l := putLoop env 0 s.1 0 None).
  assert (puts s.2 = [] ∧ distributed s.2 = []) as [Hps Hds].
  { subst s. destruct force.
    - by rewrite submitKvPairs_forced.
    - by destruct (submitKvPairs_periodic env 0 kvPairs) as (_ & _ & _ & _ & ? & ?). }
  split_and!.
  - rewrite !distributed_app, Hds.
    rewrite (proj2 (proj2 (proj2 (others_map_PutKVPair _)))).
    by rewrite !(proj2 (proj2 (proj2 (proj2 (log_Errore_silent _))))).
  - exists ([GetPrimariesKVPairs clusterName;
             Debugf_numPairs clusterName force (length kvPairs)]
            ++ s.2 ++ [Debugf_submitKvPairs (length s.1)] ++ map PutKVPair s.1),
           (log_Errore (distributePairs env kvPairs) ++ log_Errore l.1.2).
    split_and!.
    + by rewrite <- !app_assoc.
    + rewrite !puts_app, Hps, puts_map_PutKVPair. done.
    + by rewrite puts_app, !(proj1 (log_Errore_silent _)).
  - intros e He. rewrite He. simpl. set_solver.
  - intros f. cbv zeta.
    rewrite (SubmitPrimariesToKvStores_puts (with_distributePairs f env)
               clusterName force kvPairs Hget).
    rewrite (SubmitPrimariesToKvStores_calls (with_distributePairs f env)
               clusterName force kvPairs Hget).
    cbn [fst snd]. by rewrite !Hsame, !Hsame'.
Qed.

End SubmitTheorems2.

(** ** The theorems at the sample data *)

Lemma addOrderBy_appends_one_witness :
  let order := {| sqlparser.Expr_ := sqlparser.ColName "i" SampleQuery.unqualified;
                  sqlparser.Direction := sqlparser.DescOrder |} in
  let qp' := abstract.appendOrder SampleQuery.qp0
               {| abstract.Inner := order; abstract.WeightStrExpr := SampleQuery.id |} in
  ∃ o, abstract.OrderExprs qp' = abstract.OrderExprs SampleQuery.qp0 ++ [o]
       ∧ sqlparser.Direction (abstract.Inner o) = sqlparser.DescOrder
       ∧ abstract.SelectExprs qp' = abstract.SelectExprs SampleQuery.qp0
       ∧ abstract.HasAggr qp' = abstract.HasAggr SampleQuery.qp0
       ∧ abstract.GroupByExprs qp' = abstract.GroupByExprs SampleQuery.qp0.
Proof.
  intros order qp'.
  exact (addOrderBy_appends_one (H := SampleQuery.functions)
           SampleQuery.qp0 order qp' eq_refl).
Defined.

Lemma addOrderBy_alias_witness :
  let order := {| sqlparser.Expr_ := sqlparser.ColName "i" SampleQuery.unqualified;
                  sqlparser.Direction := sqlparser.DescOrder |} in
  let aliased := abstract.aliased_as (H := SampleQuery.functions) "i" in
  ∃ weight,
    abstract.addOrderBy (H := SampleQuery.functions) SampleQuery.qp0 order
    = Some (abstract.appendOrder SampleQuery.qp0
              {| abstract.Inner := order; abstract.WeightStrExpr := weight |})
    ∧ ((∃ i selectExpr,
           abstract.SelectExprs SampleQuery.qp0 !! i = Some selectExpr
           ∧ aliased selectExpr = true
           ∧ (∀ j other, (j < i)%nat →
                abstract.SelectExprs SampleQuery.qp0 !! j = Some other →
                aliased other = false)
           ∧ weight = abstract.Expr (abstract.Col selectExpr))
       ∨ (Forall (λ other, aliased other = false) (abstract.SelectExprs SampleQuery.qp0)
          ∧ weight = sqlparser.ColName "i" SampleQuery.unqualified)).
Proof.
  intros order aliased.
  exact (addOrderBy_alias (H := SampleQuery.functions) SampleQuery.qp0 "i"
           SampleQuery.unqualified sqlparser.DescOrder eq_refl).
Defined.

Lemma addOrderBy_by_position_witness :
  let second := {| sqlparser.Expr_ := sqlparser.Literal sqlparser.IntVal "2";
                   sqlparser.Direction := sqlparser.AscOrder |} in
  let third := {| sqlparser.Expr_ := sqlparser.Literal sqlparser.IntVal "3";
                  sqlparser.Direction := sqlparser.AscOrder |} in
  (abstract.addOrderBy (H := SampleQuery.functions) SampleQuery.qp0 third = None
   ↔ ¬ abstract.position_in_range "3" SampleQuery.qp0)
  ∧ (abstract.addOrderBy (H := SampleQuery.functions) SampleQuery.qp0 second = None
     ↔ ¬ abstract.position_in_range "2" SampleQuery.qp0).
Proof.
  intros second third.
  assert (Z.of_nat (length (abstract.SelectExprs SampleQuery.qp0)) ≤ int64_max) as Hlen
    by (by vm_compute).
  split.
  - exact (proj1 (addOrderBy_by_position (H := SampleQuery.functions) SampleQuery.qp0
                    "3" sqlparser.AscOrder Hlen)).
  - exact (proj1 (addOrderBy_by_position (H := SampleQuery.functions) SampleQuery.qp0
                    "2" sqlparser.AscOrder Hlen)).
Defined.

Lemma CreateQPFromSelect_select_list_witness :
  sqlparser.SelectExprs SampleQuery.sel
  = map abstract.toSelectExpr (abstract.SelectExprs SampleQuery.qp)
  ∧ Forall (abstract.checked (H := SampleQuery.functions))
      (abstract.SelectExprs SampleQuery.qp)
  ∧ abstract.HasAggr SampleQuery.qp
    = existsb abstract.Aggr (abstract.SelectExprs SampleQuery.qp)
  ∧ abstract.GroupByExprs SampleQuery.qp = sqlparser.GroupBy SampleQuery.sel.
Proof.
  exact (CreateQPFromSelect_select_list (H := SampleQuery.functions)
           SampleQuery.sel SampleQuery.qp eq_refl).
Defined.

Lemma CreateQPFromSelect_no_mix_witness :
  Forall (λ selectExpr, abstract.Aggr selectExpr = true)
    (abstract.SelectExprs SampleQuery.qp_by_position).
Proof.
  exact (CreateQPFromSelect_no_mix (H := SampleQuery.functions)
           SampleQuery.sel_by_position SampleQuery.qp_by_position
           eq_refl eq_refl eq_refl).
Defined.

Lemma CreateQPFromSelect_orderings_witness :
  ∃ os added,
    abstract.OrderExprs SampleQuery.qp = os ++ added
    ∧ Forall2 (abstract.ordering_of (H := SampleQuery.functions)
                 (abstract.SelectExprs SampleQuery.qp))
        (sqlparser.OrderBy SampleQuery.sel) os
    ∧ map (λ o, sqlparser.Direction (abstract.Inner o)) os
      = map sqlparser.Direction (sqlparser.OrderBy SampleQuery.sel)
    ∧ Forall (λ o, ∃ e, e ∈ sqlparser.GroupBy SampleQuery.sel
                        ∧ abstract.ordering_of (H := SampleQuery.functions)
                            (abstract.SelectExprs SampleQuery.qp)
                            {| sqlparser.Expr_ := e;
                               sqlparser.Direction := sqlparser.AscOrder |} o) added
    ∧ Forall (λ o, sqlparser.Direction (abstract.Inner o) = sqlparser.AscOrder) added
    ∧ (length added ≤ length (sqlparser.GroupBy SampleQuery.sel))%nat.
Proof.
  apply (CreateQPFromSelect_orderings (H := SampleQuery.functions)
           SampleQuery.sel SampleQuery.qp); [by vm_compute | reflexivity].
Defined.

Lemma CreateQPFromSelect_grouping_ordered_witness :
  ∃ o, o ∈ abstract.OrderExprs SampleQuery.qp
       ∧ (sqlparser.EqualsExpr (Functions := SampleQuery.functions) SampleQuery.id
            (sqlparser.Expr_ (abstract.Inner o)) = true
          ∨ abstract.Inner o = {| sqlparser.Expr_ := SampleQuery.id;
                                  sqlparser.Direction := sqlparser.AscOrder |}).
Proof.
  apply (CreateQPFromSelect_grouping_ordered (H := SampleQuery.functions)
           SampleQuery.sel SampleQuery.qp SampleQuery.id eq_refl).
  - apply list_elem_of_here.
  - intros [].
Defined.

Lemma CreateQPFromSelect_panics_on_positions_only_witness :
  abstract.CreateQPFromSelect (H := SampleQuery.functions) SampleQuery.sel
  ≠ abstract.Panicked
  ∧ 1 ≤ strconv.Atoi "1"
      ≤ Z.of_nat (length (sqlparser.SelectExprs SampleQuery.sel_by_position)).
Proof.
  split.
  - apply (proj1 (CreateQPFromSelect_panics_on_positions_only
                    (H := SampleQuery.functions) SampleQuery.sel)).
    + repeat constructor. intros [].
    + repeat constructor. intros [].
  - apply (proj2 (CreateQPFromSelect_panics_on_positions_only
                    (H := SampleQuery.functions) SampleQuery.sel_by_position)
             ltac:(by vm_compute) SampleQuery.qp_by_position
             {| sqlparser.Expr_ := sqlparser.Literal sqlparser.IntVal "1";
                sqlparser.Direction := sqlparser.AscOrder |} "1" eq_refl).
    + apply list_elem_of_here.
    + reflexivity.
Defined.

Lemma DiscoverInstance_forced_witness :
  let env := Sample.env 0 (Some (Sample.instanceA true))
               (ProbeInstance (Sample.instanceA true)) (2 * Millisecond) (3 * Millisecond) in
  let r := DiscoverInstance (H := Sample.methods) Sample.globals0 Sample.keyA true env in
  count is_backend_read r.2 = 1%nat ∧ count is_probe r.2 = 1%nat.
Proof.
  intros env r.
  destruct (DiscoverInstance_forced (H := Sample.methods) Sample.globals0 Sample.keyA
              env eq_refl) as (Hread & Hprobe & _).
  exact (conj Hread Hprobe).
Defined.

Lemma DiscoverInstance_skipped_witness :
  let nameless := {| Hostname := ""; Port := 3306 |} in
  let env := Sample.env 0 None (ProbeInstance (Sample.instanceA true))
               (2 * Millisecond) (3 * Millisecond) in
  let r := DiscoverInstance (H := Sample.methods) Sample.globals0 nameless true env in
  r.1 = Sample.globals0 ∧ count is_probe r.2 = 0%nat.
Proof.
  intros nameless env r.
  destruct (DiscoverInstance_skipped (H := Sample.methods) Sample.globals0 nameless
              true env (or_intror (or_intror eq_refl))) as (Hsame & _ & _ & Hprobe & _).
  exact (conj Hsame Hprobe).
Defined.

Lemma reload_changes_ttl_of_new_markers_witness :
  let senv := {| reloaded := {| InstancePollSeconds := 10; DiscoveryMaxConcurrency := 300;
                                DiscoveryCollectionRetentionSeconds := 120;
                                BufferInstanceWrites := false; GrabElection := false |};
                 shutdownWaitTime := 5 * Second;
                 shardsLockCounterAt := λ _, 0;
                 elapsedAt := λ _, 0 |} in
  let env := Sample.env (7 * Second) None (ProbeInstance (Sample.instanceA true))
               (2 * Millisecond) (3 * Millisecond) in
  ∃ g1 tr,
    acceptSignals 1 SIGHUP Sample.globals0 senv = Some (g1, tr, false)
    ∧ recentDiscoveryOperationKeys
        (DiscoverInstance (H := Sample.methods) g1 Sample.keyA false env).1
      !! throttle_key (H := Sample.methods) Sample.keyA env
      = Some (7 * Second + instancePollSecondsDuration (reloaded senv)).
Proof.
  intros senv env.
  destruct (reload_changes_ttl_of_new_markers (H := Sample.methods) Sample.globals0
              senv 1 Sample.keyA env "db-b:3306" eq_refl)
    as (g1 & tr & Hrun & _ & _ & _ & _ & Hnew & _).
  - by vm_compute.
  - exists g1, tr. exact (conj Hrun Hnew).
Defined.

Lemma unelected_process_runs_no_leader_task_witness :
  let d := ContinuousDiscovery_setup (set_isElectedNode 0 Sample.globals0) 0 in
  let lost := HealthTick (Sample.healthEnv (Elected false)) in
  let acts := [lost; InstancePollTick; CaretakingTick (20 * Second); RecoveryTick;
               SnapshotTopologiesTick; TabletTopoTick] in
  ∃ new, trace (run (H := Sample.methods) acts d) = trace d ++ new
         ∧ Forall (λ e, runs_unelected e = true) new.
Proof.
  intros d lost acts.
  apply (unelected_process_runs_no_leader_task (H := Sample.methods) d acts eq_refl).
  - constructor.
  - apply Forall_cons. split; [by right | by repeat constructor].
Defined.

Lemma primaries_submitted_when_ripe_and_elected_witness :
  let acts := [HealthTick (Sample.healthEnv (Elected true));
               CaretakingTick (10 * Second); CaretakingTick (14 * Second)] in
  count is_submit_primaries
    (trace (run (H := Sample.methods) acts (ContinuousDiscovery_setup Sample.globals0 0)))
  = 0%nat.
Proof.
  intros acts.
  apply (proj2 (primaries_submitted_when_ripe_and_elected (H := Sample.methods)
                  Sample.globals0 0 acts)).
  repeat constructor.
Defined.

Lemma recovery_tick_runs_one_pass_when_ripe_witness :
  let d1 := guard_run 0 (20 * Second) (RecoverReturned (Some "no topology"%string))
              (onRecoveryTick Sample.dispatcher0) in
  let d2 := guard_run 1 (40 * Second) RecoverPanicked (onRecoveryTick d1) in
  recoveryEntrance d1 = 0
  ∧ recoveryEntrance d2 = 0
  ∧ count is_check_and_recover (trace d2) = 2%nat.
Proof.
  intros d1 d2.
  destruct (recovery_tick_runs_one_pass_when_ripe Sample.dispatcher0
              (20 * Second) (40 * Second) (RecoverReturned (Some "no topology"%string))
              RecoverPanicked (Some "no topology"%string)
              eq_refl eq_refl eq_refl eq_refl)
    as (Hidle & _ & _ & Hidle2 & _ & Htwo).
  exact (conj Hidle (conj Hidle2 Htwo)).
Defined.

Lemma demoted_workers_skip_discovery_witness :
  let env := Sample.env 0 None (ProbeInstance (Sample.instanceA true))
               (2 * Millisecond) (3 * Millisecond) in
  let r := handleDiscoveryRequests_loop (H := Sample.methods) [env; env]
             (set_isElectedNode 0 Sample.globals0) in
  count is_release r.2 = count is_consume r.2 ∧ count is_probe r.2 = 0%nat.
Proof.
  intros env r.
  destruct (demoted_workers_skip_discovery (H := Sample.methods) [env; env]
              (set_isElectedNode 0 Sample.globals0) eq_refl)
    as (Hbalanced & _ & _ & _ & Hprobe).
  exact (conj Hbalanced Hprobe).
Defined.

Lemma poll_interval_overflow_witness :
  instancePollSecondsDuration Sample.cfg = 5 * Second
  ∧ checkAndRecoverWaitPeriod_of Sample.cfg = 3 * (5 * Second).
Proof.
  destruct (poll_interval_overflow Sample.cfg) as (Hpoll & _ & Hwait & _).
  split.
  - apply Hpoll. by vm_compute.
  - apply Hwait. by vm_compute.
Defined.

Lemma SubmitPrimariesToKvStores_count_witness :
  let r := kv.SubmitPrimariesToKvStores (SampleKv.env None) "" true in
  r.1.1.2 = Z.of_nat (kv.accepted (SampleKv.env None) 0 (kv.puts r.2)).
Proof.
  intros r.
  apply (SubmitPrimariesToKvStores_count (SampleKv.env None) "" true).
  by vm_compute.
Defined.

Lemma SubmitPrimariesToKvStores_forced_witness :
  let r := kv.SubmitPrimariesToKvStores (SampleKv.env (Some "read-only"%string)) "" true in
  kv.puts r.2 = [SampleKv.primary_a; SampleKv.primary_b; SampleKv.primary_c]
  ∧ kv.lookups r.2 = [] ∧ kv.reads r.2 = [] ∧ kv.marks r.2 = [].
Proof.
  intros r.
  exact (SubmitPrimariesToKvStores_forced (SampleKv.env (Some "read-only"%string)) ""
           eq_refl).
Defined.

Lemma SubmitPrimariesToKvStores_periodic_witness :
  let r := kv.SubmitPrimariesToKvStores (SampleKv.env None) "" false in
  let at_ := kv.positions 0 r.1.1.1 in
  kv.lookups r.2 = map kv.Key r.1.1.1
  ∧ kv.reads r.2
    = map (λ ip, kv.Key ip.2) (filter (λ ip, kv.cached (SampleKv.env None) ip = false) at_)
  ∧ kv.marks r.2
    = map (λ ip, kv.Key ip.2)
        (filter (λ ip, kv.cached (SampleKv.env None) ip = false
                       ∧ kv.stored (SampleKv.env None) ip = true) at_)
  ∧ kv.puts r.2
    = (filter (λ ip, kv.cached (SampleKv.env None) ip = false
                     ∧ kv.stored (SampleKv.env None) ip = false) at_).*2.
Proof.
  intros r at_.
  exact (SubmitPrimariesToKvStores_periodic (SampleKv.env None) "" eq_refl).
Defined.

Lemma SubmitPrimariesToKvStores_distributes_witness :
  let r := kv.SubmitPrimariesToKvStores (SampleKv.env None) "" false in
  kv.distributed r.2 = [[SampleKv.primary_a; SampleKv.primary_b; SampleKv.primary_c]]
  ∧ r.1.2 = None.
Proof.
  intros r.
  destruct (SubmitPrimariesToKvStores_distributes (SampleKv.env None) "" false eq_refl)
    as (Honce & _).
  split; [exact Honce | reflexivity].
Defined.

Lemma DiscoverInstance_cache_frame_witness :
  let env := Sample.env 0 None (ProbeInstance (Sample.instanceA true))
               (2 * Millisecond) (3 * Millisecond) in
  let r := DiscoverInstance (H := Sample.methods) Sample.globals0 Sample.keyA false env in
  recentDiscoveryOperationKeys r.1 !! "db-b:3306"%string
  = recentDiscoveryOperationKeys Sample.globals0 !! "db-b:3306"%string.
Proof.
  intros env r.
  apply (proj1 (DiscoverInstance_cache_frame (H := Sample.methods) Sample.globals0
                  Sample.keyA false env "db-b:3306")).
  by vm_compute.
Defined.


Lemma SubmitPrimariesToKvStores_error_witness :
  let r := kv.SubmitPrimariesToKvStores SampleKv.unreadable "" false in
  let r' := kv.SubmitPrimariesToKvStores (SampleKv.env (Some "read-only"%string)) "" true in
  (r.1.2 = Some "backend is down"%string ∧ kv.puts r.2 = [])
  ∧ ∃ k, kv.last_refused (SampleKv.env (Some "read-only"%string)) 0 (kv.puts r'.2) k
           "read-only".
Proof.
  intros r r'. split.
  - destruct (proj1 (proj2 (proj2 (SubmitPrimariesToKvStores_error
                                     SampleKv.unreadable "" false)))
                "backend is down"%string eq_refl) as (Herr & _ & Hputs & _).
    exact (conj Herr Hputs).
  - exact (proj2 (proj2 (proj2 (SubmitPrimariesToKvStores_error
                                  (SampleKv.env (Some "read-only"%string)) "" true)))
             "read-only"%string eq_refl eq_refl).
Defined.
